(** * crypto-mcp: the discovery-and-ranking pipeline

    A shallow embedding of the indicator engine, the classifier, the
    ranker/filter and the request cache of the CoinMarketCap MCP server
    (the server file with [makeApiRequest], [calcEMA], [sma], [rma] and the
    two tools [discover-top] and [discover-pick], and
    [examples/run-discover-top.ts]).

    Numbers.  A JavaScript number is modelled as an exact rational extended
    with [+Infinity], [-Infinity] and [NaN]: division by zero, arithmetic on
    [undefined] and the comparisons with [NaN] behave as in the language,
    while rounding and overflow of binary64 are outside the model.  Signed
    zero is not distinguished (every zero divisor of the program is [+0]).
    A statement that depends on the arithmetic being exact says so;
    [Binary64] holds [rma] in the arithmetic of the program. *)

From Stdlib Require Import ZArith QArith Qminmax Qabs Lqa Lia Psatz.
From Stdlib Require Import Ascii String DecimalString.
From Stdlib Require Floats Uint63.
From stdpp Require Import gmap strings list sorting.

Local Open Scope Z_scope.

(** ** Numbers *)

Module Num.

Inductive num : Type :=
| Fin (q : Q)
| PInf
| NInf
| NaN.

Definition of_Z (z : Z) : num := Fin (inject_Z z).

Definition neg (x : num) : num :=
  match x with
  | Fin q => Fin (- q)
  | PInf => NInf
  | NInf => PInf
  | NaN => NaN
  end.

Definition add (x y : num) : num :=
  match x, y with
  | NaN, _ | _, NaN => NaN
  | Fin a, Fin b => Fin (a + b)
  | PInf, NInf | NInf, PInf => NaN
  | PInf, _ | _, PInf => PInf
  | NInf, _ | _, NInf => NInf
  end.

Definition sub (x y : num) : num := add x (neg y).

(** The infinity [i] multiplied by a finite factor of the sign of [a]. *)
Definition scale_inf (a : Q) (i : num) : num :=
  match (a ?= 0)%Q with
  | Eq => NaN
  | Gt => i
  | Lt => neg i
  end.

Definition mul (x y : num) : num :=
  match x, y with
  | NaN, _ | _, NaN => NaN
  | Fin a, Fin b => Fin (a * b)
  | Fin a, i | i, Fin a => scale_inf a i
  | PInf, PInf | NInf, NInf => PInf
  | PInf, NInf | NInf, PInf => NInf
  end.

Definition div (x y : num) : num :=
  match x, y with
  | NaN, _ | _, NaN => NaN
  | Fin a, Fin b =>
      if Qeq_bool b 0
      then match (a ?= 0)%Q with Eq => NaN | Gt => PInf | Lt => NInf end
      else Fin (a / b)
  | Fin _, _ => Fin 0
  | i, Fin b => if Qle_bool 0 b then i else neg i
  | _, _ => NaN
  end.

(** [Math.abs] *)
Definition abs (x : num) : num :=
  match x with
  | Fin q => Fin (Qabs q)
  | PInf | NInf => PInf
  | NaN => NaN
  end.

(** [x < y], [x <= y], [x === y] and [x > y] on numbers. *)
Definition ltb (x y : num) : bool :=
  match x, y with
  | NaN, _ | _, NaN => false
  | Fin a, Fin b => negb (Qle_bool b a)
  | NInf, NInf | PInf, _ | _, NInf => false
  | _, _ => true
  end.

Definition leb (x y : num) : bool :=
  match x, y with
  | NaN, _ | _, NaN => false
  | Fin a, Fin b => Qle_bool a b
  | NInf, _ | _, PInf => true
  | _, _ => false
  end.

Definition eqb (x y : num) : bool :=
  match x, y with
  | Fin a, Fin b => Qeq_bool a b
  | PInf, PInf | NInf, NInf => true
  | _, _ => false
  end.

Definition gtb (x y : num) : bool := ltb y x.

(** [Math.max] of two arguments: [NaN] as soon as one argument is. *)
Definition max (x y : num) : num :=
  match x, y with
  | NaN, _ | _, NaN => NaN
  | _, _ => if ltb x y then y else x
  end.

(** [Math.max(a, b, c)] *)
Definition max3 (a b c : num) : num := max (max a b) c.

(** Truthiness of a number: every number but [0] and [NaN]. *)
Definition truthy (x : num) : bool :=
  match x with
  | Fin q => negb (Qeq_bool q 0)
  | PInf | NInf => true
  | NaN => false
  end.

Definition lt (x y : num) : Prop := ltb x y = true.
Definition le (x y : num) : Prop := leb x y = true.
Definition eq (x y : num) : Prop := eqb x y = true.

(** The same number, up to the representation of the rational. *)
Definition same (x y : num) : Prop :=
  match x, y with
  | Fin a, Fin b => a == b
  | PInf, PInf | NInf, NInf | NaN, NaN => True
  | _, _ => False
  end.

End Num.

Import Num.

Declare Scope num_scope.
Delimit Scope num_scope with num.
Bind Scope num_scope with num.
Infix "+" := Num.add : num_scope.
Infix "-" := Num.sub : num_scope.
Infix "*" := Num.mul : num_scope.
Infix "/" := Num.div : num_scope.

(** ** Values: a number, [null] or [undefined] *)

Inductive jsval : Type :=
| JNull
| JUndef
| JNum (x : num).

(** The numeric coercion applied by the arithmetic operators. *)
Definition to_num (v : jsval) : num :=
  match v with
  | JNull => of_Z 0
  | JUndef => NaN
  | JNum x => x
  end.

(** [v ?? 0] *)
Definition nullish0 (v : jsval) : num :=
  match v with
  | JNum x => x
  | JNull | JUndef => of_Z 0
  end.

(** [v ?? null], as a value of type [number | null] *)
Definition nullish_null (v : jsval) : option num :=
  match v with
  | JNum x => Some x
  | JNull | JUndef => None
  end.

Definition js_truthy (v : jsval) : bool :=
  match v with
  | JNum x => truthy x
  | JNull | JUndef => false
  end.

(** [arr[i]]: [undefined] outside of the array. *)
Definition arr_get (arr : list num) (i : Z) : jsval :=
  if i <? 0 then JUndef
  else match nth_error arr (Z.to_nat i) with
       | Some x => JNum x
       | None => JUndef
       end.

Definition arr_length {A} (arr : list A) : Z := Z.of_nat (length arr).

(** ** Loops *)

(** [for (let i = lo; i < hi; i++) acc = body(i, acc)] *)
Definition for_loop {A} (lo hi : Z) (body : Z -> A -> A) (init : A) : A :=
  fold_left (fun acc k => body (lo + Z.of_nat k) acc)
            (seq 0 (Z.to_nat (hi - lo))) init.

(** ** Indicator engine *)

Definition ema_step (k : num) (ema x : num) : num :=
  (x * k + ema * (of_Z 1 - k))%num.

Definition calcEMA (arr : list num) (n : Z) : jsval :=
  if arr_length arr <? n then JNull
  else
    let k := (of_Z 2 / of_Z (n + 1))%num in
    let ema := arr_get arr 0 in
    for_loop 1 (arr_length arr)
      (fun i ema => JNum (ema_step k (to_num ema) (to_num (arr_get arr i))))
      ema.

Definition sma (arr : list num) (n : Z) : jsval :=
  if arr_length arr <? n then JNull
  else
    let sum :=
      for_loop (arr_length arr - n) (arr_length arr)
        (fun i sum => (sum + to_num (arr_get arr i))%num) (of_Z 0) in
    JNum (sum / of_Z n)%num.

Definition rma_step (alpha : num) (val x : num) : num :=
  (alpha * x + (of_Z 1 - alpha) * val)%num.

(** The variable [val] of [rma] once the elements of index below [m] are
    consumed: the body of [rma] with [m] as the bound of its second loop. *)
Definition rma_upto (arr : list num) (n m : Z) : num :=
  let sum :=
    for_loop 0 n (fun i sum => (sum + to_num (arr_get arr i))%num) (of_Z 0) in
  let val := (sum / of_Z n)%num in
  let alpha := (of_Z 1 / of_Z n)%num in
  for_loop n m (fun i val => rma_step alpha val (to_num (arr_get arr i))) val.

Definition rma (arr : list num) (n : Z) : jsval :=
  if arr_length arr <? n then JNull
  else JNum (rma_upto arr n (arr_length arr)).

(** ** The smoothing in the program's own arithmetic *)

(** [rma] once more, on binary64 numbers with the rounding of every
    operation, to tell which properties of [rma] above are properties of
    the program and which hold in exact arithmetic only. *)
Module Binary64.

Inductive value : Type :=
| Null
| Undef
| Num (x : PrimFloat.float).

(** The number [z], for an integer below 2^53 in absolute value. *)
Definition float_of_Z (z : Z) : PrimFloat.float :=
  if z <? 0 then PrimFloat.opp (PrimFloat.of_uint63 (Uint63.of_Z (- z)))
  else PrimFloat.of_uint63 (Uint63.of_Z z).

Definition to_num (v : value) : PrimFloat.float :=
  match v with
  | Num x => x
  | Null => PrimFloat.zero
  | Undef => PrimFloat.nan
  end.

Definition arr_get (arr : list PrimFloat.float) (i : Z) : value :=
  if i <? 0 then Undef
  else match nth_error arr (Z.to_nat i) with
       | Some x => Num x
       | None => Undef
       end.

Definition rma (arr : list PrimFloat.float) (n : Z) : value :=
  if arr_length arr <? n then Null
  else
    let sum :=
      for_loop 0 n
        (fun i sum => PrimFloat.add sum (to_num (arr_get arr i)))
        PrimFloat.zero in
    let val := PrimFloat.div sum (float_of_Z n) in
    let alpha := PrimFloat.div PrimFloat.one (float_of_Z n) in
    Num (for_loop n (arr_length arr)
           (fun i val =>
              PrimFloat.add (PrimFloat.mul alpha (to_num (arr_get arr i)))
                            (PrimFloat.mul (PrimFloat.sub PrimFloat.one alpha) val))
           val).

End Binary64.


(** ** Price history and true range *)

(** One kline after [parseFloat] of its fields 2, 3 and 4. *)
Record candle : Type := Candle {
  high : num;
  low : num;
  close : num
}.

(** The [tr] array built by the loop of both tools. *)
Definition true_range (highs lows closes : list num) : list num :=
  for_loop 0 (arr_length closes)
    (fun i tr =>
       let hl := (nullish0 (arr_get highs i) - nullish0 (arr_get lows i))%num in
       let hc :=
         if 0 <? i
         then abs (nullish0 (arr_get highs i) - nullish0 (arr_get closes (i - 1)))%num
         else of_Z 0 in
       let lc :=
         if 0 <? i
         then abs (nullish0 (arr_get lows i) - nullish0 (arr_get closes (i - 1)))%num
         else of_Z 0 in
       tr ++ [max3 hl hc lc])
    [].

(** The true range of the candle [k], [prev] being the close before it. *)
Definition candle_tr (prev : option num) (k : candle) : num :=
  match prev with
  | None => max3 (high k - low k)%num (of_Z 0) (of_Z 0)
  | Some c =>
      max3 (high k - low k)%num (abs (high k - c)%num) (abs (low k - c)%num)
  end.

(** ** Classifier *)

Inductive trend : Type := Up | Down.

Inductive rating : Type := StrongUp | RUp | Neutral | RDown | StrongDown.

(** [rate] of [examples/run-discover-top.ts] *)
Definition rate (t : option trend) (pct24h : option num) : rating :=
  match t with
  | Some Up =>
      match pct24h with
      | Some p =>
          if gtb p (of_Z 2) then StrongUp
          else if gtb p (of_Z 1) then RUp else Neutral
      | None => Neutral
      end
  | Some Down =>
      match pct24h with
      | Some p =>
          if ltb p (of_Z (-2)) then StrongDown
          else if ltb p (of_Z (-1)) then RDown else Neutral
      | None => Neutral
      end
  | None => Neutral
  end.

(** The [rating] variable of the two tools: initialised to neutral, then
    two successive tests of [trend]. *)
Definition tool_rating (t : option trend) (pct24h : option num) : rating :=
  let rating := Neutral in
  let rating :=
    match t with
    | Some Up =>
        if match pct24h with Some p => gtb p (of_Z 2) | None => false end
        then StrongUp
        else if match pct24h with Some p => gtb p (of_Z 1) | None => false end
             then RUp else Neutral
    | _ => rating
    end in
  match t with
  | Some Down =>
      if match pct24h with Some p => ltb p (of_Z (-2)) | None => false end
      then StrongDown
      else if match pct24h with Some p => ltb p (of_Z (-1)) | None => false end
           then RDown else Neutral
  | _ => rating
  end.

(** [x !== null] for the result of an indicator. *)
Definition not_null (v : jsval) : bool :=
  match v with
  | JNull => false
  | _ => true
  end.

Definition classify_trend (ema50 ema200 sma200 : jsval) (lastClose : option num)
  : option trend :=
  if not_null ema50 && not_null ema200
  then Some (if gtb (to_num ema50) (to_num ema200) then Up else Down)
  else if not_null sma200
       then match lastClose with
            | Some c => Some (if gtb c (to_num sma200) then Up else Down)
            | None => None
            end
       else None.

(** ** Summaries *)

(** The [cmc] block.  Each field holds what the listing element holds,
    unchecked: a number, [null], or [undefined] when the element has no
    such field. *)
Record provenance : Type := Provenance {
  market_cap : jsval;
  percent_change_24h : jsval;
  rank : jsval
}.

Record summary : Type := Summary {
  symbol : string;
  price : option num;
  pct24h : option num;
  vol24h : option num;
  atrPct : option num;
  s_trend : option trend;
  s_rating : rating;
  cmc : option provenance
}.

(** [atr && lastClose ? (atr / lastClose) * 100 : null] *)
Definition atr_percent (atr : jsval) (lastClose : option num) : option num :=
  match lastClose with
  | Some c =>
      if js_truthy atr && truthy c
      then Some (to_num atr / c * of_Z 100)%num
      else None
  | None => None
  end.

Definition last_close (closes : list num) : option num :=
  nullish_null (arr_get closes (arr_length closes - 1)).

Definition asset_atr (klines : list candle) : jsval :=
  rma (true_range (map high klines) (map low klines) (map close klines)) 14.

(** The body of the per-asset loop once the ticker and the klines are
    fetched: [base] is the listing's symbol, [tick_pct] and [tick_vol] are
    the parsed fields of the ticker. *)
Definition summarize (base : string) (tick_pct tick_vol : option num)
    (klines : list candle) (item : option provenance) : summary :=
  let closes := map close klines in
  let lastClose := last_close closes in
  let atr := asset_atr klines in
  let atrPct := atr_percent atr lastClose in
  let ema50 := calcEMA closes 50 in
  let ema200 := calcEMA closes 200 in
  let sma200 := sma closes 200 in
  let trend := classify_trend ema50 ema200 sma200 lastClose in
  {| symbol := base +:+ "USDT";
     price := lastClose;
     pct24h := tick_pct;
     vol24h := tick_vol;
     atrPct := atrPct;
     s_trend := trend;
     s_rating := tool_rating trend tick_pct;
     cmc := item |}.

(** ** Ranker and filter *)

(** The predicate of [summaries.filter] in discover-pick. *)
Definition pick_filter (rankMax atrPctMax : num) (s : summary) : bool :=
  let rankOk :=
    match cmc s with
    | Some c =>
        match rank c with
        | JUndef => false
        | r => leb (to_num r) rankMax
        end
    | None => false
    end in
  let atrOk :=
    match atrPct s with
    | Some a => leb a atrPctMax
    | None => false
    end in
  rankOk && atrOk.

Definition ratingScore (r : rating) : num :=
  match r with
  | StrongUp => of_Z 4
  | RUp => of_Z 3
  | Neutral => of_Z 2
  | RDown => of_Z 1
  | StrongDown => of_Z 0
  end.

(** [a.atrPct !== null ? a.atrPct : Number.POSITIVE_INFINITY] *)
Definition atr_key (s : summary) : num :=
  match atrPct s with Some a => a | None => PInf end.

(** [a.vol24h ?? 0] *)
Definition vol_key (s : summary) : num :=
  match vol24h s with Some v => v | None => of_Z 0 end.

(** [a.pct24h !== null ? Math.abs(a.pct24h) : 0] *)
Definition move_key (s : summary) : num :=
  match pct24h s with Some p => abs p | None => of_Z 0 end.

(** The comparator of [summaries.sort] in discover-top. *)
Definition cmp_top (a b : summary) : num :=
  let ra := ratingScore (s_rating a) in
  let rb := ratingScore (s_rating b) in
  if negb (eqb rb ra) then (rb - ra)%num
  else
    let aAtr := atr_key a in
    let bAtr := atr_key b in
    if negb (eqb aAtr bAtr) then (aAtr - bAtr)%num
    else
      let ma := move_key a in
      let mb := move_key b in
      (mb - ma)%num.

(** [cmp] of discover-pick; [strategy] is the lower-cased parameter. *)
Definition cmp_pick (strategy : string) (a b : summary) : num :=
  let ra := ratingScore (s_rating a) in
  let rb := ratingScore (s_rating b) in
  if negb (eqb rb ra) then (rb - ra)%num
  else
    let tail :=
      let ma := move_key a in
      let mb := move_key b in
      (mb - ma)%num in
    if String.eqb strategy "strong_up_high_vol"
    then
      let va := vol_key a in
      let vb := vol_key b in
      if negb (eqb vb va) then (vb - va)%num
      else
        let aAtr := atr_key a in
        let bAtr := atr_key b in
        if negb (eqb aAtr bAtr) then (aAtr - bAtr)%num
        else tail
    else
      let aAtr := atr_key a in
      let bAtr := atr_key b in
      if negb (eqb aAtr bAtr) then (aAtr - bAtr)%num
      else
        let va := vol_key a in
        let vb := vol_key b in
        if negb (eqb vb va) then (vb - va)%num
        else tail.

(** [Array.prototype.sort]: a stable sort; a comparator result that is
    positive moves the later element first, any other result ([NaN]
    included) keeps the two in place.  The language fixes the result of
    [sort] for a consistent comparator only, and it is then the list
    computed here; for another comparator (one that meets a [NaN] key) the
    order is the engine's choice, and this list is one possible outcome. *)
Fixpoint sort_insert {A} (cmp : A -> A -> num) (x : A) (l : list A) : list A :=
  match l with
  | [] => [x]
  | y :: l' =>
      if gtb (cmp x y) (of_Z 0) then y :: sort_insert cmp x l'
      else x :: l
  end.

Definition js_sort {A} (cmp : A -> A -> num) (l : list A) : list A :=
  foldr (sort_insert cmp) [] l.

(** [l.slice(0, count)] for a count that is an integer. *)
Definition slice0 {A} (l : list A) (count : Z) : list A :=
  if count <? 0 then take (Z.to_nat (arr_length l + count)) l
  else take (Z.to_nat count) l.

Definition discover_top_rank (resultCount : Z) (summaries : list summary)
  : list summary :=
  slice0 (js_sort cmp_top summaries) resultCount.

Definition discover_pick_rank (strategy : string) (rankMax atrPctMax : num)
    (resultCount : Z) (summaries : list summary) : list summary :=
  let filtered := filter (fun s => pick_filter rankMax atrPctMax s = true) summaries in
  slice0 (js_sort (cmp_pick strategy) filtered) resultCount.

(** ** The request cache *)

(** A JSON payload. *)
#[warnings="-register-all"]
Inductive json : Type :=
| JsNull
| JsBool (b : bool)
| JsNumber (x : num)
| JsString (s : string)
| JsArray (items : list json)
| JsObject (fields : list (string * json)).

(** A value of the [params] record, as the tools build it: a string, the
    result of [parseInt] (an integer or [NaN]), [null] or [undefined]. *)
Inductive pval : Type :=
| PStr (s : string)
| PInt (z : Z)
| PNaN
| PNull
| PUndef.

(** An object as the list of its properties in enumeration order.  The
    property names of the program are words ([limit], [convert], [sort],
    ...), never array indices, so enumeration order is insertion order. *)
Definition object (V : Type) : Type := list (string * V).

(** [obj[key]] *)
Fixpoint obj_get {V} (obj : object V) (key : string) : option V :=
  match obj with
  | [] => None
  | (k, v) :: rest => if String.eqb k key then Some v else obj_get rest key
  end.

(** [obj[key] = v] *)
Fixpoint obj_set {V} (obj : object V) (key : string) (v : V) : object V :=
  match obj with
  | [] => [(key, v)]
  | (k, w) :: rest =>
      if String.eqb k key then (k, v) :: rest else (k, w) :: obj_set rest key v
  end.

Definition obj_keys {V} (obj : object V) : list string := map fst obj.

(** [keys.sort()]: the default order on strings. *)
Definition sort_keys (keys : list string) : list string :=
  merge_sort String.le keys.

(** [String(z)] for an integer below 10^21 in absolute value: its decimal
    digits.  (From 10^21 on the language prints an exponent.) *)
Definition string_of_Z (z : Z) : string :=
  NilZero.string_of_int (Z.to_int z).

Definition char (n : nat) : string := String (ascii_of_nat n) EmptyString.

Definition quote_char : string := char 34.
Definition backslash : string := char 92.

Definition hex_digit (n : nat) : string :=
  match n with
  | 10%nat => "a" | 11%nat => "b" | 12%nat => "c"
  | 13%nat => "d" | 14%nat => "e" | 15%nat => "f"
  | _ => string_of_Z (Z.of_nat n)
  end.

(** The escape of one character inside a JSON string. *)
Definition json_escape_char (c : ascii) : string :=
  let n := nat_of_ascii c in
  if (n =? 34)%nat then backslash +:+ quote_char
  else if (n =? 92)%nat then backslash +:+ backslash
  else if (n =? 8)%nat then backslash +:+ "b"
  else if (n =? 9)%nat then backslash +:+ "t"
  else if (n =? 10)%nat then backslash +:+ "n"
  else if (n =? 12)%nat then backslash +:+ "f"
  else if (n =? 13)%nat then backslash +:+ "r"
  else if (n <? 32)%nat
       then backslash +:+ "u00" +:+ hex_digit (n / 16) +:+ hex_digit (n mod 16)
       else String c EmptyString.

Fixpoint json_escape (s : string) : string :=
  match s with
  | EmptyString => EmptyString
  | String c rest => json_escape_char c +:+ json_escape rest
  end.

Definition json_quote (s : string) : string :=
  quote_char +:+ json_escape s +:+ quote_char.

(** [JSON.stringify] of a property value; [None] when the property is left
    out ([undefined]). *)
Definition stringify_pval (v : pval) : option string :=
  match v with
  | PStr s => Some (json_quote s)
  | PInt z => Some (string_of_Z z)
  | PNaN | PNull => Some "null"
  | PUndef => None
  end.

Definition stringify_props (obj : object pval) : list string :=
  omap (fun kv => match stringify_pval (snd kv) with
                  | Some s => Some (json_quote (fst kv) +:+ ":" +:+ s)
                  | None => None
                  end) obj.

(** [JSON.stringify(obj)] for a flat record. *)
Definition stringify_object (obj : object pval) : string :=
  "{" +:+ String.concat "," (stringify_props obj) +:+ "}".

(** The [sortedParams] object of [buildCacheKey]. *)
Definition sorted_params (params : object pval) : object pval :=
  fold_left
    (fun acc key =>
       match obj_get params key with
       | Some v => obj_set acc key v
       | None => obj_set acc key PUndef
       end)
    (sort_keys (obj_keys params)) [].

Definition buildCacheKey (endpoint : string) (params : object pval) : string :=
  endpoint +:+ "|" +:+ stringify_object (sorted_params params).

(** [String(value)] *)
Definition string_of_pval (v : pval) : string :=
  match v with
  | PStr s => s
  | PInt z => string_of_Z z
  | PNaN => "NaN"
  | PNull => "null"
  | PUndef => "undefined"
  end.

(** The request: the path under the base URL and the query parameters in
    the order they were appended. *)
Record url : Type := Url {
  u_path : string;
  u_query : list (string * string)
}.

Definition build_url (endpoint : string) (params : object pval) : url :=
  {| u_path := endpoint;
     u_query :=
       omap (fun kv =>
               match snd kv with
               | PUndef | PNull => None
               | v => Some (fst kv, string_of_pval v)
               end) params |}.

(** What the network answers to one [fetch]: the promise rejects, or a
    response arrives with a status and a body; the body is [None] when
    [response.json()] rejects (malformed payload). *)
Inductive response : Type :=
| NetworkError
| Http (status : Z) (body : option json).

(** [response.ok] *)
Definition status_ok (status : Z) : bool :=
  (200 <=? status) && (status <=? 299).

Record cache_entry : Type := CacheEntry {
  ts : Z;
  data : json
}.

(** The outcome of one call; [returned] is [None] for the [null] of the
    [catch] branch and the payload otherwise. *)
Record api_result : Type := ApiResult {
  returned : option json;
  cache_after : gmap string cache_entry;
  requests : list url;
  logged_error : bool
}.

(** [makeApiRequest]: [cache] is [apiCache] before the call, [ttl] is
    [CACHE_TTL_MS], [now] and [now'] are the two readings of [Date.now()]
    (at the lookup and at the store), [resp] is the network's answer should
    a fetch be issued. *)
Definition makeApiRequest (ttl : Z) (cache : gmap string cache_entry)
    (endpoint : string) (params : object pval)
    (now : Z) (resp : response) (now' : Z) : api_result :=
  let u := build_url endpoint params in
  let key := buildCacheKey endpoint params in
  let fresh :=
    match cache !! key with
    | Some cached => if now - ts cached <? ttl then Some (data cached) else None
    | None => None
    end in
  match fresh with
  | Some d =>
      {| returned := Some d; cache_after := cache;
         requests := []; logged_error := false |}
  | None =>
      match resp with
      | Http status (Some body) =>
          if status_ok status
          then {| returned := Some body;
                  cache_after := <[key := CacheEntry now' body]> cache;
                  requests := [u]; logged_error := false |}
          else {| returned := None; cache_after := cache;
                  requests := [u]; logged_error := true |}
      | _ =>
          {| returned := None; cache_after := cache;
             requests := [u]; logged_error := true |}
      end
  end.

(** A fetch that fails: network error, non-success status, or a body that
    is not JSON. *)
Definition failed (resp : response) : bool :=
  match resp with
  | NetworkError => true
  | Http status body =>
      negb (status_ok status) || match body with None => true | Some _ => false end
  end.

(** What the caller of [makeApiRequest] receives: the payload, or [null]
    from the [catch] branch.  A payload that is itself [null] is the same
    value to the caller. *)
Definition js_returned (r : api_result) : json :=
  match returned r with
  | Some d => d
  | None => JsNull
  end.

(** [j.data] for a payload: [None] is [undefined]. *)
Definition json_prop (j : json) (key : string) : option json :=
  match j with
  | JsObject fields => obj_get fields key
  | _ => None
  end.

(** [listings?.data ?? []] *)
Definition listing_data (listings : option json) : json :=
  match listings with
  | None => JsArray []
  | Some j =>
      match json_prop j "data" with
      | None | Some JsNull => JsArray []
      | Some d => d
      end
  end.

(** A history of calls against the process-wide cache. *)
Record call : Type := Call {
  c_endpoint : string;
  c_params : object pval;
  c_now : Z;
  c_resp : response;
  c_now' : Z
}.

Definition run_call (ttl : Z) (cache : gmap string cache_entry) (c : call)
  : api_result :=
  makeApiRequest ttl cache (c_endpoint c) (c_params c) (c_now c) (c_resp c)
                 (c_now' c).

Definition run_calls (ttl : Z) (cs : list call) (cache : gmap string cache_entry)
  : gmap string cache_entry :=
  fold_left (fun cache c => cache_after (run_call ttl cache c)) cs cache.


(** ** Reference definitions, in the words of the specification *)

(** The exponential moving average as a full recurrence: the first element
    is the seed, every later element [x] of the whole series updates it to
    [x*k + ema*(1-k)], with [k = 2/(p+1)].  The seed of an empty series is
    what reading its first element gives, [undefined]. *)
Definition ema_full (s : list num) (p : Z) : jsval :=
  let k := Num.div (of_Z 2) (of_Z (p + 1)) in
  match s with
  | [] => JUndef
  | x :: rest =>
      JNum (fold_left
              (fun ema y =>
                 Num.add (Num.mul y k) (Num.mul ema (Num.sub (of_Z 1) k)))
              rest x)
  end.

(** The rating as the specification tabulates it. *)
Definition rating_spec (t : option trend) (pct : option num) : rating :=
  match t, pct with
  | Some Up, Some p =>
      if ltb (of_Z 2) p then StrongUp
      else if ltb (of_Z 1) p then RUp else Neutral
  | Some Down, Some p =>
      if ltb p (of_Z (-2)) then StrongDown
      else if ltb p (of_Z (-1)) then RDown else Neutral
  | _, _ => Neutral
  end.

(** [a] goes before [b] in the order of strong_up_low_atr: rating score
    descending, then atrPercent ascending (absent as +infinity), then 24h
    volume descending, then absolute 24h change descending; the first key
    on which the two differ decides. *)
Definition before_low_atr (a b : summary) : Prop :=
  let ra := ratingScore (s_rating a) in
  let rb := ratingScore (s_rating b) in
  lt rb ra \/
  (Num.eq ra rb /\
   (lt (atr_key a) (atr_key b) \/
    (Num.eq (atr_key a) (atr_key b) /\
     (lt (vol_key b) (vol_key a) \/
      (Num.eq (vol_key a) (vol_key b) /\
       lt (move_key b) (move_key a)))))).

(** The same order without the volume key. *)
Definition before_no_volume (a b : summary) : Prop :=
  let ra := ratingScore (s_rating a) in
  let rb := ratingScore (s_rating b) in
  lt rb ra \/
  (Num.eq ra rb /\
   (lt (atr_key a) (atr_key b) \/
    (Num.eq (atr_key a) (atr_key b) /\
     lt (move_key b) (move_key a)))).

(** What a comparator result means to [sort]. *)
Definition puts_first (c : num) : Prop := lt c (of_Z 0).
Definition puts_last (c : num) : Prop := lt (of_Z 0) c.

(** Least and greatest element of a series of rationals. *)
Definition qmin_of (l : list Q) : Q :=
  match l with
  | [] => 0
  | x :: rest => fold_left Qmin rest x
  end.

Definition qmax_of (l : list Q) : Q :=
  match l with
  | [] => 0
  | x :: rest => fold_left Qmax rest x
  end.

(** The true-range series as the specification describes it: one value
    per candle, the first without a previous close. *)
Fixpoint tr_series (prev : option num) (ks : list candle) : list num :=
  match ks with
  | [] => []
  | k :: rest => candle_tr prev k :: tr_series (Some (close k)) rest
  end.

(** A number that is zero or [NaN]: the numbers that are not truthy. *)
Definition zero_or_nan (x : num) : Prop := same x (of_Z 0) \/ x = NaN.

(** One step of the smoothing on rationals. *)
Definition q_rma_step (a : Q) (v x : Q) : Q := (a * x + (1 - a) * v)%Q.

(** ** The lookup tools *)

(** [{ ...defaults, ...params }]: the properties of [params] are set on a
    copy of [defaults], in their order. *)
Definition spread {V} (defaults params : object V) : object V :=
  fold_left (fun acc kv => obj_set acc (fst kv) (snd kv)) params defaults.

(** Truthiness of a payload. *)
Definition json_truthy (j : json) : bool :=
  match j with
  | JsNull => false
  | JsBool b => b
  | JsNumber x => truthy x
  | JsString s => negb (String.eqb s EmptyString)
  | JsArray _ | JsObject _ => true
  end.

(** Truthiness of a parameter value. *)
Definition pval_truthy (v : pval) : bool :=
  match v with
  | PStr s => negb (String.eqb s EmptyString)
  | PInt z => negb (z =? 0)
  | PNaN | PNull | PUndef => false
  end.

(** [!params.name] *)
Definition param_missing (params : object pval) (name : string) : bool :=
  match obj_get params name with
  | Some v => negb (pval_truthy v)
  | None => true
  end.

(** The text a tool answers with: a fixed message, or the rendering
    [JSON.stringify(data, null, 2)] of a payload. *)
Inductive tool_text : Type :=
| TextMessage (s : string)
| TextJson (data : json).

Record tool_run : Type := ToolRun {
  t_text : tool_text;
  t_cache : gmap string cache_entry;
  t_requests : list url
}.

(** The request and the [if (!data)] test shared by the six lookup tools. *)
Definition run_tool (endpoint failure : string)
    (ttl : Z) (cache : gmap string cache_entry) (params : object pval)
    (now : Z) (resp : response) (now' : Z) : tool_run :=
  let r := makeApiRequest ttl cache endpoint params now resp now' in
  {| t_text :=
       match returned r with
       | Some d => if json_truthy d then TextJson d else TextMessage failure
       | None => TextMessage failure
       end;
     t_cache := cache_after r;
     t_requests := requests r |}.

Definition id_required : string :=
  "Error: At least one of 'symbol', 'slug', or 'id' is required".

(** [!params.symbol && !params.slug && !params.id] *)
Definition no_identifier (params : object pval) : bool :=
  param_missing params "symbol" && param_missing params "slug"
  && param_missing params "id".

Definition get_cryptocurrency_listings (ttl : Z) (cache : gmap string cache_entry)
    (params : object pval) (now : Z) (resp : response) (now' : Z) : tool_run :=
  run_tool "/cryptocurrency/listings/latest"
    "Failed to retrieve cryptocurrency listings" ttl cache
    (spread [("start", PStr "1"); ("limit", PStr "100"); ("convert", PStr "USD")]
            params)
    now resp now'.

Definition get_cryptocurrency_quotes (ttl : Z) (cache : gmap string cache_entry)
    (params : object pval) (now : Z) (resp : response) (now' : Z) : tool_run :=
  if no_identifier params
  then {| t_text := TextMessage id_required; t_cache := cache; t_requests := [] |}
  else run_tool "/cryptocurrency/quotes/latest"
         "Failed to retrieve cryptocurrency quotes" ttl cache
         (spread [("convert", PStr "USD")] params) now resp now'.

Definition get_cryptocurrency_map (ttl : Z) (cache : gmap string cache_entry)
    (params : object pval) (now : Z) (resp : response) (now' : Z) : tool_run :=
  run_tool "/cryptocurrency/map" "Failed to retrieve cryptocurrency map" ttl cache
    (spread [("listing_status", PStr "active"); ("start", PStr "1");
             ("limit", PStr "100")] params)
    now resp now'.

Definition get_cryptocurrency_info (ttl : Z) (cache : gmap string cache_entry)
    (params : object pval) (now : Z) (resp : response) (now' : Z) : tool_run :=
  if no_identifier params
  then {| t_text := TextMessage id_required; t_cache := cache; t_requests := [] |}
  else run_tool "/cryptocurrency/info" "Failed to retrieve cryptocurrency info"
         ttl cache params now resp now'.

Definition get_global_metrics (ttl : Z) (cache : gmap string cache_entry)
    (params : object pval) (now : Z) (resp : response) (now' : Z) : tool_run :=
  run_tool "/global-metrics/quotes/latest" "Failed to retrieve global metrics"
    ttl cache (spread [("convert", PStr "USD")] params) now resp now'.

Definition get_exchange_listings (ttl : Z) (cache : gmap string cache_entry)
    (params : object pval) (now : Z) (resp : response) (now' : Z) : tool_run :=
  run_tool "/exchange/listings/latest" "Failed to retrieve exchange listings"
    ttl cache
    (spread [("start", PStr "1"); ("limit", PStr "100"); ("convert", PStr "USD")]
            params)
    now resp now'.

(** ** The per-asset loop of the discovery tools *)

Definition STABLES : list string :=
  ["USDT"; "USDC"; "BUSD"; "TUSD"; "DAI"; "FDUSD"].

(** [STABLES.has(base)] *)
Definition is_stable (base : string) : bool :=
  existsb (String.eqb base) STABLES.

(** One element of the listing: [i_symbol] is [item?.symbol] when it is a
    string ([None] when it is missing or [null]); [i_cmc] holds the three
    fields read into [cmcSlim]. *)
Record listing_item : Type := ListingItem {
  i_symbol : option string;
  i_cmc : provenance
}.

(** What one [fetch] of the exchange gives: the promise rejects, or a
    response arrives; [body] is [None] when reading it throws
    ([response.json()] rejects, or the rows cannot be mapped). *)
Inductive reply (A : Type) : Type :=
| Rejected
| Replied (ok : bool) (body : option A).
Arguments Rejected {A}.
Arguments Replied {A} ok body.

(** The two fields of a ticker after [parseFloat]. *)
Record ticker : Type := Ticker {
  priceChangePercent : num;
  volume : num
}.

(** The replies to the two requests of one asset; the ticker payload is
    [None] when it is a falsy value. *)
Record asset_replies : Type := AssetReplies {
  r_ticker : reply (option ticker);
  r_klines : reply (list candle)
}.

Inductive binance_request : Type :=
| TickerRequest (symbol : string)
| KlinesRequest (symbol interval limit : string).

(** One turn of [for (const item of data)]: the summary pushed, if any,
    and the requests issued. *)
Definition visit_item (interval : string) (limit : pval)
    (item : listing_item) (w : asset_replies)
  : option summary * list binance_request :=
  match i_symbol item with
  | None => (None, [])
  | Some base =>
      if String.eqb base EmptyString || is_stable base then (None, [])
      else
        let symbol := base +:+ "USDT" in
        match r_ticker w with
        | Replied true (Some tick) =>
            let reqs :=
              [TickerRequest symbol;
               KlinesRequest symbol interval (string_of_pval limit)] in
            match r_klines w with
            | Replied true (Some klines) =>
                (Some (summarize base
                         (option_map priceChangePercent tick)
                         (option_map volume tick)
                         klines (Some (i_cmc item))),
                 reqs)
            | _ => (None, reqs)
            end
        | _ => (None, [TickerRequest symbol])
        end
  end.

Definition pushed (s : option summary) : list summary :=
  match s with
  | Some x => [x]
  | None => []
  end.

(** The whole loop: the [summaries] array and the requests, in order. *)
Definition discover_loop (interval : string) (limit : pval)
    (items : list (listing_item * asset_replies))
  : list summary * list binance_request :=
  fold_left
    (fun acc iw =>
       let v := visit_item interval limit (fst iw) (snd iw) in
       (fst acc ++ pushed (fst v), snd acc ++ snd v))
    items ([], []).

Definition discover_top (interval : string) (limit : pval) (resultCount : Z)
    (items : list (listing_item * asset_replies)) : list summary :=
  discover_top_rank resultCount (fst (discover_loop interval limit items)).

(** [String.prototype.toLowerCase] on the letters A to Z; every other byte
    is kept.  The strategy is only ever compared with the name
    strong_up_high_vol, and the lower case of a character outside A to Z is
    never a letter of that name alone (U+212A gives k, U+0130 gives i
    followed by a combining dot, the others stay outside ASCII), so the
    comparison comes out as in the source. *)
Definition lower_char (c : ascii) : ascii :=
  let n := nat_of_ascii c in
  if Nat.leb 65 n && Nat.leb n 90 then ascii_of_nat (n + 32) else c.

Fixpoint to_lower (s : string) : string :=
  match s with
  | EmptyString => EmptyString
  | String c rest => String (lower_char c) (to_lower rest)
  end.

(** [(params.strategy ?? "strong_up_low_atr").toLowerCase()] *)
Definition strategy_of (param : option string) : string :=
  to_lower (match param with
            | Some name => name
            | None => "strong_up_low_atr"
            end).

(** discover-pick; [param] is [params.strategy] as the caller gave it. *)
Definition discover_pick (param : option string) (rankMax atrPctMax : num)
    (interval : string) (limit : pval) (resultCount : Z)
    (items : list (listing_item * asset_replies)) : list summary :=
  discover_pick_rank (strategy_of param) rankMax atrPctMax resultCount
    (fst (discover_loop interval limit items)).

(** ** The example script's ranking *)

(** [a.pct24h ? Math.abs(a.pct24h) : 0] *)
Definition script_move (s : summary) : num :=
  match pct24h s with
  | Some p => if truthy p then abs p else of_Z 0
  | None => of_Z 0
  end.

(** The comparator of [filtered.sort] in [run-discover-top.ts]. *)
Definition cmp_script (a b : summary) : num :=
  let ra := ratingScore (s_rating a) in
  let rb := ratingScore (s_rating b) in
  if negb (eqb rb ra) then (rb - ra)%num
  else
    let aAtr := atr_key a in
    let bAtr := atr_key b in
    if negb (eqb aAtr bAtr) then (aAtr - bAtr)%num
    else
      let ma := script_move a in
      let mb := script_move b in
      (mb - ma)%num.

(** ** Further reference definitions *)

(** [a] goes before [b] in the order of strong_up_high_vol: rating score
    descending, then 24h volume descending, then atrPercent ascending, then
    absolute 24h change descending. *)
Definition before_high_vol (a b : summary) : Prop :=
  let ra := ratingScore (s_rating a) in
  let rb := ratingScore (s_rating b) in
  lt rb ra \/
  (Num.eq ra rb /\
   (lt (vol_key b) (vol_key a) \/
    (Num.eq (vol_key a) (vol_key b) /\
     (lt (atr_key a) (atr_key b) \/
      (Num.eq (atr_key a) (atr_key b) /\
       lt (move_key b) (move_key a)))))).

(** The order a strategy name selects. *)
Definition before_by (strategy : string) (a b : summary) : Prop :=
  if String.eqb strategy "strong_up_high_vol"
  then before_high_vol a b
  else before_low_atr a b.

(** A candle of finite values. *)
Definition finite_candle (hlc : Q * Q * Q) : candle :=
  Candle (Fin (fst (fst hlc))) (Fin (snd (fst hlc))) (Fin (snd hlc)).

(** [sort] has no reason to move [y] before [x]. *)
Definition not_after {A} (cmp : A -> A -> num) (x y : A) : Prop :=
  ~ puts_last (cmp x y).

(** A summary none of whose sort keys is [NaN]. *)
Definition numeric_keys (s : summary) : Prop :=
  pct24h s <> Some NaN /\ vol24h s <> Some NaN /\ atrPct s <> Some NaN.

(** The base symbol the per-asset loop goes on with: a symbol that is
    present, not empty and not a stable coin. *)
Definition tradable_base (item : listing_item) : option string :=
  match i_symbol item with
  | Some base =>
      if String.eqb base EmptyString || is_stable base then None else Some base
  | None => None
  end.

(** Both replies of an asset arrived with a success status and a body
    that could be read. *)
Definition replies_ok (w : asset_replies) : Prop :=
  exists tick klines,
    r_ticker w = Replied true (Some tick) /\
    r_klines w = Replied true (Some klines).

(** The string holds the separator of the cache key, a vertical bar. *)
Fixpoint has_bar (s : string) : bool :=
  match s with
  | EmptyString => false
  | String c rest => (nat_of_ascii c =? 124)%nat || has_bar rest
  end.

(** The endpoints the tools request. *)
Definition endpoints : list string :=
  ["/cryptocurrency/listings/latest"; "/cryptocurrency/quotes/latest";
   "/cryptocurrency/map"; "/cryptocurrency/info";
   "/global-metrics/quotes/latest"; "/exchange/listings/latest"].

(** ** Loops: unfolding and induction principles *)

Section ForLoop.
Context {A : Type}.
Implicit Types (body : Z -> A -> A) (init : A).

Lemma fold_left_shift (g : A -> nat -> A) (n : nat) (a : A) (k : nat) :
  fold_left g (seq (S k) n) a = fold_left (fun acc j => g acc (S j)) (seq k n) a.
Proof.
  revert a k. induction n as [|n IH]; intros a k; simpl; [reflexivity|].
  apply IH.
Qed.

Lemma for_loop_empty lo hi body init :
  hi <= lo -> for_loop lo hi body init = init.
Proof.
  intros Hle. unfold for_loop.
  replace (Z.to_nat (hi - lo)) with 0%nat by lia. reflexivity.
Qed.

Lemma for_loop_first lo hi body init :
  lo < hi ->
  for_loop lo hi body init = for_loop (lo + 1) hi body (body lo init).
Proof.
  intros Hlt. unfold for_loop.
  replace (Z.to_nat (hi - lo)) with (S (Z.to_nat (hi - (lo + 1)))) by lia.
  cbn [seq fold_left]. rewrite fold_left_shift.
  replace (lo + Z.of_nat 0) with lo by lia.
  generalize (body lo init). generalize (seq 0 (Z.to_nat (hi - (lo + 1)))).
  intros l. induction l as [|j l IH]; intros a; simpl; [reflexivity|].
  rewrite <- IH. do 2 f_equal. lia.
Qed.

Lemma for_loop_last lo hi body init :
  lo < hi ->
  for_loop lo hi body init = body (hi - 1) (for_loop lo (hi - 1) body init).
Proof.
  intros Hlt. unfold for_loop.
  replace (Z.to_nat (hi - lo)) with (S (Z.to_nat (hi - 1 - lo))) by lia.
  rewrite seq_S, fold_left_app. simpl. f_equal. lia.
Qed.

Lemma for_loop_invariant (P : A -> Prop) lo hi body init :
  P init ->
  (forall i a, lo <= i < hi -> P a -> P (body i a)) ->
  P (for_loop lo hi body init).
Proof.
  intros Hinit Hstep.
  destruct (Z_lt_le_dec lo hi) as [Hlt|Hle];
    [|rewrite for_loop_empty; assumption].
  assert (Hgen : forall n, (Z.of_nat n <= hi - lo) ->
                           P (for_loop lo (lo + Z.of_nat n) body init)).
  { induction n as [|n IH]; intros Hn.
    - rewrite for_loop_empty by lia. assumption.
    - rewrite for_loop_last by lia. apply Hstep; [lia|].
      replace (lo + Z.of_nat (S n) - 1) with (lo + Z.of_nat n) by lia.
      apply IH. lia. }
  specialize (Hgen (Z.to_nat (hi - lo))).
  replace (lo + Z.of_nat (Z.to_nat (hi - lo))) with hi in Hgen by lia.
  apply Hgen. lia.
Qed.

(** A loop that reads the elements of a segment of [arr] in order is a
    fold over that segment. *)
Lemma for_loop_elems (f : A -> num -> A) (arr pre l post : list num) init :
  arr = pre ++ l ++ post ->
  for_loop (arr_length pre) (arr_length pre + arr_length l)
           (fun i acc => f acc (to_num (arr_get arr i))) init
  = fold_left f l init.
Proof.
  revert pre init. induction l as [|x l IH]; intros pre init Harr.
  - apply for_loop_empty. unfold arr_length. simpl. lia.
  - rewrite for_loop_first by (unfold arr_length; simpl; lia).
    assert (Hget : arr_get arr (arr_length pre) = JNum x).
    { unfold arr_get, arr_length.
      destruct (Z.ltb_spec (Z.of_nat (length pre)) 0) as [?|_]; [lia|].
      rewrite Nat2Z.id, Harr, nth_error_app2 by lia.
      rewrite Nat.sub_diag. reflexivity. }
    rewrite Hget. simpl to_num. simpl fold_left.
    specialize (IH (pre ++ [x]) (f init x)).
    replace (arr_length (pre ++ [x])) with (arr_length pre + 1) in IH
      by (unfold arr_length; rewrite length_app; simpl; lia).
    replace (arr_length pre + arr_length (x :: l))
      with (arr_length pre + 1 + arr_length l)
      by (unfold arr_length; simpl; lia).
    apply IH. rewrite Harr, <- app_assoc. reflexivity.
Qed.

End ForLoop.

(** ** Indicator engine: the length guard and the recurrences *)

Lemma arr_length_nonneg {A} (l : list A) : 0 <= arr_length l.
Proof. unfold arr_length. lia. Qed.

Lemma arr_length_cons {A} (x : A) (l : list A) :
  arr_length (x :: l) = 1 + arr_length l.
Proof. unfold arr_length. simpl length. lia. Qed.

Lemma fold_left_JNum (g : num -> num -> num) (l : list num) (x : num) :
  fold_left (fun acc y => JNum (g (to_num acc) y)) l (JNum x)
  = JNum (fold_left g l x).
Proof.
  revert x. induction l as [|y l IH]; intros x; simpl; [reflexivity|].
  apply IH.
Qed.

Lemma calcEMA_loop (k : num) (x : num) (rest : list num) :
  for_loop 1 (arr_length (x :: rest))
    (fun i ema => JNum (ema_step k (to_num ema) (to_num (arr_get (x :: rest) i))))
    (JNum x)
  = JNum (fold_left (ema_step k) rest x).
Proof.
  pose proof (for_loop_elems
                (fun acc y => JNum (ema_step k (to_num acc) y))
                (x :: rest) [x] rest [] (JNum x)) as H.
  rewrite app_nil_r in H. specialize (H eq_refl).
  rewrite arr_length_cons.
  change (arr_length [x]) with 1 in H.
  rewrite H. apply fold_left_JNum.
Qed.

Lemma calcEMA_recurrence (s : list num) (p : Z) :
  calcEMA s p = if arr_length s <? p then JNull else ema_full s p.
Proof.
  unfold calcEMA. destruct (arr_length s <? p); [reflexivity|].
  destruct s as [|x rest]; [reflexivity|].
  unfold ema_full. change (arr_get (x :: rest) 0) with (JNum x).
  apply calcEMA_loop.
Qed.

(** C6: below the period the average is absent; from the period on it is
    the full recurrence over the whole series, seeded with its first
    element. *)
Theorem calcEMA_full_recurrence (s : list num) (p : Z) :
  calcEMA s p = if arr_length s <? p then JNull else ema_full s p.
Proof.
  unfold calcEMA. destruct (arr_length s <? p); [reflexivity|].
  destruct s as [|x rest].
  - reflexivity.
  - unfold ema_full. change (arr_get (x :: rest) 0) with (JNum x).
    apply calcEMA_loop.
Qed.

Lemma calcEMA_not_null (s : list num) (p : Z) :
  p <= arr_length s -> calcEMA s p <> JNull.
Proof.
  intros Hp. rewrite calcEMA_recurrence.
  destruct (Z.ltb_spec (arr_length s) p) as [?|_]; [lia|].
  destruct s; discriminate.
Qed.

Lemma guard_null_iff (s : list num) (p : Z) (v : jsval) :
  v <> JNull ->
  (if arr_length s <? p then JNull else v) = JNull <-> arr_length s < p.
Proof.
  intros Hv. destruct (Z.ltb_spec (arr_length s) p) as [Hlt|Hge].
  - tauto.
  - split; [intros H; contradiction | lia].
Qed.

Lemma sma_zero_period (s : list num) : sma s 0 = JNum NaN.
Proof.
  unfold sma. pose proof (arr_length_nonneg s).
  destruct (Z.ltb_spec (arr_length s) 0) as [?|_]; [lia|].
  rewrite for_loop_empty by lia. reflexivity.
Qed.

(** C10: each guard fires exactly below the period, so a period that is
    zero or negative never yields the absent value: the average of an
    empty series is then [undefined], read from its first element, and the
    simple average of period zero is the quotient 0/0. *)
Theorem guards_fire_below_period (s : list num) (p : Z) :
  (calcEMA s p = JNull <-> arr_length s < p) /\
  (sma s p = JNull <-> arr_length s < p) /\
  (rma s p = JNull <-> arr_length s < p) /\
  (p <= 0 ->
   calcEMA s p <> JNull /\ sma s p <> JNull /\ rma s p <> JNull /\
   calcEMA [] p = JUndef /\ sma s 0 = JNum NaN).
Proof.
  assert (Hema : calcEMA s p = JNull <-> arr_length s < p).
  { split.
    - intros H. destruct (Z_lt_le_dec (arr_length s) p) as [?|Hge]; [assumption|].
      exfalso. exact (calcEMA_not_null s p Hge H).
    - intros H. unfold calcEMA.
      destruct (Z.ltb_spec (arr_length s) p); [reflexivity|lia]. }
  assert (Hsma : sma s p = JNull <-> arr_length s < p).
  { unfold sma. apply guard_null_iff. discriminate. }
  assert (Hrma : rma s p = JNull <-> arr_length s < p).
  { unfold rma. apply guard_null_iff. discriminate. }
  pose proof (arr_length_nonneg s) as Hlen.
  split; [exact Hema|]. split; [exact Hsma|]. split; [exact Hrma|].
  intros Hp. split; [|split; [|split; [|split]]].
  - intros H. apply Hema in H. lia.
  - intros H. apply Hsma in H. lia.
  - intros H. apply Hrma in H. lia.
  - rewrite calcEMA_recurrence. change (arr_length (@nil num)) with 0.
    destruct (Z.ltb_spec 0 p); [lia|reflexivity].
  - apply sma_zero_period.
Qed.

(** The guard at work on an empty series with the periods 0 and -1, and
    with the period 1. *)
Lemma guards_fire_below_period_witness :
  calcEMA [] 0 = JUndef /\ sma [] 0 = JNum NaN /\ rma [] (-1) <> JNull /\
  calcEMA [] 1 = JNull.
Proof.
  pose proof (guards_fire_below_period [] 0) as (_ & _ & _ & H0).
  pose proof (guards_fire_below_period [] (-1)) as (_ & _ & _ & H1).
  destruct (H0 ltac:(lia)) as (_ & _ & _ & Hu & Hs).
  destruct (H1 ltac:(lia)) as (_ & _ & Hr & _).
  split; [exact Hu|]. split; [exact Hs|]. split; [exact Hr|]. reflexivity.
Defined.

(** ** Wilder smoothing stays between the extremes of its inputs *)

Lemma seg_loop {A} (f : A -> num -> A) (arr : list num) (n m : Z) (init : A) :
  0 <= n <= m -> m <= arr_length arr ->
  for_loop n m (fun i acc => f acc (to_num (arr_get arr i))) init
  = fold_left f (take (Z.to_nat (m - n)) (drop (Z.to_nat n) arr)) init.
Proof.
  intros Hnm Hm. unfold arr_length in Hm.
  pose proof (for_loop_elems f arr (take (Z.to_nat n) arr)
                (take (Z.to_nat (m - n)) (drop (Z.to_nat n) arr))
                (drop (Z.to_nat (m - n)) (drop (Z.to_nat n) arr)) init) as H.
  rewrite !take_drop in H. specialize (H eq_refl).
  unfold arr_length in H. rewrite !length_take, length_drop in H.
  replace (Z.of_nat (Z.to_nat n `min` length arr)) with n in H by lia.
  replace (n + Z.of_nat (Z.to_nat (m - n) `min` (length arr - Z.to_nat n)))
    with m in H by lia.
  exact H.
Qed.

Lemma fold_add_Fin (l : list Q) (a : Q) :
  fold_left add (map Fin l) (Fin a) = Fin (fold_left Qplus l a).
Proof.
  revert a. induction l as [|x l IH]; intros a; simpl; [reflexivity|].
  apply IH.
Qed.

Lemma fold_rma_Fin (a : Q) (l : list Q) (v : Q) :
  fold_left (rma_step (Fin a)) (map Fin l) (Fin v)
  = Fin (fold_left (q_rma_step a) l v).
Proof.
  revert v. induction l as [|x l IH]; intros v; simpl; [reflexivity|].
  apply IH.
Qed.

Lemma inject_Z_pos (p : Z) : 1 <= p -> (1 <= inject_Z p)%Q.
Proof. intros Hp. change 1%Q with (inject_Z 1). rewrite <- Zle_Qle. exact Hp. Qed.

Lemma arr_length_map {A B} (f : A -> B) (l : list A) :
  arr_length (map f l) = arr_length l.
Proof. unfold arr_length. rewrite length_map. reflexivity. Qed.

Lemma div_by_period (s : Q) (p : Z) :
  1 <= p -> (Fin s / of_Z p)%num = Fin (s / inject_Z p).
Proof.
  intros Hp. unfold div, of_Z.
  destruct (Qeq_bool (inject_Z p) 0) eqn:E; [|reflexivity].
  apply Qeq_bool_eq in E. pose proof (inject_Z_pos p Hp). lra.
Qed.

(** The value of [rma_upto] on a series of rationals, as a rational. *)
Lemma rma_upto_Fin (l : list Q) (p m : Z) :
  1 <= p -> p <= m -> m <= arr_length l ->
  rma_upto (map Fin l) p m
  = Fin (fold_left (q_rma_step (1 / inject_Z p)%Q)
                   (take (Z.to_nat (m - p)) (drop (Z.to_nat p) l))
                   (fold_left Qplus (take (Z.to_nat p) l) 0 / inject_Z p)%Q).
Proof.
  intros Hp Hpm Hm. unfold rma_upto.
  assert (Hlen : arr_length (map Fin l) = arr_length l).
  { unfold arr_length. rewrite length_map. reflexivity. }
  rewrite (seg_loop add (map Fin l) 0 p) by lia.
  rewrite (seg_loop (rma_step _) (map Fin l) p m) by lia.
  rewrite Z.sub_0_r. change (Z.to_nat 0) with 0%nat. rewrite drop_0.
  rewrite skipn_map, !firstn_map.
  change (of_Z 0) with (Fin 0). rewrite fold_add_Fin.
  change (of_Z 1) with (Fin 1). rewrite !div_by_period by lia.
  change (inject_Z 1) with 1%Q.
  apply fold_rma_Fin.
Qed.

Lemma fold_Qmin_le (l : list Q) (a : Q) :
  (fold_left Qmin l a <= a)%Q /\
  (forall x, In x l -> (fold_left Qmin l a <= x)%Q).
Proof.
  revert a. induction l as [|y l IH]; intros a; simpl.
  - split; [lra | tauto].
  - destruct (IH (Qmin a y)) as [H1 H2].
    pose proof (Q.le_min_l a y). pose proof (Q.le_min_r a y).
    split; [lra|]. intros x [<-|Hx]; [lra | auto].
Qed.

Lemma fold_Qmax_ge (l : list Q) (a : Q) :
  (a <= fold_left Qmax l a)%Q /\
  (forall x, In x l -> (x <= fold_left Qmax l a)%Q).
Proof.
  revert a. induction l as [|y l IH]; intros a; simpl.
  - split; [lra | tauto].
  - destruct (IH (Qmax a y)) as [H1 H2].
    pose proof (Q.le_max_l a y). pose proof (Q.le_max_r a y).
    split; [lra|]. intros x [<-|Hx]; [lra | auto].
Qed.

Lemma qmin_qmax_bound (l : list Q) (x : Q) :
  In x l -> (qmin_of l <= x <= qmax_of l)%Q.
Proof.
  destruct l as [|a l]; [intros []|]. simpl qmin_of. simpl qmax_of.
  destruct (fold_Qmin_le l a) as [Hm1 Hm2].
  destruct (fold_Qmax_ge l a) as [HM1 HM2].
  intros [<-|Hx]; split; auto.
Qed.

Lemma sum_bounds (lo hi : Q) (l : list Q) (a : Q) :
  (forall x, In x l -> lo <= x <= hi)%Q ->
  (a + lo * inject_Z (Z.of_nat (length l)) <= fold_left Qplus l a
   <= a + hi * inject_Z (Z.of_nat (length l)))%Q.
Proof.
  revert a. induction l as [|y l IH]; intros a Hb.
  - simpl. change (inject_Z (Z.of_nat 0)) with 0%Q. lra.
  - simpl fold_left.
    assert (Hl : (forall x, In x l -> lo <= x <= hi)%Q)
      by (intros x Hx; apply Hb; right; exact Hx).
    specialize (IH (a + y)%Q Hl).
    pose proof (Hb y (or_introl eq_refl)) as Hy.
    replace (Z.of_nat (length (y :: l))) with (Z.of_nat (length l) + 1)
      by (simpl length; lia).
    rewrite inject_Z_plus. change (inject_Z 1) with 1%Q. lra.
Qed.

Lemma seed_bounds (lo hi : Q) (l : list Q) (p : Z) :
  1 <= p -> Z.of_nat (length l) = p ->
  (forall x, In x l -> lo <= x <= hi)%Q ->
  (lo <= fold_left Qplus l 0 / inject_Z p <= hi)%Q.
Proof.
  intros Hp Hlen Hb. pose proof (sum_bounds lo hi l 0 Hb) as Hs.
  rewrite Hlen in Hs. pose proof (inject_Z_pos p Hp) as Hq.
  split.
  - apply Qle_shift_div_l; lra.
  - apply Qle_shift_div_r; lra.
Qed.

Lemma alpha_bounds (p : Z) : 1 <= p -> (0 < 1 / inject_Z p <= 1)%Q.
Proof.
  intros Hp. pose proof (inject_Z_pos p Hp) as Hq. split.
  - apply Qlt_shift_div_l; lra.
  - apply Qle_shift_div_r; lra.
Qed.

Lemma step_bounds (lo hi a v x : Q) :
  (0 < a <= 1)%Q -> (lo <= v <= hi)%Q -> (lo <= x <= hi)%Q ->
  (lo <= q_rma_step a v x <= hi)%Q.
Proof. intros Ha Hv Hx. unfold q_rma_step. split; nra. Qed.

Lemma fold_step_bounds (lo hi a : Q) (l : list Q) (v : Q) :
  (0 < a <= 1)%Q -> (lo <= v <= hi)%Q ->
  (forall x, In x l -> lo <= x <= hi)%Q ->
  (lo <= fold_left (q_rma_step a) l v <= hi)%Q.
Proof.
  intros Ha. revert v. induction l as [|y l IH]; intros v Hv Hb; simpl.
  - exact Hv.
  - apply IH.
    + apply step_bounds; auto. apply Hb. left. reflexivity.
    + intros x Hx. apply Hb. right. exact Hx.
Qed.

(** Sums, positive multiples and quotients by a positive number of values
    that are not negative are not negative. *)
Lemma add_not_negative (x y : num) :
  ltb x (of_Z 0) = false -> ltb y (of_Z 0) = false ->
  ltb (x + y)%num (of_Z 0) = false.
Proof.
  destruct x as [a| | |], y as [b| | |]; simpl; try reflexivity;
    try discriminate.
  rewrite !negb_false_iff, !Qle_bool_iff. change (inject_Z 0) with 0%Q.
  intros. lra.
Qed.

Lemma mul_not_negative (a : Q) (x : num) :
  (0 <= a)%Q -> ltb x (of_Z 0) = false ->
  ltb (Fin a * x)%num (of_Z 0) = false.
Proof.
  intros Ha. destruct x as [b| | |]; simpl; try reflexivity; try discriminate.
  - rewrite !negb_false_iff, !Qle_bool_iff. change (inject_Z 0) with 0%Q.
    intros. nra.
  - intros _. unfold scale_inf. destruct (a ?= 0)%Q eqn:E; try reflexivity.
    rewrite <- Qlt_alt in E. lra.
Qed.

Lemma div_not_negative (x : num) (p : Z) :
  1 <= p -> ltb x (of_Z 0) = false ->
  ltb (x / of_Z p)%num (of_Z 0) = false.
Proof.
  intros Hp. pose proof (inject_Z_pos p Hp) as Hpos.
  destruct x as [a| | |]; try reflexivity; try discriminate.
  - rewrite div_by_period by exact Hp. simpl.
    rewrite !negb_false_iff, !Qle_bool_iff. change (inject_Z 0) with 0%Q.
    intros Ha. apply Qle_shift_div_l; lra.
  - intros _. unfold div, of_Z.
    assert (E : Qle_bool 0 (inject_Z p) = true) by (apply Qle_bool_iff; lra).
    rewrite E. reflexivity.
Qed.

Lemma arr_get_not_negative (arr : list num) (i : Z) :
  (forall x, In x arr -> ltb x (of_Z 0) = false) ->
  ltb (to_num (arr_get arr i)) (of_Z 0) = false.
Proof.
  intros Hall. unfold arr_get. destruct (i <? 0); [reflexivity|].
  destruct (nth_error arr (Z.to_nat i)) as [x|] eqn:E; [|reflexivity].
  apply Hall. exact (nth_error_In _ _ E).
Qed.

(** The smoothing of values that are not negative is not negative. *)
Lemma rma_upto_not_negative (arr : list num) (p m : Z) :
  1 <= p -> (forall x, In x arr -> ltb x (of_Z 0) = false) ->
  ltb (rma_upto arr p m) (of_Z 0) = false.
Proof.
  intros Hp Hall. unfold rma_upto. cbv zeta.
  change (of_Z 1) with (Fin 1). rewrite div_by_period by exact Hp.
  pose proof (alpha_bounds p Hp) as [Ha0 Ha1].
  apply (for_loop_invariant (fun v => ltb v (of_Z 0) = false)).
  - apply div_not_negative; [exact Hp|].
    apply (for_loop_invariant (fun v => ltb v (of_Z 0) = false));
      [reflexivity|].
    intros i a _ Hacc. apply add_not_negative; [exact Hacc|].
    apply arr_get_not_negative. exact Hall.
  - intros i v _ Hv. unfold rma_step. apply add_not_negative.
    + apply mul_not_negative; [lra|].
      apply arr_get_not_negative. exact Hall.
    + change (Fin 1 - Fin (1 / inject_Z p))%num
        with (Fin (1 + - (1 / inject_Z p))).
      apply mul_not_negative; [|exact Hv].
      change (inject_Z 1) with 1%Q. lra.
Qed.

Lemma arr_get_lookup (arr : list num) (i : Z) (x : num) :
  0 <= i -> arr !! Z.to_nat i = Some x -> arr_get arr i = JNum x.
Proof.
  intros Hi Hx. unfold arr_get.
  destruct (Z.ltb_spec i 0) as [?|_]; [lia|].
  assert (E : nth_error arr (Z.to_nat i) = Some x).
  { revert Hx. generalize (Z.to_nat i). clear Hi.
    induction arr as [|y arr IH]; intros [|n]; simpl; try discriminate; auto. }
  rewrite E. reflexivity.
Qed.

(** C9, as far as it holds: for a period of at least one and a series at
    least as long, [rma] returns the last value of the recurrence the
    claim describes: the seed is the sum of the first [p] elements, added
    in order from 0, divided by [p], and each later element [x] turns the
    value [prev] into [(1/p) * x + (1 - 1/p) * prev].  No value is negative
    when no element is.  The values lie between the least and the greatest
    of the elements consumed so far when the elements are rationals and the
    arithmetic is exact, which is the arithmetic of [num]; the program
    computes in binary64, where rounding can push a value out of that
    interval. *)
Theorem rma_between_extremes (arr : list num) (p m : Z) :
  1 <= p -> p <= m -> m <= arr_length arr ->
  rma arr p = JNum (rma_upto arr p (arr_length arr)) /\
  rma_upto arr p p
  = (fold_left Num.add (take (Z.to_nat p) arr) (of_Z 0) / of_Z p)%num /\
  (forall x : num,
     p < m -> arr !! Z.to_nat (m - 1) = Some x ->
     rma_upto arr p m
     = ((of_Z 1 / of_Z p) * x
        + (of_Z 1 - of_Z 1 / of_Z p) * rma_upto arr p (m - 1))%num) /\
  ((forall x, In x arr -> ltb x (of_Z 0) = false) ->
   ltb (rma_upto arr p m) (of_Z 0) = false) /\
  (forall l : list Q,
     arr = map Fin l ->
     exists v : Q,
       rma_upto arr p m = Fin v /\
       (qmin_of (take (Z.to_nat m) l) <= v
        <= qmax_of (take (Z.to_nat m) l))%Q).
Proof.
  intros Hp Hpm Hm. split; [|split; [|split; [|split]]].
  - unfold rma. destruct (Z.ltb_spec (arr_length arr) p); [lia|reflexivity].
  - unfold rma_upto. cbv zeta. rewrite (for_loop_empty p p) by lia.
    rewrite (seg_loop Num.add arr 0 p) by lia.
    rewrite Z.sub_0_r. change (Z.to_nat 0) with 0%nat. rewrite drop_0.
    reflexivity.
  - intros x Hlt Hx. unfold rma_upto. cbv zeta.
    rewrite (for_loop_last p m) by lia.
    rewrite (arr_get_lookup arr (m - 1) x) by (lia || exact Hx).
    reflexivity.
  - intros Hall. apply rma_upto_not_negative; assumption.
  - intros l ->. rewrite arr_length_map in Hm.
    rewrite rma_upto_Fin by assumption. eexists. split; [reflexivity|].
    set (seen := take (Z.to_nat m) l).
    assert (Hseen : seen = take (Z.to_nat p) l
                           ++ take (Z.to_nat (m - p)) (drop (Z.to_nat p) l)).
    { rewrite take_take_drop. unfold seen. f_equal. lia. }
    assert (Hin : forall x, In x seen -> (qmin_of seen <= x <= qmax_of seen)%Q)
      by (intros x; apply qmin_qmax_bound).
    apply fold_step_bounds.
    + apply alpha_bounds. exact Hp.
    + apply seed_bounds; [exact Hp| |].
      * unfold arr_length in Hm. rewrite length_take. lia.
      * intros x Hx. apply Hin. rewrite Hseen. apply in_or_app. left. exact Hx.
    + intros x Hx. apply Hin. rewrite Hseen. apply in_or_app. right. exact Hx.
Qed.

(** The smoothing of 1, 5, 3, 7 with period 2, after three elements. *)
Lemma rma_between_extremes_witness :
  rma (map Fin [1; 5; 3; 7]%Q) 2
  = JNum (rma_upto (map Fin [1; 5; 3; 7]%Q) 2 4) /\
  rma_upto (map Fin [1; 5; 3; 7]%Q) 2 3
  = ((of_Z 1 / of_Z 2) * Fin 3
     + (of_Z 1 - of_Z 1 / of_Z 2) * rma_upto (map Fin [1; 5; 3; 7]%Q) 2 2)%num /\
  exists v : Q,
    rma_upto (map Fin [1; 5; 3; 7]%Q) 2 3 = Fin v /\ (1 <= v <= 5)%Q.
Proof.
  destruct (rma_between_extremes (map Fin [1; 5; 3; 7]%Q) 2 3)
    as (H1 & _ & H3 & _ & H5); [lia|lia|unfold arr_length; simpl; lia|].
  split; [exact H1|]. split.
  - apply H3; [lia|reflexivity].
  - exact (H5 [1; 5; 3; 7]%Q eq_refl).
Defined.

(** C9 against the program's own arithmetic: in binary64 the smoothing of
    15, 15, 15, 15 with period 3 is 15.000000000000002, above the greatest
    element: 1/3 and 1 - 1/3 are rounded, and so is each product. *)
Lemma binary64_rma_leaves_interval :
  let fifteen := Binary64.float_of_Z 15 in
  exists v : PrimFloat.float,
    Binary64.rma [fifteen; fifteen; fifteen; fifteen] 3 = Binary64.Num v /\
    PrimFloat.ltb fifteen v = true.
Proof.
  cbv zeta. eexists. split; vm_compute; reflexivity.
Qed.

(** ** Classifier: the rating table *)

(** C4: the rating depends on the trend and the 24h change only, and
    follows the table: under an up trend, strong_up above 2, up above 1,
    else neutral; under a down trend, strong_down below -2, down below -1,
    else neutral; neutral without a trend or without a 24h change.  The
    tools and the example script compute the same function. *)
Theorem rating_table (t : option trend) (pct : option num) :
  tool_rating t pct = rating_spec t pct /\
  rate t pct = rating_spec t pct /\
  (forall p, t = Some Up -> pct = Some p ->
     (lt (of_Z 2) p -> tool_rating t pct = StrongUp) /\
     (~ lt (of_Z 2) p -> lt (of_Z 1) p -> tool_rating t pct = RUp) /\
     (~ lt (of_Z 2) p -> ~ lt (of_Z 1) p -> tool_rating t pct = Neutral)) /\
  (forall p, t = Some Down -> pct = Some p ->
     (lt p (of_Z (-2)) -> tool_rating t pct = StrongDown) /\
     (~ lt p (of_Z (-2)) -> lt p (of_Z (-1)) -> tool_rating t pct = RDown) /\
     (~ lt p (of_Z (-2)) -> ~ lt p (of_Z (-1)) -> tool_rating t pct = Neutral)) /\
  (t = None -> tool_rating t pct = Neutral) /\
  (pct = None -> tool_rating t pct = Neutral).
Proof.
  split; [|split; [|split; [|split; [|split]]]].
  - destruct t as [[|]|], pct as [p|]; reflexivity.
  - destruct t as [[|]|], pct as [p|]; reflexivity.
  - intros p -> ->. unfold tool_rating, lt, gtb.
    destruct (ltb (of_Z 2) p), (ltb (of_Z 1) p);
      repeat split; intros; congruence.
  - intros p -> ->. unfold tool_rating, lt.
    destruct (ltb p (of_Z (-2))), (ltb p (of_Z (-1)));
      repeat split; intros; congruence.
  - intros ->. reflexivity.
  - intros ->. destruct t as [[|]|]; reflexivity.
Qed.

(** The five ratings of the specification's examples. *)
Lemma rating_table_witness :
  tool_rating (Some Up) (Some (Fin 2.5)) = StrongUp /\
  tool_rating (Some Up) (Some (Fin 1.5)) = RUp /\
  tool_rating (Some Up) (Some (Fin 0.5)) = Neutral /\
  tool_rating (Some Down) (Some (Fin (-2.5))) = StrongDown /\
  tool_rating None (Some (Fin 7)) = Neutral.
Proof.
  pose proof (rating_table (Some Up) (Some (Fin 2.5))) as (_ & _ & H1 & _).
  pose proof (rating_table (Some Up) (Some (Fin 1.5))) as (_ & _ & H2 & _).
  pose proof (rating_table (Some Up) (Some (Fin 0.5))) as (_ & _ & H3 & _).
  pose proof (rating_table (Some Down) (Some (Fin (-2.5)))) as (_ & _ & _ & H4 & _).
  pose proof (rating_table None (Some (Fin 7))) as (_ & _ & _ & _ & H5 & _).
  split; [apply (H1 _ eq_refl eq_refl); reflexivity|].
  split; [apply (H2 _ eq_refl eq_refl); [discriminate|reflexivity]|].
  split; [apply (H3 _ eq_refl eq_refl); discriminate|].
  split; [apply (H4 _ eq_refl eq_refl); reflexivity|].
  apply H5; reflexivity.
Defined.

(** ** Filter of the pick variant *)

Lemma sort_insert_In {A} (cmp : A -> A -> num) (x y : A) (l : list A) :
  In y (sort_insert cmp x l) <-> y = x \/ In y l.
Proof.
  induction l as [|z l IH]; cbn [sort_insert].
  - simpl. intuition.
  - destruct (gtb (cmp x z) (of_Z 0)); simpl; [rewrite IH|]; intuition.
Qed.

Lemma js_sort_In {A} (cmp : A -> A -> num) (y : A) (l : list A) :
  In y (js_sort cmp l) <-> In y l.
Proof.
  induction l as [|x l IH]; [reflexivity|].
  change (js_sort cmp (x :: l)) with (sort_insert cmp x (js_sort cmp l)).
  rewrite sort_insert_In, IH. simpl. intuition.
Qed.

Lemma slice0_In {A} (y : A) (l : list A) (count : Z) :
  In y (slice0 l count) -> In y l.
Proof.
  unfold slice0. rewrite <- !list_elem_of_In.
  destruct (count <? 0); apply subseteq_take.
Qed.

(** The filter as the code has it: the rank must not be [undefined], and
    is then compared as a number, [null] counting as 0. *)
Lemma pick_filter_spec (rankMax atrPctMax : num) (s : summary) :
  pick_filter rankMax atrPctMax s = true <->
  (exists c, cmc s = Some c /\ rank c <> JUndef /\
             le (to_num (rank c)) rankMax) /\
  (exists a, atrPct s = Some a /\ le a atrPctMax).
Proof.
  unfold pick_filter, le. split.
  - intros H. apply andb_true_iff in H as [Hr Ha]. split.
    + destruct (cmc s) as [c|]; [|discriminate]. exists c.
      split; [reflexivity|]. destruct (rank c); try discriminate;
        split; try discriminate; exact Hr.
    + destruct (atrPct s) as [a|]; [|discriminate]. exists a. auto.
  - intros [(c & -> & Hdef & Hr) (a & -> & Ha)]. rewrite Ha, andb_true_r.
    destruct (rank c); [exact Hr|contradiction|exact Hr].
Qed.

Lemma pick_filter_excludes_absent (rankMax atrPctMax : num) (s : summary) :
  (cmc s = None \/ (exists c, cmc s = Some c /\ rank c = JUndef) \/
   atrPct s = None) ->
  pick_filter rankMax atrPctMax s = false.
Proof.
  unfold pick_filter. intros [->|[(c & -> & ->)| ->]]; try reflexivity.
  apply andb_false_r.
Qed.

(** C7, what the code does against it: the test of the rank is
    [!== undefined], so a rank that is [null] (a listing element whose
    [cmc_rank] is [null]) is not held absent; it is compared as 0 and the
    summary passes the filter for every [rankMax] that is not negative,
    and stays in the filtered list. *)
Theorem pick_filter_passes_null_rank (rankMax atrPctMax : num) (s : summary)
    (c : provenance) (a : num) :
  cmc s = Some c -> rank c = JNull -> le (of_Z 0) rankMax ->
  atrPct s = Some a -> le a atrPctMax ->
  pick_filter rankMax atrPctMax s = true /\
  (forall summaries : list summary,
     In s summaries ->
     In s (filter (fun x => pick_filter rankMax atrPctMax x = true) summaries)).
Proof.
  intros Hc Hr H0 Ha Hle.
  assert (Hpass : pick_filter rankMax atrPctMax s = true).
  { apply pick_filter_spec. split.
    - exists c. rewrite Hr. split; [exact Hc|]. split; [discriminate|exact H0].
    - exists a. auto. }
  split; [exact Hpass|].
  intros summaries Hin. rewrite <- list_elem_of_In, list_elem_of_filter.
  split; [exact Hpass|]. apply list_elem_of_In. exact Hin.
Qed.

(** A listing element whose rank is [null], with fourteen candles of high
    2, low 1 and close 1 (an atrPercent of 100): discover-pick with a
    [rankMax] of 50 returns it. *)
Lemma pick_filter_passes_null_rank_witness :
  let item := ListingItem (Some "BTC") (Provenance JUndef JUndef JNull) in
  let w := AssetReplies (Replied true (Some None))
             (Replied true (Some (repeat (Candle (Fin 2) (Fin 1) (Fin 1)) 14))) in
  let s := summarize "BTC" None None
             (repeat (Candle (Fin 2) (Fin 1) (Fin 1)) 14)
             (Some (Provenance JUndef JUndef JNull)) in
  pick_filter (of_Z 50) (of_Z 100) s = true /\
  discover_pick None (of_Z 50) (of_Z 100) "1h" (PInt 250) 5 [(item, w)] = [s].
Proof.
  cbv zeta. split.
  - eapply (pick_filter_passes_null_rank (of_Z 50) (of_Z 100)
              (summarize "BTC" None None
                 (repeat (Candle (Fin 2) (Fin 1) (Fin 1)) 14)
                 (Some (Provenance JUndef JUndef JNull)))
              (Provenance JUndef JUndef JNull)).
    + reflexivity.
    + reflexivity.
    + reflexivity.
    + vm_compute. reflexivity.
    + vm_compute. reflexivity.
  - vm_compute. reflexivity.
Defined.

(** ** True range *)

Lemma arr_get_middle {B} (f : B -> num) (pre : list B) (k : B) (post : list B) :
  arr_get (map f (pre ++ k :: post)) (arr_length pre) = JNum (f k).
Proof.
  unfold arr_get, arr_length.
  destruct (Z.ltb_spec (Z.of_nat (length pre)) 0) as [?|_]; [lia|].
  rewrite Nat2Z.id, map_app, nth_error_app2 by (rewrite length_map; lia).
  rewrite length_map, Nat.sub_diag. reflexivity.
Qed.

Lemma true_range_loop (all pre l : list candle) (acc : list num) :
  all = pre ++ l ->
  for_loop (arr_length pre) (arr_length pre + arr_length l)
    (fun i tr =>
       let hl := (nullish0 (arr_get (map high all) i)
                  - nullish0 (arr_get (map low all) i))%num in
       let hc :=
         if 0 <? i
         then abs (nullish0 (arr_get (map high all) i)
                   - nullish0 (arr_get (map close all) (i - 1)))%num
         else of_Z 0 in
       let lc :=
         if 0 <? i
         then abs (nullish0 (arr_get (map low all) i)
                   - nullish0 (arr_get (map close all) (i - 1)))%num
         else of_Z 0 in
       tr ++ [max3 hl hc lc])
    acc
  = acc ++ tr_series (close <$> last pre) l.
Proof.
  revert pre acc. induction l as [|k l IH]; intros pre acc Hall.
  - rewrite for_loop_empty by (unfold arr_length; simpl; lia).
    simpl. rewrite app_nil_r. reflexivity.
  - rewrite for_loop_first by (unfold arr_length; simpl; lia).
    specialize (IH (pre ++ [k])).
    replace (arr_length (pre ++ [k])) with (arr_length pre + 1) in IH
      by (unfold arr_length; rewrite length_app; simpl; lia).
    replace (arr_length pre + arr_length (k :: l))
      with (arr_length pre + 1 + arr_length l)
      by (unfold arr_length; simpl; lia).
    rewrite IH by (rewrite Hall, <- app_assoc; reflexivity).
    rewrite last_snoc, <- app_assoc. simpl. do 2 f_equal.
    subst all. rewrite !arr_get_middle. simpl nullish0.
    destruct pre as [|k0 pre0] using rev_ind.
    + reflexivity.
    + clear IHpre0. rewrite last_snoc. simpl.
      assert (Hpos : (0 <? arr_length (pre0 ++ [k0])) = true).
      { apply Z.ltb_lt. unfold arr_length. rewrite length_app. simpl. lia. }
      rewrite Hpos.
      replace (arr_length (pre0 ++ [k0]) - 1) with (arr_length pre0)
        by (unfold arr_length; rewrite length_app; simpl; lia).
      rewrite <- app_assoc. simpl. rewrite arr_get_middle. reflexivity.
Qed.

Lemma true_range_series_eq (ks : list candle) :
  true_range (map high ks) (map low ks) (map close ks) = tr_series None ks.
Proof.
  unfold true_range.
  pose proof (true_range_loop ks [] ks [] eq_refl) as H.
  change (arr_length (@nil candle)) with 0 in H. rewrite Z.add_0_l in H.
  replace (arr_length (map close ks)) with (arr_length ks)
    by (unfold arr_length; rewrite length_map; reflexivity).
  exact H.
Qed.

Lemma tr_series_length (prev : option num) (ks : list candle) :
  length (tr_series prev ks) = length ks.
Proof.
  revert prev. induction ks as [|k ks IH]; intros prev; simpl; [reflexivity|].
  rewrite IH. reflexivity.
Qed.

Lemma tr_series_lookup_S (i : nat) (prev : option num) (ks : list candle)
    (kp k : candle) :
  ks !! i = Some kp -> ks !! S i = Some k ->
  tr_series prev ks !! S i = Some (candle_tr (Some (close kp)) k).
Proof.
  revert prev ks. induction i as [|i IH]; intros prev ks Hp Hk.
  - destruct ks as [|k0 [|k1 ks]]; simpl in *; try discriminate.
    congruence.
  - destruct ks as [|k0 ks]; [discriminate|]. simpl in *.
    apply IH; assumption.
Qed.

Lemma max3_nonneg_range (x y : num) :
  le y x -> max3 (x - y)%num (of_Z 0) (of_Z 0) = (x - y)%num.
Proof.
  unfold le, max3.
  destruct x as [a| | |], y as [b| | |]; simpl; try discriminate;
    try reflexivity.
  intros Hle. apply Qle_bool_iff in Hle.
  assert (Hnn : Qle_bool (inject_Z 0) (a + - b) = true).
  { apply Qle_bool_iff. change (inject_Z 0) with 0%Q. lra. }
  unfold max. simpl. rewrite Hnn. simpl. rewrite Hnn. reflexivity.
Qed.

(** C5, as the code has it: the true-range series has one value per
    candle; its first value is the largest of high-low and zero, which is
    high-low itself as soon as the low is not above the high; every later
    value is the largest of high-low and the two distances to the
    previous close. *)
Theorem true_range_values (ks : list candle) :
  let tr := true_range (map high ks) (map low ks) (map close ks) in
  length tr = length ks /\
  (forall k, ks !! 0%nat = Some k ->
     tr !! 0%nat = Some (max3 (high k - low k)%num (of_Z 0) (of_Z 0))) /\
  (forall k, ks !! 0%nat = Some k -> le (low k) (high k) ->
     tr !! 0%nat = Some ((high k - low k)%num)) /\
  (forall (i : nat) kp k, ks !! i = Some kp -> ks !! S i = Some k ->
     tr !! S i = Some (max3 (high k - low k)%num
                            (abs (high k - close kp)%num)
                            (abs (low k - close kp)%num))).
Proof.
  cbv zeta. rewrite true_range_series_eq.
  split; [apply tr_series_length|].
  assert (H0 : forall k, ks !! 0%nat = Some k ->
     tr_series None ks !! 0%nat
     = Some (max3 (high k - low k)%num (of_Z 0) (of_Z 0))).
  { intros k Hk. destruct ks as [|k0 ks]; [discriminate|].
    simpl in Hk. injection Hk as ->. reflexivity. }
  split; [exact H0|]. split.
  - intros k Hk Hle. rewrite (H0 k Hk), max3_nonneg_range by exact Hle.
    reflexivity.
  - intros i kp k Hp Hk. apply (tr_series_lookup_S i None ks kp k Hp Hk).
Qed.

(** Two candles: 10/8/9 then 12/11/11 (high/low/close). *)
Lemma true_range_values_witness :
  true_range (map Fin [10; 12]%Q) (map Fin [8; 11]%Q) (map Fin [9; 11]%Q)
    !! 0%nat = Some ((Fin 10 - Fin 8)%num).
Proof.
  pose proof (true_range_values
                [Candle (Fin 10) (Fin 8) (Fin 9);
                 Candle (Fin 12) (Fin 11) (Fin 11)]) as (_ & _ & H & _).
  apply (H (Candle (Fin 10) (Fin 8) (Fin 9))); reflexivity.
Defined.

(** C5 as stated fails on a candle whose low is above its high: the first
    true range of the candle 1/2/1 is 0, and its high-low is -1. *)
Lemma true_range_first_is_clamped :
  true_range [Fin 1] [Fin 2] [Fin 1] !! 0%nat = Some (Fin 0) /\
  (Fin 1 - Fin 2)%num = Fin (-1) /\
  ~ same (Fin 0) (Fin (-1)).
Proof.
  split; [reflexivity|]. split; [reflexivity|].
  simpl. intros H. discriminate H.
Qed.

(** ** ATR percent *)

Lemma truthy_false_iff (x : num) : truthy x = false <-> zero_or_nan x.
Proof.
  unfold zero_or_nan. destruct x as [q| | |]; simpl.
  - rewrite negb_false_iff, Qeq_bool_iff. change (inject_Z 0) with 0%Q.
    split; [auto|]. intros [H|H]; [exact H|discriminate].
  - split; [discriminate|]. intros [[]|H]; discriminate.
  - split; [discriminate|]. intros [[]|H]; discriminate.
  - split; auto.
Qed.

Lemma asset_atr_shape (ks : list candle) :
  asset_atr ks = JNull \/ exists a, asset_atr ks = JNum a.
Proof.
  unfold asset_atr, rma. destruct (_ <? 14); [left|right; eexists]; reflexivity.
Qed.

(** C2, as the code has it: atrPercent is ATR / lastClose * 100; it is
    absent exactly when the ATR is absent, zero or [NaN], or the last close
    is absent, zero or [NaN]. *)
Theorem atr_percent_presence (base : string) (tick_pct tick_vol : option num)
    (ks : list candle) (item : option provenance) :
  let s := summarize base tick_pct tick_vol ks item in
  let atr := asset_atr ks in
  let lastClose := last_close (map close ks) in
  (atrPct s = None <->
   atr = JNull \/ (exists a, atr = JNum a /\ zero_or_nan a) \/
   lastClose = None \/ (exists c, lastClose = Some c /\ zero_or_nan c)) /\
  (forall a c, atr = JNum a -> lastClose = Some c ->
     ~ zero_or_nan a -> ~ zero_or_nan c ->
     atrPct s = Some (a / c * of_Z 100)%num).
Proof.
  cbv zeta. simpl atrPct. unfold atr_percent.
  destruct (asset_atr_shape ks) as [Ha|[a Ha]]; rewrite Ha;
    destruct (last_close (map close ks)) as [c|]; simpl.
  - split; [|discriminate]. split; [intros _; left|]; reflexivity.
  - split; [|discriminate]. split; [intros _; left|]; reflexivity.
  - split.
    + destruct (truthy a) eqn:Ea, (truthy c) eqn:Ec; simpl.
      * split; [discriminate|].
        intros [H|[(a' & Heq & Hz)|[H|(c' & Heq & Hz)]]]; try discriminate.
        -- injection Heq as <-. apply truthy_false_iff in Hz. congruence.
        -- injection Heq as <-. apply truthy_false_iff in Hz. congruence.
      * split; [|reflexivity]. intros _. right. right. right.
        exists c. split; [reflexivity|]. apply truthy_false_iff. exact Ec.
      * split; [|reflexivity]. intros _. right. left.
        exists a. split; [reflexivity|]. apply truthy_false_iff. exact Ea.
      * split; [|reflexivity]. intros _. right. left.
        exists a. split; [reflexivity|]. apply truthy_false_iff. exact Ea.
    + intros a' c' Heqa Heqc Hza Hzc.
      injection Heqa as <-. injection Heqc as <-.
      rewrite <- truthy_false_iff in Hza, Hzc.
      apply not_false_is_true in Hza, Hzc. rewrite Hza, Hzc. reflexivity.
  - split; [|discriminate]. split; [|reflexivity]. intros _.
    right. right. left. reflexivity.
Qed.

(** Fourteen candles 2/1/1 (high/low/close): the range is 1 throughout. *)
Lemma atr_percent_presence_witness :
  atrPct (summarize "BTC" None None
            (repeat (Candle (Fin 2) (Fin 1) (Fin 1)) 14) None)
  = Some (rma_upto (repeat (Fin 1) 14) 14 14 / Fin 1 * of_Z 100)%num.
Proof.
  pose proof (atr_percent_presence "BTC" None None
                (repeat (Candle (Fin 2) (Fin 1) (Fin 1)) 14) None) as [_ H].
  apply H; try reflexivity.
  - intros [Hz|Hn]; [vm_compute in Hz|]; discriminate.
  - intros [Hz|Hn]; [vm_compute in Hz|]; discriminate.
Defined.

(** C2 as stated fails on fourteen flat candles 1/1/1: the ATR is present
    and zero, the last close is present and not zero, and atrPercent is
    absent. *)
Lemma atr_percent_absent_for_zero_atr :
  let flat := repeat (Candle (Fin 1) (Fin 1) (Fin 1)) 14 in
  asset_atr flat = JNum (Fin (0 # 14)) /\
  last_close (map close flat) = Some (Fin 1) /\
  atrPct (summarize "BTC" None None flat None) = None.
Proof. vm_compute. repeat split. Qed.

(** ** Comparators *)

Lemma sub_neg_ltb (x y : num) : ltb (x - y)%num (of_Z 0) = ltb x y.
Proof.
  destruct x as [a| | |], y as [b| | |]; try reflexivity.
  simpl. f_equal. apply eq_true_iff_eq. rewrite !Qle_bool_iff.
  change (inject_Z 0) with 0%Q. split; intros; lra.
Qed.

Lemma sub_pos_ltb (x y : num) : ltb (of_Z 0) (x - y)%num = ltb y x.
Proof.
  destruct x as [a| | |], y as [b| | |]; try reflexivity.
  simpl. f_equal. apply eq_true_iff_eq. rewrite !Qle_bool_iff.
  change (inject_Z 0) with 0%Q. split; intros; lra.
Qed.

Lemma eqb_sym (x y : num) : eqb x y = eqb y x.
Proof.
  destruct x as [a| | |], y as [b| | |]; try reflexivity.
  simpl. apply Qeq_bool_comm.
Qed.

Lemma eqb_true_not_ltb (x y : num) : eqb x y = true -> ltb x y = false.
Proof.
  destruct x as [a| | |], y as [b| | |]; try discriminate; try reflexivity.
  simpl. intros H. apply Qeq_bool_eq in H. apply negb_false_iff.
  apply Qle_bool_iff. lra.
Qed.

(** A key on which the two summaries differ decides by its difference;
    a key on which they agree hands over to the next one. *)
Lemma key_decides (ka kb : num) (next : num) (Pnext : Prop) :
  (lt next (of_Z 0) <-> Pnext) ->
  lt (if negb (eqb ka kb) then (ka - kb)%num else next) (of_Z 0)
  <-> lt ka kb \/ (Num.eq ka kb /\ Pnext).
Proof.
  unfold lt, Num.eq. intros Hnext.
  destruct (eqb ka kb) eqn:E; cbn [negb].
  - rewrite (eqb_true_not_ltb ka kb E). rewrite Hnext.
    split; [intros H; right; auto|]. intros [H|[_ H]]; [discriminate|exact H].
  - rewrite sub_neg_ltb. split; [auto|]. intros [H|[H _]]; [exact H|discriminate].
Qed.

Lemma key_decides_rev (ka kb : num) (next : num) (Pnext : Prop) :
  (lt (of_Z 0) next <-> Pnext) ->
  lt (of_Z 0) (if negb (eqb ka kb) then (ka - kb)%num else next)
  <-> lt kb ka \/ (Num.eq kb ka /\ Pnext).
Proof.
  unfold lt, Num.eq. intros Hnext. rewrite (eqb_sym kb ka).
  destruct (eqb ka kb) eqn:E; cbn [negb].
  - rewrite eqb_sym in E. rewrite (eqb_true_not_ltb kb ka E). rewrite Hnext.
    split; [intros H; right; auto|]. intros [H|[_ H]]; [discriminate|exact H].
  - rewrite sub_pos_ltb. split; [auto|]. intros [H|[H _]]; [exact H|discriminate].
Qed.

Lemma last_key_decides (ka kb : num) :
  (lt (ka - kb)%num (of_Z 0) <-> lt ka kb) /\
  (lt (of_Z 0) (ka - kb)%num <-> lt kb ka).
Proof. unfold lt. rewrite sub_neg_ltb, sub_pos_ltb. tauto. Qed.

Lemma eq_sym_iff (x y : num) : Num.eq x y <-> Num.eq y x.
Proof. unfold Num.eq. rewrite eqb_sym. tauto. Qed.

(** C1, as the code has it: under strong_up_low_atr the comparator of
    discover-pick orders two summaries by the first key on which they
    differ among rating score (descending), atrPercent (ascending, absent
    as +infinity), 24h volume (descending) and absolute 24h change
    (descending); the comparator of discover-top orders them by the same
    keys without the volume. *)
Theorem comparators_are_lexicographic (a b : summary) :
  (puts_first (cmp_pick "strong_up_low_atr" a b) <-> before_low_atr a b) /\
  (puts_last (cmp_pick "strong_up_low_atr" a b) <-> before_low_atr b a) /\
  (puts_first (cmp_top a b) <-> before_no_volume a b) /\
  (puts_last (cmp_top a b) <-> before_no_volume b a).
Proof.
  unfold puts_first, puts_last, before_low_atr, before_no_volume,
    cmp_pick, cmp_top.
  change ("strong_up_low_atr" =? "strong_up_high_vol")%string with false.
  cbv zeta iota.
  set (ra := ratingScore (s_rating a)). set (rb := ratingScore (s_rating b)).
  destruct (last_key_decides (move_key b) (move_key a)) as [Hm1 Hm2].
  split; [|split; [|split]].
  - rewrite key_decides; [|apply key_decides; apply key_decides; exact Hm1].
    rewrite (eq_sym_iff rb ra), (eq_sym_iff (vol_key b) (vol_key a)). tauto.
  - rewrite key_decides_rev;
      [|apply key_decides_rev; apply key_decides_rev; exact Hm2].
    rewrite (eq_sym_iff ra rb), (eq_sym_iff (vol_key a) (vol_key b)). tauto.
  - rewrite key_decides; [|apply key_decides; exact Hm1].
    rewrite (eq_sym_iff rb ra). tauto.
  - rewrite key_decides_rev; [|apply key_decides_rev; exact Hm2].
    rewrite (eq_sym_iff ra rb). tauto.
Qed.

(** The specification's example: rating dominates atrPercent. *)
Lemma comparators_are_lexicographic_witness :
  let up := Summary "AUSDT" None None None (Some (Fin 0.5)) (Some Up) RUp None in
  let strong :=
    Summary "BUSDT" None None None (Some (Fin 0.9)) (Some Up) StrongUp None in
  puts_last (cmp_pick "strong_up_low_atr" up strong) /\
  puts_last (cmp_top up strong).
Proof.
  cbv zeta.
  pose proof (comparators_are_lexicographic
                (Summary "AUSDT" None None None (Some (Fin 0.5)) (Some Up) RUp None)
                (Summary "BUSDT" None None None (Some (Fin 0.9)) (Some Up)
                         StrongUp None)) as (_ & H1 & _ & H2).
  split; [apply H1|apply H2]; left; reflexivity.
Defined.

(** C1 as stated fails for discover-top: two summaries that differ on the
    24h volume only are left in place by its comparator, while the stated
    order (and the comparator of discover-pick) puts the larger volume
    first. *)
Lemma discover_top_ignores_volume :
  let a := Summary "AUSDT" None None (Some (Fin 1)) (Some (Fin 1)) None Neutral None in
  let b := Summary "BUSDT" None None (Some (Fin 2)) (Some (Fin 1)) None Neutral None in
  before_low_atr b a /\
  ~ puts_last (cmp_top a b) /\
  js_sort cmp_top [a; b] = [a; b] /\
  js_sort (cmp_pick "strong_up_low_atr") [a; b] = [b; a].
Proof.
  cbv zeta. split; [|split; [|split]].
  - right. split; [reflexivity|]. right. split; [reflexivity|].
    left. reflexivity.
  - unfold puts_last, lt. vm_compute. discriminate.
  - reflexivity.
  - reflexivity.
Qed.

(** ** The cache key does not depend on the order of the parameters *)

Lemma obj_get_perm {V} (p1 p2 : object V) :
  p1 ≡ₚ p2 -> NoDup (obj_keys p1) ->
  forall key, obj_get p1 key = obj_get p2 key.
Proof.
  induction 1 as [|[k v] l l' Hperm IH|[k1 v1] [k2 v2] l|l l' l'' H1 IH1 H2 IH2];
    intros Hnd key.
  - reflexivity.
  - simpl. destruct (String.eqb k key); [reflexivity|].
    apply IH. simpl in Hnd. apply NoDup_cons in Hnd as [_ Hnd]. exact Hnd.
  - simpl in *. apply NoDup_cons in Hnd as [Hnotin _].
    destruct (String.eqb_spec k1 key) as [->|_];
      destruct (String.eqb_spec k2 key) as [->|_]; try reflexivity.
    exfalso. apply Hnotin. left.
  - rewrite IH1 by exact Hnd. apply IH2.
    unfold obj_keys in *. rewrite <- H1. exact Hnd.
Qed.

Lemma sort_keys_perm (k1 k2 : list string) :
  k1 ≡ₚ k2 -> sort_keys k1 = sort_keys k2.
Proof.
  intros Hperm. unfold sort_keys.
  apply (Sorted_unique String.le); try apply Sorted_merge_sort; try apply _.
  rewrite !merge_sort_Permutation. exact Hperm.
Qed.

Lemma sorted_params_perm (p1 p2 : object pval) :
  NoDup (obj_keys p1) -> p1 ≡ₚ p2 -> sorted_params p1 = sorted_params p2.
Proof.
  intros Hnd Hperm. unfold sorted_params.
  rewrite (sort_keys_perm (obj_keys p1) (obj_keys p2))
    by (unfold obj_keys; rewrite Hperm; reflexivity).
  generalize (sort_keys (obj_keys p2)) (@nil (string * pval)).
  intros keys. induction keys as [|k keys IH]; intros acc; simpl.
  - reflexivity.
  - rewrite (obj_get_perm p1 p2 Hperm Hnd k). apply IH.
Qed.

Lemma buildCacheKey_perm (endpoint : string) (p1 p2 : object pval) :
  NoDup (obj_keys p1) -> p1 ≡ₚ p2 ->
  buildCacheKey endpoint p1 = buildCacheKey endpoint p2.
Proof.
  intros Hnd Hperm. unfold buildCacheKey.
  rewrite (sorted_params_perm p1 p2 Hnd Hperm). reflexivity.
Qed.

(** ** One call against the cache *)

Section OneCall.
Variables (ttl : Z) (cache : gmap string cache_entry).
Variables (endpoint : string) (params : object pval).
Variables (now : Z) (resp : response) (now' : Z).

Local Abbreviation r := (makeApiRequest ttl cache endpoint params now resp now').
Local Abbreviation key := (buildCacheKey endpoint params).

Lemma call_hit (e : cache_entry) :
  cache !! key = Some e -> now - ts e < ttl ->
  r = ApiResult (Some (data e)) cache [] false.
Proof.
  intros He Hfresh. unfold makeApiRequest. rewrite He.
  destruct (Z.ltb_spec (now - ts e) ttl); [reflexivity|lia].
Qed.

Lemma call_expired (e : cache_entry) :
  cache !! key = Some e -> ttl <= now - ts e ->
  requests r = [build_url endpoint params].
Proof.
  intros He Hold. unfold makeApiRequest. rewrite He.
  destruct (Z.ltb_spec (now - ts e) ttl); [lia|].
  destruct resp as [|status [body|]]; try reflexivity.
  destruct (status_ok status); reflexivity.
Qed.

Lemma call_store (status : Z) (body : json) :
  resp = Http status (Some body) -> status_ok status = true ->
  requests r <> [] ->
  returned r = Some body /\
  cache_after r = <[key := CacheEntry now' body]> cache.
Proof.
  intros Hresp Hok. unfold makeApiRequest. rewrite Hresp, Hok.
  destruct (match cache !! key with Some _ => _ | None => _ end).
  - intros H. contradiction H. reflexivity.
  - intros _. split; reflexivity.
Qed.

Lemma call_failed :
  failed resp = true ->
  cache_after r = cache /\
  (requests r <> [] -> returned r = None /\ logged_error r = true).
Proof.
  intros Hfail. unfold makeApiRequest.
  destruct (match cache !! _ with Some _ => _ | None => _ end).
  - split; [reflexivity|]. intros H. contradiction H. reflexivity.
  - destruct resp as [|status [body|]]; simpl in *.
    + split; [reflexivity|]. intros _. split; reflexivity.
    + rewrite orb_false_r in Hfail. apply negb_true_iff in Hfail.
      rewrite Hfail. split; [reflexivity|]. intros _. split; reflexivity.
    + split; [reflexivity|]. intros _. split; reflexivity.
Qed.

(** What a call returns was stored earlier or has just been fetched
    with success. *)
Lemma call_returned (d : json) :
  returned r = Some d ->
  (exists e, cache !! key = Some e /\ data e = d) \/
  (exists status, resp = Http status (Some d) /\ status_ok status = true).
Proof.
  unfold makeApiRequest.
  destruct (cache !! key) as [e|] eqn:He.
  - destruct (now - ts e <? ttl).
    + simpl. intros [= <-]. left. exists e. auto.
    + destruct resp as [|status [body|]]; try discriminate.
      destruct (status_ok status) eqn:Hok; [|discriminate].
      simpl. intros [= <-]. right. exists status. auto.
  - destruct resp as [|status [body|]]; try discriminate.
    destruct (status_ok status) eqn:Hok; [|discriminate].
    simpl. intros [= <-]. right. exists status. auto.
Qed.

(** An entry of the cache after a call was there before or holds the
    body of this call's successful response. *)
Lemma call_entry (k : string) (e : cache_entry) :
  cache_after r !! k = Some e ->
  cache !! k = Some e \/
  (exists status, resp = Http status (Some (data e)) /\
                  status_ok status = true /\ ts e = now').
Proof.
  unfold makeApiRequest.
  destruct (match cache !! key with Some _ => _ | None => _ end).
  - simpl. auto.
  - destruct resp as [|status [body|]]; simpl; auto.
    destruct (status_ok status) eqn:Hok; simpl; auto.
    destruct (decide (key = k)) as [<-|Hne].
    + rewrite lookup_insert_eq. intros [= <-]. right. exists status. auto.
    + rewrite lookup_insert_ne by exact Hne. auto.
Qed.

End OneCall.

(** ** Cache hits and failures *)

(** C3: after a call that fetched and stored a payload at time [t], a call
    with the same endpoint and the same parameters in any order, made at a
    time [t'] with [t' - t < ttl], issues no fetch, returns the stored
    payload and leaves the cache as it is; with [t' - t >= ttl] it issues
    a fetch. *)
Theorem cache_hit_within_ttl (ttl : Z) (cache : gmap string cache_entry)
    (endpoint : string) (p1 p2 : object pval)
    (t0 : Z) (status : Z) (body : json) (t : Z)
    (t' : Z) (resp2 : response) (t2 : Z) :
  NoDup (obj_keys p1) -> p1 ≡ₚ p2 ->
  status_ok status = true ->
  let first :=
    makeApiRequest ttl cache endpoint p1 t0 (Http status (Some body)) t in
  let second :=
    makeApiRequest ttl (cache_after first) endpoint p2 t' resp2 t2 in
  requests first <> [] ->
  (t' - t < ttl ->
   requests second = [] /\ returned second = Some body /\
   cache_after second = cache_after first) /\
  (ttl <= t' - t -> requests second = [build_url endpoint p2]).
Proof.
  intros Hnd Hperm Hok first second Hfetched.
  destruct (call_store ttl cache endpoint p1 t0 _ t status body
              eq_refl Hok Hfetched) as [_ Hcache].
  fold first in Hcache.
  assert (Hentry : cache_after first !! buildCacheKey endpoint p2
                   = Some (CacheEntry t body)).
  { rewrite <- (buildCacheKey_perm endpoint p1 p2 Hnd Hperm), Hcache.
    apply lookup_insert_eq. }
  split.
  - intros Hfresh. unfold second.
    rewrite (call_hit ttl _ endpoint p2 t' resp2 t2 _ Hentry Hfresh).
    repeat split.
  - intros Hold. unfold second.
    apply (call_expired ttl _ endpoint p2 t' resp2 t2 _ Hentry Hold).
Qed.

(** The listing request of the discovery tools, then the same parameters
    in another order 10 s later. *)
Lemma cache_hit_within_ttl_witness :
  let p1 := [("limit", PInt 20); ("convert", PStr "USD");
             ("sort", PStr "market_cap"); ("sort_dir", PStr "desc")] in
  let p2 := [("convert", PStr "USD"); ("limit", PInt 20);
             ("sort", PStr "market_cap"); ("sort_dir", PStr "desc")] in
  let first :=
    makeApiRequest 15000 ∅ "/cryptocurrency/listings/latest" p1 1000
                   (Http 200 (Some (JsObject [("data", JsArray [])]))) 1200 in
  let second :=
    makeApiRequest 15000 (cache_after first) "/cryptocurrency/listings/latest"
                   p2 11200 NetworkError 11300 in
  requests second = [] /\
  returned second = Some (JsObject [("data", JsArray [])]) /\
  cache_after second = cache_after first.
Proof.
  cbv zeta.
  refine (proj1 (cache_hit_within_ttl 15000 ∅ "/cryptocurrency/listings/latest"
                   _ _ 1000 200 (JsObject [("data", JsArray [])]) 1200
                   11200 NetworkError 11300 _ _ _ _) _).
  - vm_compute. compute_done.
  - apply perm_swap.
  - reflexivity.
  - discriminate.
  - lia.
Defined.

Lemma run_calls_snoc (ttl : Z) (cs : list call) (c : call)
    (cache : gmap string cache_entry) :
  run_calls ttl (cs ++ [c]) cache
  = cache_after (run_call ttl (run_calls ttl cs cache) c).
Proof. unfold run_calls. rewrite fold_left_app. reflexivity. Qed.

(** Every entry of the cache holds the body of a successful response. *)
Lemma cache_holds_successes (ttl : Z) (cs : list call) (key : string)
    (e : cache_entry) :
  run_calls ttl cs ∅ !! key = Some e ->
  exists c status,
    In c cs /\ c_resp c = Http status (Some (data e)) /\
    status_ok status = true.
Proof.
  revert key e. induction cs as [|c cs IH] using rev_ind; intros key e.
  - simpl. rewrite lookup_empty. discriminate.
  - rewrite run_calls_snoc. unfold run_call. intros H.
    apply call_entry in H as [Hold|(status & Hresp & Hok & _)].
    + destruct (IH key e Hold) as (c0 & status & Hin & Hresp & Hok).
      exists c0, status. split; [apply in_or_app; left; exact Hin|]. auto.
    + exists c, status. split; [apply in_or_app; right; left; reflexivity|].
      auto.
Qed.

(** C8: a fetch that fails (network error, non-success status, malformed
    payload) makes the call return the absent value and leaves the cache
    as it was; the listing then has no candidates; and what any call of a
    history returns is the body of a successful response of that history,
    never a failure. *)
Theorem failed_fetch_not_cached (ttl : Z) (cache : gmap string cache_entry)
    (endpoint : string) (params : object pval)
    (now : Z) (resp : response) (now' : Z) :
  failed resp = true ->
  let r := makeApiRequest ttl cache endpoint params now resp now' in
  cache_after r = cache /\
  (requests r <> [] ->
   returned r = None /\ listing_data (returned r) = JsArray []) /\
  (forall (cs : list call) (c : call) (d : json),
     returned (run_call ttl (run_calls ttl cs ∅) c) = Some d ->
     exists c' status,
       In c' (cs ++ [c]) /\ c_resp c' = Http status (Some d) /\
       status_ok status = true).
Proof.
  intros Hfail r.
  destruct (call_failed ttl cache endpoint params now resp now' Hfail)
    as [Hcache Hret].
  split; [exact Hcache|]. split.
  - intros Hreq. destruct (Hret Hreq) as [Hnone _]. fold r in Hnone.
    rewrite Hnone. split; reflexivity.
  - intros cs c d Hd. unfold run_call in Hd.
    apply call_returned in Hd as [(e & He & <-)|(status & Hresp & Hok)].
    + destruct (cache_holds_successes ttl cs _ e He)
        as (c0 & status & Hin & Hresp & Hok).
      exists c0, status. split; [apply in_or_app; left; exact Hin|]. auto.
    + exists c, status. split; [apply in_or_app; right; left; reflexivity|].
      auto.
Qed.

(** A listing request answered by status 500, over a cache that holds an
    expired entry for it. *)
Lemma failed_fetch_not_cached_witness :
  let key := buildCacheKey "/cryptocurrency/listings/latest" [("limit", PInt 20)] in
  let cache : gmap string cache_entry := {[ key := CacheEntry 0 JsNull ]} in
  let r := makeApiRequest 15000 cache "/cryptocurrency/listings/latest"
             [("limit", PInt 20)] 20000 (Http 500 (Some JsNull)) 20100 in
  cache_after r = cache /\ returned r = None /\
  listing_data (returned r) = JsArray [].
Proof.
  cbv zeta.
  pose proof (failed_fetch_not_cached 15000
                {[ buildCacheKey "/cryptocurrency/listings/latest"
                     [("limit", PInt 20)] := CacheEntry 0 JsNull ]}
                "/cryptocurrency/listings/latest" [("limit", PInt 20)]
                20000 (Http 500 (Some JsNull)) 20100 eq_refl) as (H1 & H2 & _).
  split; [exact H1|]. apply H2. vm_compute. discriminate.
Defined.


(** ** Moving averages on rational series *)

(** The smoothing stays inside any interval that holds its inputs. *)
Lemma rma_upto_bounds (lo hi : Q) (l : list Q) (p m : Z) :
  1 <= p -> p <= m -> m <= arr_length l ->
  (forall x, In x (take (Z.to_nat m) l) -> lo <= x <= hi)%Q ->
  exists v : Q, rma_upto (map Fin l) p m = Fin v /\ (lo <= v <= hi)%Q.
Proof.
  intros Hp Hpm Hm Hin.
  rewrite rma_upto_Fin by assumption. eexists. split; [reflexivity|].
  assert (Hseen : take (Z.to_nat m) l
                  = take (Z.to_nat p) l
                         ++ take (Z.to_nat (m - p)) (drop (Z.to_nat p) l)).
  { rewrite take_take_drop. f_equal. lia. }
  rewrite Hseen in Hin.
  apply fold_step_bounds.
  - apply alpha_bounds. exact Hp.
  - apply seed_bounds; [exact Hp| |].
    + unfold arr_length in Hm. rewrite length_take. lia.
    + intros x Hx. apply Hin, in_or_app. left. exact Hx.
  - intros x Hx. apply Hin, in_or_app. right. exact Hx.
Qed.

(** X1: the simple average of period [p] of any series that ends with the
    [p] elements [tail] is the sum of [tail], added in order from 0,
    divided by [p]; what precedes [tail] plays no part. *)
Theorem sma_mean_of_last (pre tail : list num) :
  sma (pre ++ tail) (arr_length tail)
  = JNum (Num.div (fold_left Num.add tail (of_Z 0)) (of_Z (arr_length tail))).
Proof.
  unfold sma.
  assert (Hlen : arr_length (pre ++ tail) = arr_length pre + arr_length tail)
    by (unfold arr_length; rewrite length_app; lia).
  pose proof (arr_length_nonneg pre) as Hnn.
  destruct (Z.ltb_spec (arr_length (pre ++ tail)) (arr_length tail)) as [?|_];
    [lia|].
  replace (arr_length (pre ++ tail) - arr_length tail) with (arr_length pre)
    by lia.
  rewrite Hlen.
  rewrite (for_loop_elems Num.add (pre ++ tail) pre tail [] (of_Z 0))
    by (rewrite app_nil_r; reflexivity).
  reflexivity.
Qed.

Lemma mul_not_negative_r (x : num) (a : Q) :
  (0 <= a)%Q -> ltb x (of_Z 0) = false ->
  ltb (x * Fin a)%num (of_Z 0) = false.
Proof.
  intros Ha. destruct x as [b| | |]; simpl; try reflexivity; try discriminate.
  - rewrite !negb_false_iff, !Qle_bool_iff. change (inject_Z 0) with 0%Q.
    intros. nra.
  - intros _. unfold scale_inf. destruct (a ?= 0)%Q eqn:E; try reflexivity.
    rewrite <- Qlt_alt in E. lra.
Qed.

(** X2: for a period of at least one and a series at least as long, no
    element of which is negative, the exponential average is a number that
    is not negative: the weights [2/(p+1)] and [1 - 2/(p+1)] are not. *)
Theorem ema_not_negative (s : list num) (p : Z) :
  1 <= p -> p <= arr_length s ->
  (forall x, In x s -> ltb x (of_Z 0) = false) ->
  exists v : num, calcEMA s p = JNum v /\ ltb v (of_Z 0) = false.
Proof.
  intros Hp Hlen Hall. rewrite calcEMA_recurrence.
  destruct (Z.ltb_spec (arr_length s) p) as [?|_]; [lia|].
  destruct s as [|x rest]; [unfold arr_length in Hlen; simpl in Hlen; lia|].
  unfold ema_full. eexists. split; [reflexivity|].
  change (of_Z 2) with (Fin 2). rewrite div_by_period by lia.
  change (of_Z 1 - Fin (2 / inject_Z (p + 1)))%num
    with (Fin (inject_Z 1 + - (2 / inject_Z (p + 1)))).
  pose proof (inject_Z_pos (p + 1) ltac:(lia)) as Hq.
  assert (Hk : (0 <= 2 / inject_Z (p + 1))%Q)
    by (apply Qle_shift_div_l; lra).
  assert (Hk' : (0 <= inject_Z 1 + - (2 / inject_Z (p + 1)))%Q).
  { change (inject_Z 1) with 1%Q.
    assert (2 / inject_Z (p + 1) <= 1)%Q; [|lra].
    apply Qle_shift_div_r; [lra|]. rewrite inject_Z_plus.
    pose proof (inject_Z_pos p Hp). change (inject_Z 1) with 1%Q. lra. }
  assert (Hx : ltb x (of_Z 0) = false) by (apply Hall; left; reflexivity).
  assert (Hrest : forall y, In y rest -> ltb y (of_Z 0) = false)
    by (intros y Hy; apply Hall; right; exact Hy).
  clear Hall Hlen. revert x Hx. induction rest as [|y rest IH]; intros x Hx.
  - exact Hx.
  - simpl. apply IH.
    + intros z Hz. apply Hrest. right. exact Hz.
    + apply add_not_negative.
      * apply mul_not_negative_r; [exact Hk|]. apply Hrest. left. reflexivity.
      * apply mul_not_negative_r; [exact Hk'|exact Hx].
Qed.

Lemma ema_not_negative_witness :
  exists v : num,
    calcEMA (map Fin [1; 5; 3; 7]%Q) 3 = JNum v /\ ltb v (of_Z 0) = false.
Proof.
  apply (ema_not_negative (map Fin [1; 5; 3; 7]%Q) 3).
  - lia.
  - unfold arr_length. simpl. lia.
  - intros x [<-|[<-|[<-|[<-|[]]]]]; reflexivity.
Defined.

(** ** Trend and rating of an asset *)

Lemma calcEMA_null_below (s : list num) (p : Z) :
  arr_length s < p -> calcEMA s p = JNull.
Proof.
  intros H. unfold calcEMA.
  destruct (Z.ltb_spec (arr_length s) p); [reflexivity|lia].
Qed.

Lemma sma_null_below (s : list num) (p : Z) :
  arr_length s < p -> sma s p = JNull.
Proof.
  intros H. unfold sma.
  destruct (Z.ltb_spec (arr_length s) p); [reflexivity|lia].
Qed.

Lemma not_null_calcEMA (s : list num) (p : Z) :
  p <= arr_length s -> not_null (calcEMA s p) = true.
Proof.
  intros H. pose proof (calcEMA_not_null s p H).
  destruct (calcEMA s p); [contradiction|reflexivity|reflexivity].
Qed.

Lemma trend_of_closes (closes : list num) :
  classify_trend (calcEMA closes 50) (calcEMA closes 200) (sma closes 200)
                 (last_close closes)
  = if arr_length closes <? 200 then None
    else Some (if gtb (to_num (calcEMA closes 50)) (to_num (calcEMA closes 200))
               then Up else Down).
Proof.
  unfold classify_trend.
  destruct (Z.ltb_spec (arr_length closes) 200) as [Hlt|Hge].
  - rewrite (calcEMA_null_below _ 200), (sma_null_below _ 200) by exact Hlt.
    rewrite andb_false_r. reflexivity.
  - rewrite !not_null_calcEMA by lia. reflexivity.
Qed.

(** X3: the trend of an asset is absent exactly below 200 candles, where
    the rating is neutral whatever the 24h change; from 200 candles on it
    is decided by EMA50 against EMA200 alone (up when strictly greater,
    down otherwise): the SMA200 branch never decides. *)
Theorem trend_needs_200_candles (base : string) (tick_pct tick_vol : option num)
    (ks : list candle) (item : option provenance) :
  let s := summarize base tick_pct tick_vol ks item in
  let closes := map close ks in
  (arr_length ks < 200 -> s_trend s = None /\ s_rating s = Neutral) /\
  (200 <= arr_length ks ->
   s_trend s = Some (if gtb (to_num (calcEMA closes 50))
                            (to_num (calcEMA closes 200))
                     then Up else Down)) /\
  (s_trend s = None <-> arr_length ks < 200).
Proof.
  cbv zeta. simpl s_trend. simpl s_rating.
  rewrite trend_of_closes, arr_length_map.
  destruct (Z.ltb_spec (arr_length ks) 200) as [Hlt|Hge].
  - split; [intros _; split; reflexivity|]. split; [lia|]. tauto.
  - split; [lia|]. split; [reflexivity|]. split; [discriminate|lia].
Qed.

(** Three candles and a 24h change of 5 percent. *)
Lemma trend_needs_200_candles_witness :
  let s := summarize "BTC" (Some (Fin 5)) None
             (repeat (Candle (Fin 2) (Fin 1) (Fin 1)) 3) None in
  s_trend s = None /\ s_rating s = Neutral.
Proof.
  cbv zeta.
  apply (trend_needs_200_candles "BTC" (Some (Fin 5)) None
           (repeat (Candle (Fin 2) (Fin 1) (Fin 1)) 3) None).
  unfold arr_length. simpl. lia.
Defined.

(** ** Volatility of an asset *)

Lemma max_Fin (a b : Q) :
  exists m : Q, Num.max (Fin a) (Fin b) = Fin m /\ (a <= m /\ b <= m)%Q /\
                (m == a \/ m == b)%Q.
Proof.
  unfold Num.max, ltb. destruct (Qle_bool b a) eqn:E; simpl.
  - apply Qle_bool_iff in E. exists a.
    split; [reflexivity|]. split; [split; lra|]. left. reflexivity.
  - exists b. assert (~ (b <= a)%Q) by (rewrite <- Qle_bool_iff; congruence).
    split; [reflexivity|]. split; [split; lra|]. right. reflexivity.
Qed.

Lemma max3_Fin (a b c : Q) :
  exists m : Q, max3 (Fin a) (Fin b) (Fin c) = Fin m /\
                (a <= m /\ b <= m /\ c <= m)%Q /\
                (m == a \/ m == b \/ m == c)%Q.
Proof.
  unfold max3. destruct (max_Fin a b) as (m1 & -> & [Ha Hb] & H1).
  destruct (max_Fin m1 c) as (m & -> & [Hm Hc] & H2).
  exists m. split; [reflexivity|]. split; [lra|].
  destruct H2 as [H2|H2]; [|tauto]. destruct H1 as [H1|H1]; [left|right; left]; lra.
Qed.

(** The true range of a finite candle after a finite close, or first. *)
Lemma candle_tr_finite (prev : option Q) (hlc : Q * Q * Q) :
  exists v : Q,
    candle_tr (option_map Fin prev) (finite_candle hlc) = Fin v /\
    (0 <= v)%Q /\ (fst (fst hlc) - snd (fst hlc) <= v)%Q /\
    ((fst (fst hlc) == snd (fst hlc) /\
      forall c, prev = Some c -> fst (fst hlc) == c) -> v == 0)%Q.
Proof.
  destruct hlc as [[h l] c]. unfold finite_candle. simpl fst. simpl snd.
  destruct prev as [c0|]; simpl candle_tr.
  - destruct (max3_Fin (h + - l) (Qabs (h + - c0)) (Qabs (l + - c0)))
      as (m & Hm & (H1 & H2 & H3) & Hor).
    exists m. split; [exact Hm|].
    pose proof (Qabs_nonneg (h + - c0)) as Hn.
    split; [lra|]. split; [lra|].
    intros [Hhl Hc]. specialize (Hc c0 eq_refl).
    assert (Qabs (h + - c0) == 0)%Q
      by (assert (E : (h + - c0 == 0)%Q) by lra; rewrite E; reflexivity).
    assert (Qabs (l + - c0) == 0)%Q
      by (assert (E : (l + - c0 == 0)%Q) by lra; rewrite E; reflexivity).
    destruct Hor as [E|[E|E]]; lra.
  - destruct (max3_Fin (h + - l) (inject_Z 0) (inject_Z 0))
      as (m & Hm & (H1 & H2 & H3) & Hor).
    exists m. split; [exact Hm|]. change (inject_Z 0) with 0%Q in *.
    split; [lra|]. split; [lra|].
    intros [Hhl _]. destruct Hor as [E|[E|E]]; lra.
Qed.

Lemma tr_series_finite (prev : option Q) (qs : list (Q * Q * Q)) :
  exists trq : list Q,
    tr_series (option_map Fin prev) (map finite_candle qs) = map Fin trq /\
    Forall2 (fun v hlc => 0 <= v /\ fst (fst hlc) - snd (fst hlc) <= v)%Q trq qs /\
    (forall q0, (forall hlc, In hlc qs ->
                   fst (fst hlc) == q0 /\ snd (fst hlc) == q0 /\ snd hlc == q0) ->
                (forall c, prev = Some c -> c == q0) ->
                forall v, In v trq -> v == 0)%Q.
Proof.
  revert prev. induction qs as [|hlc qs IH]; intros prev.
  - exists []. split; [reflexivity|]. split; [constructor|]. intros ? ? ? ? [].
  - destruct (candle_tr_finite prev hlc) as (v & Hv & Hnn & Hrange & Hzero).
    destruct (IH (Some (snd hlc))) as (trq & Htr & Hall & Hflat).
    exists (v :: trq). simpl. rewrite Hv.
    change (Some (Fin (snd hlc))) with (option_map Fin (Some (snd hlc))).
    rewrite Htr. split; [reflexivity|]. split; [constructor; auto|].
    intros q0 Hq0 Hprev w [<-|Hw].
    + apply Hzero. destruct (Hq0 hlc (or_introl eq_refl)) as (Hh & Hl & _).
      split; [lra|]. intros c Hc. specialize (Hprev c Hc). lra.
    + apply (Hflat q0); [| |exact Hw].
      * intros x Hx. apply Hq0. right. exact Hx.
      * intros c [= <-]. apply (Hq0 hlc). left. reflexivity.
Qed.

Lemma ltb_same_false (x : num) : ltb x x = false.
Proof.
  destruct x as [a| | |]; try reflexivity.
  simpl. rewrite negb_false_iff. apply Qle_bool_iff. lra.
Qed.

(** [Math.max] is never below an argument, whatever the arguments. *)
Lemma max_not_below_l (x y : num) : ltb (Num.max x y) x = false.
Proof.
  destruct x as [a| | |], y as [b| | |]; try reflexivity;
    try apply ltb_same_false.
  unfold Num.max. destruct (ltb (Fin a) (Fin b)) eqn:E.
  - simpl in *. apply negb_true_iff in E. rewrite negb_false_iff.
    apply Qle_bool_iff.
    assert (~ (b <= a)%Q) by (rewrite <- Qle_bool_iff; congruence). lra.
  - simpl. rewrite negb_false_iff. apply Qle_bool_iff. lra.
Qed.

Lemma max_not_below_r (x y : num) : ltb (Num.max x y) y = false.
Proof.
  destruct x as [a| | |], y as [b| | |]; try reflexivity;
    try apply ltb_same_false.
  unfold Num.max. destruct (ltb (Fin a) (Fin b)) eqn:E.
  - simpl. rewrite negb_false_iff. apply Qle_bool_iff. lra.
  - exact E.
Qed.

Lemma not_below_trans (x y z : num) :
  ltb x y = false -> ltb y z = false -> (y = NaN -> x = NaN) ->
  ltb x z = false.
Proof.
  destruct x as [a| | |], y as [b| | |], z as [c| | |]; simpl;
    try reflexivity; try discriminate;
    try (intros _ _ H; specialize (H eq_refl); discriminate H).
  rewrite !negb_false_iff, !Qle_bool_iff. intros H1 H2 _. lra.
Qed.

Lemma max_NaN_r (x : num) : Num.max x NaN = NaN.
Proof. destruct x; reflexivity. Qed.

Lemma max3_not_below (a b c : num) :
  ltb (max3 a b c) a = false /\ ltb (max3 a b c) b = false /\
  ltb (max3 a b c) c = false.
Proof.
  unfold max3. split; [|split].
  - apply (not_below_trans _ (Num.max a b));
      [apply max_not_below_l|apply max_not_below_l|].
    intros ->. reflexivity.
  - apply (not_below_trans _ (Num.max a b));
      [apply max_not_below_l|apply max_not_below_r|].
    intros ->. reflexivity.
  - apply max_not_below_r.
Qed.

Lemma max3_NaN_middle (a c : num) : max3 a NaN c = NaN.
Proof. unfold max3. rewrite max_NaN_r. reflexivity. Qed.

Lemma abs_not_below_zero (x : num) : ltb (abs x) (of_Z 0) = false.
Proof.
  destruct x as [q| | |]; try reflexivity.
  simpl. rewrite negb_false_iff. apply Qle_bool_iff.
  change (inject_Z 0) with 0%Q. apply Qabs_nonneg.
Qed.

(** The true range of a candle is below neither 0 nor the candle's range. *)
Lemma candle_tr_not_below (prev : option num) (k : candle) :
  ltb (candle_tr prev k) (of_Z 0) = false /\
  ltb (candle_tr prev k) (high k - low k)%num = false.
Proof.
  unfold candle_tr. destruct prev as [c|].
  - destruct (max3_not_below (high k - low k)%num (abs (high k - c)%num)
                (abs (low k - c)%num)) as (H1 & H2 & _).
    split; [|exact H1].
    apply (not_below_trans _ (abs (high k - c)%num));
      [exact H2|apply abs_not_below_zero|].
    intros ->. apply max3_NaN_middle.
  - destruct (max3_not_below (high k - low k)%num (of_Z 0) (of_Z 0))
      as (H1 & H2 & _).
    split; [exact H2|exact H1].
Qed.

Lemma tr_series_not_below (prev : option num) (ks : list candle) (i : nat)
    (k : candle) (v : num) :
  ks !! i = Some k -> tr_series prev ks !! i = Some v ->
  ltb v (of_Z 0) = false /\ ltb v (high k - low k)%num = false.
Proof.
  revert prev i. induction ks as [|k0 ks IH]; intros prev i Hk Hv.
  - discriminate.
  - destruct i as [|i]; simpl in Hk, Hv.
    + injection Hk as ->. injection Hv as <-. apply candle_tr_not_below.
    + exact (IH _ i Hk Hv).
Qed.

(** X5: whatever the candles hold, the true-range series has one value per
    candle, and no value is negative or below the high minus the low of its
    candle.  (The comparison is false on [NaN]: a candle with no number in
    it yields [NaN], which is not below anything.) *)
Theorem true_range_nonnegative (ks : list candle) :
  let tr := true_range (map high ks) (map low ks) (map close ks) in
  length tr = length ks /\
  forall (i : nat) (k : candle) (v : num),
    ks !! i = Some k -> tr !! i = Some v ->
    ltb v (of_Z 0) = false /\ ltb v (high k - low k)%num = false.
Proof.
  cbv zeta. rewrite true_range_series_eq. split.
  - apply tr_series_length.
  - intros i k v. apply tr_series_not_below.
Qed.

(** X6: for 14 or more candles, whatever they hold, the ATR is a number
    that is not negative (it is [NaN] when a candle holds no number). *)
Theorem atr_nonnegative (ks : list candle) :
  14 <= arr_length ks ->
  exists v : num, asset_atr ks = JNum v /\ ltb v (of_Z 0) = false.
Proof.
  intros Hlen. unfold asset_atr, rma. rewrite true_range_series_eq.
  unfold arr_length at 1. rewrite tr_series_length. fold (arr_length ks).
  destruct (Z.ltb_spec (arr_length ks) 14) as [?|_]; [lia|].
  eexists. split; [reflexivity|].
  apply rma_upto_not_negative; [lia|].
  intros x Hx. apply list_elem_of_In, list_elem_of_lookup in Hx as [i Hi].
  destruct (ks !! i) as [k|] eqn:Hk.
  - exact (proj1 (tr_series_not_below None ks i k x Hk Hi)).
  - apply lookup_ge_None in Hk. apply lookup_lt_Some in Hi.
    rewrite tr_series_length in Hi. lia.
Qed.

Lemma atr_nonnegative_witness :
  exists v : num,
    asset_atr (repeat (Candle (Fin 2) (Fin 1) (Fin 1)) 14) = JNum v /\
    ltb v (of_Z 0) = false.
Proof.
  apply (atr_nonnegative (repeat (Candle (Fin 2) (Fin 1) (Fin 1)) 14)).
  unfold arr_length. simpl. lia.
Defined.

Lemma asset_atr_null_below (ks : list candle) :
  arr_length ks < 14 -> asset_atr ks = JNull.
Proof.
  intros H. unfold asset_atr, rma. rewrite true_range_series_eq.
  unfold arr_length at 1. rewrite tr_series_length. fold (arr_length ks).
  destruct (Z.ltb_spec (arr_length ks) 14); [reflexivity|lia].
Qed.

Lemma pick_filter_needs_atr (rankMax atrPctMax : num) (s : summary) :
  atrPct s = None -> pick_filter rankMax atrPctMax s = false.
Proof. intros H. unfold pick_filter. rewrite H. apply andb_false_r. Qed.

(** X7: an asset with fewer than 14 candles has no ATR and no atrPercent,
    and is excluded by the filter of discover-pick whatever the
    thresholds. *)
Theorem short_history_excluded (base : string) (tick_pct tick_vol : option num)
    (ks : list candle) (item : option provenance) (rankMax atrPctMax : num) :
  arr_length ks < 14 ->
  let s := summarize base tick_pct tick_vol ks item in
  asset_atr ks = JNull /\ atrPct s = None /\
  pick_filter rankMax atrPctMax s = false.
Proof.
  intros Hlen. cbv zeta.
  assert (Hatr : asset_atr ks = JNull) by (apply asset_atr_null_below; exact Hlen).
  assert (Hpct : atrPct (summarize base tick_pct tick_vol ks item) = None).
  { simpl atrPct. rewrite Hatr. unfold atr_percent.
    destruct (last_close (map close ks)); reflexivity. }
  split; [exact Hatr|]. split; [exact Hpct|].
  apply pick_filter_needs_atr. exact Hpct.
Qed.

Lemma short_history_excluded_witness :
  pick_filter PInf PInf
    (summarize "BTC" None None (repeat (Candle (Fin 2) (Fin 1) (Fin 1)) 13)
               (Some (Provenance JUndef JUndef (JNum (of_Z 1))))) = false.
Proof.
  apply (short_history_excluded "BTC" None None
           (repeat (Candle (Fin 2) (Fin 1) (Fin 1)) 13)
           (Some (Provenance JUndef JUndef (JNum (of_Z 1)))) PInf PInf).
  unfold arr_length. simpl. lia.
Defined.

(** X8: an asset whose candles all have high, low and close at one finite
    price has no atrPercent, however long its history, and is excluded by
    the filter of discover-pick whatever the thresholds. *)
Theorem flat_candles_excluded (base : string) (tick_pct tick_vol : option num)
    (qs : list (Q * Q * Q)) (q0 : Q) (item : option provenance)
    (rankMax atrPctMax : num) :
  (forall hlc, In hlc qs ->
     fst (fst hlc) == q0 /\ snd (fst hlc) == q0 /\ snd hlc == q0)%Q ->
  let s := summarize base tick_pct tick_vol (map finite_candle qs) item in
  atrPct s = None /\ pick_filter rankMax atrPctMax s = false.
Proof.
  intros Hflat. cbv zeta.
  assert (Hpct : atrPct (summarize base tick_pct tick_vol
                           (map finite_candle qs) item) = None).
  { simpl atrPct. unfold atr_percent.
    destruct (last_close _) as [c|]; [|reflexivity].
    assert (Hfalsy : js_truthy (asset_atr (map finite_candle qs)) = false).
    { unfold asset_atr. rewrite true_range_series_eq.
      destruct (tr_series_finite None qs) as (trq & Htr & Hall & Hzero).
      simpl option_map in Htr. rewrite Htr.
      specialize (Hzero q0 Hflat ltac:(discriminate)).
      unfold rma. rewrite arr_length_map.
      destruct (Z.ltb_spec (arr_length trq) 14) as [?|Hge]; [reflexivity|].
      destruct (rma_upto_bounds 0 0 trq 14 (arr_length trq)) as (v & Hv & Hb);
        try lia.
      - intros x Hx.
        apply list_elem_of_In, subseteq_take, list_elem_of_In in Hx.
        specialize (Hzero x Hx). lra.
      - rewrite Hv. simpl. apply negb_false_iff, Qeq_bool_iff. lra. }
    rewrite Hfalsy. reflexivity. }
  split; [exact Hpct|]. apply pick_filter_needs_atr. exact Hpct.
Qed.

Lemma flat_candles_excluded_witness :
  atrPct (summarize "BTC" None None
            (map finite_candle (repeat (5, 5, 5)%Q 20)) None) = None.
Proof.
  refine (proj1 (flat_candles_excluded "BTC" None None
                   (repeat (5, 5, 5)%Q 20) 5%Q None PInf PInf _)).
  intros hlc Hin. apply repeat_spec in Hin. rewrite Hin. simpl.
  repeat split; reflexivity.
Defined.

(** ** The comparators as orders *)

Lemma cmp_pick_lex (strategy : string) (a b : summary) :
  (puts_first (cmp_pick strategy a b) <-> before_by strategy a b) /\
  (puts_last (cmp_pick strategy a b) <-> before_by strategy b a).
Proof.
  unfold puts_first, puts_last, before_by, before_low_atr, before_high_vol,
    cmp_pick.
  cbv zeta.
  set (ra := ratingScore (s_rating a)). set (rb := ratingScore (s_rating b)).
  destruct (last_key_decides (move_key b) (move_key a)) as [Hm1 Hm2].
  destruct (strategy =? "strong_up_high_vol")%string; split.
  - rewrite key_decides; [|apply key_decides; apply key_decides; exact Hm1].
    rewrite (eq_sym_iff rb ra), (eq_sym_iff (vol_key b) (vol_key a)). tauto.
  - rewrite key_decides_rev;
      [|apply key_decides_rev; apply key_decides_rev; exact Hm2].
    rewrite (eq_sym_iff ra rb), (eq_sym_iff (vol_key a) (vol_key b)). tauto.
  - rewrite key_decides; [|apply key_decides; apply key_decides; exact Hm1].
    rewrite (eq_sym_iff rb ra), (eq_sym_iff (vol_key b) (vol_key a)). tauto.
  - rewrite key_decides_rev;
      [|apply key_decides_rev; apply key_decides_rev; exact Hm2].
    rewrite (eq_sym_iff ra rb), (eq_sym_iff (vol_key a) (vol_key b)). tauto.
Qed.

(** X9: discover-pick lower-cases its strategy parameter (strong_up_low_atr
    when it is missing) before the comparator reads it.  When the
    lower-cased name is strong_up_high_vol the comparator orders two
    summaries by the first key on which they differ among rating score
    (descending), 24h volume (descending), atrPercent (ascending, absent as
    +infinity) and absolute 24h change (descending); any other name, known
    or not, selects the order of strong_up_low_atr, and so does a missing
    parameter. *)
Theorem cmp_pick_by_strategy (param : option string) (a b : summary) :
  let strategy := strategy_of param in
  (strategy = "strong_up_high_vol" ->
   (puts_first (cmp_pick strategy a b) <-> before_high_vol a b) /\
   (puts_last (cmp_pick strategy a b) <-> before_high_vol b a)) /\
  (strategy <> "strong_up_high_vol" ->
   cmp_pick strategy a b = cmp_pick "strong_up_low_atr" a b /\
   (puts_first (cmp_pick strategy a b) <-> before_low_atr a b) /\
   (puts_last (cmp_pick strategy a b) <-> before_low_atr b a)) /\
  (param = None -> strategy = "strong_up_low_atr").
Proof.
  cbv zeta. split; [|split].
  - intros ->. exact (cmp_pick_lex "strong_up_high_vol" a b).
  - intros Hne. apply String.eqb_neq in Hne.
    destruct (cmp_pick_lex (strategy_of param) a b) as [H3 H4].
    unfold before_by in H3, H4. rewrite Hne in H3, H4.
    split; [|split; assumption].
    unfold cmp_pick. rewrite Hne. reflexivity.
  - intros ->. reflexivity.
Qed.

(** The strategy name in capitals selects the high-volume order, and a
    misspelt one the default order. *)
Lemma cmp_pick_by_strategy_witness :
  let a := Summary "AUSDT" None None (Some (Fin 1)) (Some (Fin 2)) None Neutral None in
  let b := Summary "BUSDT" None None (Some (Fin 2)) (Some (Fin 3)) None Neutral None in
  (puts_first (cmp_pick (strategy_of (Some "STRONG_UP_HIGH_VOL")) a b)
   <-> before_high_vol a b) /\
  cmp_pick (strategy_of (Some "strong_up_high_volume")) a b
  = cmp_pick "strong_up_low_atr" a b.
Proof.
  cbv zeta. split.
  - apply (cmp_pick_by_strategy (Some "STRONG_UP_HIGH_VOL")). reflexivity.
  - apply (cmp_pick_by_strategy (Some "strong_up_high_volume")). discriminate.
Defined.

Lemma ltb_asym (x y : num) : ltb x y = true -> ltb y x = false.
Proof.
  destruct x as [a| | |], y as [b| | |]; simpl; try discriminate; try reflexivity.
  rewrite negb_true_iff, negb_false_iff. intros H.
  apply Qle_bool_iff. assert (~ (b <= a)%Q) by (rewrite <- Qle_bool_iff; congruence).
  lra.
Qed.

Lemma not_both_ways (c : num) : puts_first c -> ~ puts_last c.
Proof.
  unfold puts_first, puts_last, lt. intros H1 H2.
  apply ltb_asym in H1. congruence.
Qed.

(** A key and its mirror give mirrored verdicts. *)
Lemma key_mirror (ka kb n1 n2 : num) :
  (lt n1 (of_Z 0) <-> lt (of_Z 0) n2) ->
  lt (if negb (eqb ka kb) then (ka - kb)%num else n1) (of_Z 0)
  <-> lt (of_Z 0) (if negb (eqb kb ka) then (kb - ka)%num else n2).
Proof.
  intros Hn. rewrite (eqb_sym kb ka).
  destruct (eqb ka kb); cbn [negb]; [exact Hn|].
  unfold lt. rewrite sub_neg_ltb, sub_pos_ltb. tauto.
Qed.

Lemma last_mirror (ka kb : num) :
  lt (ka - kb)%num (of_Z 0) <-> lt (of_Z 0) (kb - ka)%num.
Proof. unfold lt. rewrite sub_neg_ltb, sub_pos_ltb. tauto. Qed.

Lemma cmp_top_mirror (a b : summary) :
  puts_first (cmp_top a b) <-> puts_last (cmp_top b a).
Proof.
  unfold puts_first, puts_last, cmp_top. cbv zeta.
  apply key_mirror, key_mirror, last_mirror.
Qed.

Lemma cmp_pick_mirror (strategy : string) (a b : summary) :
  puts_first (cmp_pick strategy a b) <-> puts_last (cmp_pick strategy b a).
Proof.
  unfold puts_first, puts_last, cmp_pick. cbv zeta.
  destruct (strategy =? "strong_up_high_vol")%string;
    apply key_mirror, key_mirror, key_mirror, last_mirror.
Qed.

Lemma cmp_script_mirror (a b : summary) :
  puts_first (cmp_script a b) <-> puts_last (cmp_script b a).
Proof.
  unfold puts_first, puts_last, cmp_script. cbv zeta.
  apply key_mirror, key_mirror, last_mirror.
Qed.

(** X10: the three comparators are consistent, as [sort] expects: a
    summary is put before another exactly when the other is put after it,
    never both ways, and no summary is put before or after itself; this
    holds for every strategy name and whatever the fields hold ([NaN]
    included). *)
Theorem comparators_consistent (strategy : string) (a b : summary) :
  (puts_first (cmp_top a b) <-> puts_last (cmp_top b a)) /\
  (puts_first (cmp_pick strategy a b) <-> puts_last (cmp_pick strategy b a)) /\
  (puts_first (cmp_script a b) <-> puts_last (cmp_script b a)) /\
  ~ (puts_first (cmp_top a b) /\ puts_first (cmp_top b a)) /\
  ~ (puts_first (cmp_pick strategy a b) /\ puts_first (cmp_pick strategy b a)) /\
  ~ (puts_first (cmp_script a b) /\ puts_first (cmp_script b a)) /\
  ~ puts_first (cmp_top a a) /\ ~ puts_last (cmp_top a a) /\
  ~ puts_first (cmp_pick strategy a a) /\ ~ puts_last (cmp_pick strategy a a) /\
  ~ puts_first (cmp_script a a) /\ ~ puts_last (cmp_script a a).
Proof.
  pose proof (cmp_top_mirror a b) as T. pose proof (cmp_top_mirror b a) as T'.
  pose proof (cmp_pick_mirror strategy a b) as P.
  pose proof (cmp_pick_mirror strategy b a) as P'.
  pose proof (cmp_script_mirror a b) as S. pose proof (cmp_script_mirror b a) as S'.
  pose proof (cmp_top_mirror a a) as Ta.
  pose proof (cmp_pick_mirror strategy a a) as Pa.
  pose proof (cmp_script_mirror a a) as Sa.
  pose proof (not_both_ways (cmp_top a b)).
  pose proof (not_both_ways (cmp_pick strategy a b)).
  pose proof (not_both_ways (cmp_script a b)).
  pose proof (not_both_ways (cmp_top a a)).
  pose proof (not_both_ways (cmp_pick strategy a a)).
  pose proof (not_both_ways (cmp_script a a)).
  tauto.
Qed.

(** ** Sorting and truncating *)

Lemma sort_insert_perm {A} (cmp : A -> A -> num) (x : A) (l : list A) :
  sort_insert cmp x l ≡ₚ x :: l.
Proof.
  induction l as [|y l IH]; cbn [sort_insert]; [reflexivity|].
  destruct (gtb (cmp x y) (of_Z 0)); [|reflexivity].
  rewrite IH. apply perm_swap.
Qed.

Lemma js_sort_perm {A} (cmp : A -> A -> num) (l : list A) :
  js_sort cmp l ≡ₚ l.
Proof.
  induction l as [|x l IH]; [reflexivity|].
  change (js_sort cmp (x :: l)) with (sort_insert cmp x (js_sort cmp l)).
  rewrite sort_insert_perm, IH. reflexivity.
Qed.

Lemma slice0_length {A} (l : list A) (count : Z) :
  0 <= count -> length (slice0 l count) = Nat.min (Z.to_nat count) (length l).
Proof.
  intros H. unfold slice0. destruct (Z.ltb_spec count 0); [lia|].
  apply length_take.
Qed.

Lemma slice0_all {A} (l : list A) (count : Z) :
  arr_length l <= count -> slice0 l count = l.
Proof.
  intros H. unfold slice0, arr_length in *.
  destruct (Z.ltb_spec count 0); [lia|]. apply take_ge. lia.
Qed.

Lemma consistent_top (a b : summary) :
  puts_last (cmp_top a b) -> not_after cmp_top b a.
Proof.
  intros H. apply cmp_top_mirror in H. apply not_both_ways. exact H.
Qed.

Lemma consistent_pick (strategy : string) (a b : summary) :
  puts_last (cmp_pick strategy a b) -> not_after (cmp_pick strategy) b a.
Proof.
  intros H. apply cmp_pick_mirror in H. apply not_both_ways. exact H.
Qed.

(** X11: the result of both discovery tools has no padding and no
    stranger: for a count that is not negative its length is the smaller
    of the count and the number of summaries ranked, every entry is one of
    them, and a count that reaches their number returns all of them, in
    some order. *)
Theorem ranked_result_shape (strategy : string) (rankMax atrPctMax : num)
    (resultCount : Z) (summaries : list summary) :
  let filtered :=
    filter (fun s => pick_filter rankMax atrPctMax s = true) summaries in
  let top := discover_top_rank resultCount summaries in
  let picked :=
    discover_pick_rank strategy rankMax atrPctMax resultCount summaries in
  (0 <= resultCount ->
   length top = Nat.min (Z.to_nat resultCount) (length summaries) /\
   length picked = Nat.min (Z.to_nat resultCount) (length filtered)) /\
  (forall s, In s top -> In s summaries) /\
  (forall s, In s picked -> In s filtered) /\
  (arr_length summaries <= resultCount -> top ≡ₚ summaries) /\
  (arr_length filtered <= resultCount -> picked ≡ₚ filtered).
Proof.
  cbv zeta. unfold discover_top_rank, discover_pick_rank.
  split; [|split; [|split; [|split]]].
  - intros H. rewrite !slice0_length by exact H.
    rewrite !(Permutation_length (js_sort_perm _ _)). split; reflexivity.
  - intros s Hs. apply slice0_In, js_sort_In in Hs. exact Hs.
  - intros s Hs. apply slice0_In, js_sort_In in Hs. exact Hs.
  - intros H. rewrite slice0_all; [apply js_sort_perm|].
    unfold arr_length in *. rewrite (Permutation_length (js_sort_perm _ _)).
    exact H.
  - intros H. rewrite slice0_all; [apply js_sort_perm|].
    unfold arr_length in *. rewrite (Permutation_length (js_sort_perm _ _)).
    exact H.
Qed.

(** Two summaries and a count of five. *)
Lemma ranked_result_shape_witness :
  let a := Summary "AUSDT" None None None None None Neutral None in
  let b := Summary "BUSDT" None None None None None StrongUp None in
  length (discover_top_rank 5 [a; b]) = 2%nat /\
  discover_top_rank 5 [a; b] ≡ₚ [a; b].
Proof.
  cbv zeta.
  pose proof (ranked_result_shape "strong_up_low_atr" PInf PInf 5
                [Summary "AUSDT" None None None None None Neutral None;
                 Summary "BUSDT" None None None None None StrongUp None])
    as (H1 & _ & _ & H2 & _).
  cbv zeta in H1, H2. split.
  - apply H1. lia.
  - apply H2. unfold arr_length. simpl. lia.
Defined.

(** *** The comparators are transitive on numeric keys *)

Lemma lt_trans_num (x y z : num) : lt x y -> lt y z -> lt x z.
Proof.
  unfold lt.
  destruct x as [a| | |], y as [b| | |], z as [c| | |]; simpl;
    try discriminate; try reflexivity.
  rewrite !negb_true_iff. intros H1 H2.
  assert (~ (b <= a)%Q) by (rewrite <- Qle_bool_iff; congruence).
  assert (~ (c <= b)%Q) by (rewrite <- Qle_bool_iff; congruence).
  destruct (Qle_bool c a) eqn:E; [|reflexivity].
  apply Qle_bool_iff in E. lra.
Qed.

Lemma eq_lt_num (x y z : num) : Num.eq x y -> lt y z -> lt x z.
Proof.
  unfold lt, Num.eq.
  destruct x as [a| | |], y as [b| | |], z as [c| | |]; simpl;
    try discriminate; try reflexivity.
  rewrite !negb_true_iff. intros H1 H2. apply Qeq_bool_eq in H1.
  assert (~ (c <= b)%Q) by (rewrite <- Qle_bool_iff; congruence).
  destruct (Qle_bool c a) eqn:E; [|reflexivity].
  apply Qle_bool_iff in E. lra.
Qed.

Lemma lt_eq_num (x y z : num) : lt x y -> Num.eq y z -> lt x z.
Proof.
  unfold lt, Num.eq.
  destruct x as [a| | |], y as [b| | |], z as [c| | |]; simpl;
    try discriminate; try reflexivity.
  rewrite !negb_true_iff. intros H1 H2. apply Qeq_bool_eq in H2.
  assert (~ (b <= a)%Q) by (rewrite <- Qle_bool_iff; congruence).
  destruct (Qle_bool c a) eqn:E; [|reflexivity].
  apply Qle_bool_iff in E. lra.
Qed.

Lemma eq_trans_num (x y z : num) : Num.eq x y -> Num.eq y z -> Num.eq x z.
Proof.
  unfold Num.eq.
  destruct x as [a| | |], y as [b| | |], z as [c| | |]; simpl;
    try discriminate; try reflexivity.
  intros H1 H2. apply Qeq_bool_eq in H1, H2. apply Qeq_bool_iff. lra.
Qed.

(** Two numbers, neither of them [NaN], compare one way or are equal. *)
Lemma trichotomy_num (x y : num) :
  x <> NaN -> y <> NaN -> lt x y \/ Num.eq x y \/ lt y x.
Proof.
  unfold lt, Num.eq.
  destruct x as [a| | |], y as [b| | |]; simpl; intros Hx Hy;
    try congruence; auto.
  destruct (Qlt_le_dec a b) as [H|H].
  - left. apply negb_true_iff.
    destruct (Qle_bool b a) eqn:E; [|reflexivity].
    apply Qle_bool_iff in E. lra.
  - destruct (Qlt_le_dec b a) as [H'|H'].
    + right. right. apply negb_true_iff.
      destruct (Qle_bool a b) eqn:E; [|reflexivity].
      apply Qle_bool_iff in E. lra.
    + right. left. apply Qeq_bool_iff. lra.
Qed.

(** One level of a lexicographic order, on a key read in ascending or in
    descending order: when the order below it cannot put [c] before [a]
    without putting [b] before [a] or [c] before [b], neither can this
    level. *)
Lemma lex_level_ascending (ka kb kc : num) (Rca Rba Rcb : Prop) :
  ka <> NaN -> kb <> NaN ->
  (Rca -> Rba \/ Rcb) ->
  lt kc ka \/ (Num.eq kc ka /\ Rca) ->
  (lt kb ka \/ (Num.eq kb ka /\ Rba)) \/ (lt kc kb \/ (Num.eq kc kb /\ Rcb)).
Proof.
  intros Ha Hb Hnext Hca.
  destruct (trichotomy_num kb ka Hb Ha) as [H|[H|H]]; [tauto| |].
  - destruct Hca as [Hlt|[Heq HR]].
    + right. left. apply (lt_eq_num kc ka kb Hlt). apply eq_sym_iff. exact H.
    + assert (Hcb : Num.eq kc kb)
        by (apply (eq_trans_num kc ka kb Heq); apply eq_sym_iff; exact H).
      destruct (Hnext HR); tauto.
  - right. left. destruct Hca as [Hlt|[Heq _]].
    + exact (lt_trans_num kc ka kb Hlt H).
    + exact (eq_lt_num kc ka kb Heq H).
Qed.

Lemma lex_level_descending (ka kb kc : num) (Rca Rba Rcb : Prop) :
  ka <> NaN -> kb <> NaN ->
  (Rca -> Rba \/ Rcb) ->
  lt ka kc \/ (Num.eq kc ka /\ Rca) ->
  (lt ka kb \/ (Num.eq kb ka /\ Rba)) \/ (lt kb kc \/ (Num.eq kc kb /\ Rcb)).
Proof.
  intros Ha Hb Hnext Hca.
  destruct (trichotomy_num kb ka Hb Ha) as [H|[H|H]]; [| |tauto].
  - right. left. destruct Hca as [Hlt|[Heq _]].
    + exact (lt_trans_num kb ka kc H Hlt).
    + apply (lt_eq_num kb ka kc H). apply eq_sym_iff. exact Heq.
  - destruct Hca as [Hlt|[Heq HR]].
    + right. left. exact (eq_lt_num kb ka kc H Hlt).
    + assert (Hcb : Num.eq kc kb)
        by (apply (eq_trans_num kc ka kb Heq); apply eq_sym_iff; exact H).
      destruct (Hnext HR); tauto.
Qed.

Lemma last_level_descending (ka kb kc : num) :
  ka <> NaN -> kb <> NaN ->
  lt ka kc -> lt ka kb \/ lt kb kc.
Proof.
  intros Ha Hb Hca.
  destruct (trichotomy_num kb ka Hb Ha) as [H|[H|H]]; [| |tauto].
  - right. exact (lt_trans_num kb ka kc H Hca).
  - right. exact (eq_lt_num kb ka kc H Hca).
Qed.

Lemma ratingScore_numeric (r : rating) : ratingScore r <> NaN.
Proof. destruct r; discriminate. Qed.

Lemma keys_numeric (s : summary) :
  numeric_keys s -> atr_key s <> NaN /\ vol_key s <> NaN /\ move_key s <> NaN.
Proof.
  unfold numeric_keys, atr_key, vol_key, move_key.
  intros (Hp & Hv & Ha). split; [|split].
  - destruct (atrPct s) as [x|]; [congruence|discriminate].
  - destruct (vol24h s) as [x|]; [congruence|discriminate].
  - destruct (pct24h s) as [[q| | |]|]; try discriminate. congruence.
Qed.

Lemma before_no_volume_gap (a b c : summary) :
  numeric_keys a -> numeric_keys b ->
  before_no_volume c a -> before_no_volume b a \/ before_no_volume c b.
Proof.
  intros Ha Hb. unfold before_no_volume. cbv zeta.
  destruct (keys_numeric a Ha) as (Ha1 & Ha2 & Ha3).
  destruct (keys_numeric b Hb) as (Hb1 & Hb2 & Hb3).
  apply lex_level_descending; try apply ratingScore_numeric.
  apply lex_level_ascending; try assumption.
  apply last_level_descending; assumption.
Qed.
Lemma before_low_atr_gap (a b c : summary) :
  numeric_keys a -> numeric_keys b ->
  before_low_atr c a -> before_low_atr b a \/ before_low_atr c b.
Proof.
  intros Ha Hb. unfold before_low_atr. cbv zeta.
  destruct (keys_numeric a Ha) as (Ha1 & Ha2 & Ha3).
  destruct (keys_numeric b Hb) as (Hb1 & Hb2 & Hb3).
  apply lex_level_descending; try apply ratingScore_numeric.
  apply lex_level_ascending; try assumption.
  apply lex_level_descending; try assumption.
  apply last_level_descending; assumption.
Qed.

Lemma before_high_vol_gap (a b c : summary) :
  numeric_keys a -> numeric_keys b ->
  before_high_vol c a -> before_high_vol b a \/ before_high_vol c b.
Proof.
  intros Ha Hb. unfold before_high_vol. cbv zeta.
  destruct (keys_numeric a Ha) as (Ha1 & Ha2 & Ha3).
  destruct (keys_numeric b Hb) as (Hb1 & Hb2 & Hb3).
  apply lex_level_descending; try apply ratingScore_numeric.
  apply lex_level_descending; try assumption.
  apply lex_level_ascending; try assumption.
  apply last_level_descending; assumption.
Qed.

Lemma cmp_top_last (a b : summary) :
  puts_last (cmp_top a b) <-> before_no_volume b a.
Proof.
  unfold puts_last, before_no_volume, cmp_top. cbv zeta.
  destruct (last_key_decides (move_key b) (move_key a)) as [_ Hm].
  rewrite key_decides_rev; [|apply key_decides_rev; exact Hm].
  rewrite (eq_sym_iff (ratingScore (s_rating a)) (ratingScore (s_rating b))).
  tauto.
Qed.

(** On summaries with numeric keys, "not after" is transitive. *)
Lemma not_after_top_trans (a b c : summary) :
  numeric_keys a -> numeric_keys b -> numeric_keys c ->
  not_after cmp_top a b -> not_after cmp_top b c -> not_after cmp_top a c.
Proof.
  unfold not_after. rewrite !cmp_top_last. intros Ha Hb _ Hab Hbc Hca.
  destruct (before_no_volume_gap a b c Ha Hb Hca); contradiction.
Qed.

Lemma not_after_pick_trans (strategy : string) (a b c : summary) :
  numeric_keys a -> numeric_keys b -> numeric_keys c ->
  not_after (cmp_pick strategy) a b -> not_after (cmp_pick strategy) b c ->
  not_after (cmp_pick strategy) a c.
Proof.
  unfold not_after. intros Ha Hb _.
  rewrite (proj2 (cmp_pick_lex strategy a b)),
    (proj2 (cmp_pick_lex strategy b c)), (proj2 (cmp_pick_lex strategy a c)).
  unfold before_by.
  destruct (strategy =? "strong_up_high_vol")%string; intros Hab Hbc Hca.
  - destruct (before_high_vol_gap a b c Ha Hb Hca); contradiction.
  - destruct (before_low_atr_gap a b c Ha Hb Hca); contradiction.
Qed.

(** *** Sorting with a transitive comparator *)

Lemma sort_insert_strongly {A} (cmp : A -> A -> num) (D : A -> Prop)
    (x : A) (l : list A) :
  (forall a b, puts_last (cmp a b) -> not_after cmp b a) ->
  (forall a b c, D a -> D b -> D c ->
                 not_after cmp a b -> not_after cmp b c -> not_after cmp a c) ->
  D x -> Forall D l ->
  StronglySorted (not_after cmp) l ->
  StronglySorted (not_after cmp) (sort_insert cmp x l).
Proof.
  intros Hcons Htrans Hx. induction l as [|y l IH]; intros HD Hs;
    cbn [sort_insert].
  - repeat constructor.
  - apply Forall_cons in HD as [Hy HD].
    apply StronglySorted_inv in Hs as [Hs Hall].
    destruct (gtb (cmp x y) (of_Z 0)) eqn:E.
    + constructor; [apply IH; assumption|].
      apply Forall_forall. intros z Hz.
      apply list_elem_of_In, sort_insert_In in Hz as [->|Hz].
      * apply Hcons. exact E.
      * rewrite Forall_forall in Hall. apply Hall, list_elem_of_In, Hz.
    + assert (Hxy : not_after cmp x y).
      { unfold not_after, puts_last, lt. unfold gtb in E. congruence. }
      constructor; [constructor; assumption|].
      constructor; [exact Hxy|].
      rewrite Forall_forall in Hall, HD. apply Forall_forall. intros z Hz.
      apply (Htrans x y z); auto.
Qed.

Lemma js_sort_strongly {A} (cmp : A -> A -> num) (D : A -> Prop) (l : list A) :
  (forall a b, puts_last (cmp a b) -> not_after cmp b a) ->
  (forall a b c, D a -> D b -> D c ->
                 not_after cmp a b -> not_after cmp b c -> not_after cmp a c) ->
  Forall D l ->
  StronglySorted (not_after cmp) (js_sort cmp l).
Proof.
  intros Hcons Htrans. induction l as [|x l IH]; intros HD; [constructor|].
  apply Forall_cons in HD as [Hx HD].
  change (js_sort cmp (x :: l)) with (sort_insert cmp x (js_sort cmp l)).
  apply (sort_insert_strongly cmp D); auto.
  apply Forall_forall. intros z Hz.
  apply list_elem_of_In, js_sort_In, list_elem_of_In in Hz.
  rewrite Forall_forall in HD. auto.
Qed.

Lemma StronglySorted_take {A} (R : A -> A -> Prop) (n : nat) (l : list A) :
  StronglySorted R l -> StronglySorted R (take n l).
Proof.
  revert l. induction n as [|n IH]; intros l Hs; [constructor|].
  destruct l as [|x l]; [constructor|]. simpl.
  apply StronglySorted_inv in Hs as [Hs Hall].
  constructor; [apply IH; exact Hs|]. apply Forall_take. exact Hall.
Qed.

Lemma slice0_strongly {A} (R : A -> A -> Prop) (l : list A) (count : Z) :
  StronglySorted R l -> StronglySorted R (slice0 l count).
Proof.
  intros Hs. unfold slice0.
  destruct (count <? 0); apply StronglySorted_take, Hs.
Qed.

(** X12: when no sort key of a summary is [NaN] (24h change, 24h volume
    and atrPercent), the result of both discovery tools is in the order of
    the tool's comparator: no entry comes anywhere after an entry that the
    comparator puts behind it, whatever the strategy.  (With a [NaN] key
    the comparator is not transitive and the order the engine's sort
    leaves is not specified.) *)
Theorem ranked_result_ordered (strategy : string) (rankMax atrPctMax : num)
    (resultCount : Z) (summaries : list summary) :
  Forall numeric_keys summaries ->
  StronglySorted (not_after cmp_top) (discover_top_rank resultCount summaries) /\
  StronglySorted (not_after (cmp_pick strategy))
    (discover_pick_rank strategy rankMax atrPctMax resultCount summaries).
Proof.
  intros Hnum. unfold discover_top_rank, discover_pick_rank. split.
  - apply slice0_strongly, (js_sort_strongly cmp_top numeric_keys).
    + apply consistent_top.
    + apply not_after_top_trans.
    + exact Hnum.
  - apply slice0_strongly, (js_sort_strongly (cmp_pick strategy) numeric_keys).
    + apply consistent_pick.
    + apply not_after_pick_trans.
    + rewrite Forall_forall in Hnum. apply Forall_forall. intros s Hs.
      apply list_elem_of_filter in Hs as [_ Hs]. auto.
Qed.

(** Three summaries, ranked by rating and then by atrPercent. *)
Lemma ranked_result_ordered_witness :
  let a := Summary "AUSDT" None (Some (Fin 1)) (Some (Fin 5)) (Some (Fin 2))
             None Neutral None in
  let b := Summary "BUSDT" None (Some (Fin 3)) (Some (Fin 4)) (Some (Fin 1))
             None StrongUp None in
  let c := Summary "CUSDT" None None None None None Neutral None in
  StronglySorted (not_after cmp_top) (discover_top_rank 5 [a; b; c]) /\
  discover_top_rank 5 [a; b; c] = [b; a; c].
Proof.
  cbv zeta. split.
  - apply (ranked_result_ordered "strong_up_low_atr" PInf PInf 5
             [Summary "AUSDT" None (Some (Fin 1)) (Some (Fin 5)) (Some (Fin 2))
                None Neutral None;
              Summary "BUSDT" None (Some (Fin 3)) (Some (Fin 4)) (Some (Fin 1))
                None StrongUp None;
              Summary "CUSDT" None None None None None Neutral None]).
    repeat constructor; discriminate.
  - vm_compute. reflexivity.
Defined.
(** ** More on one call against the cache *)

(** The outcomes of a call that had to fetch, one reply shape at a time. *)
Ltac fetch_failed :=
  split; [split; [discriminate|tauto]|];
  split; [reflexivity|];
  split; [tauto|];
  split; [reflexivity|];
  split; [intros _; right; split; [assumption|left; reflexivity]|reflexivity].

Ltac fetch_outcomes status :=
  first
    [ fetch_failed
    | rewrite orb_true_r; fetch_failed
    | destruct (status_ok status) eqn:?; simpl;
      [ split; [split; [discriminate|tauto]|];
        split; [reflexivity|];
        split; [split; [discriminate|intros [_ ?]; discriminate]|];
        split; [discriminate|];
        split;
        [ intros ->; right; split; [assumption|];
          right; exists status; split; [assumption|reflexivity]
        | intros [?|[_ [?|(? & _ & [= _ ->])]]];
          [contradiction|discriminate|reflexivity] ]
      | fetch_failed ] ].

(** X13: a call issues no request exactly when the cache holds an entry
    for its key that is younger than the TTL, and one request, for its own
    URL, otherwise; it logs an error exactly when it had to fetch and the
    fetch failed, and then it returns [null].  It also returns [null],
    without any log, when the payload served from the cache or parsed from
    a successful reply is itself [null]: these are all the ways to
    [null]. *)
Theorem call_outcomes (ttl : Z) (cache : gmap string cache_entry)
    (endpoint : string) (params : object pval)
    (now : Z) (resp : response) (now' : Z) :
  let r := makeApiRequest ttl cache endpoint params now resp now' in
  let fresh :=
    exists e, cache !! buildCacheKey endpoint params = Some e /\
              now - ts e < ttl in
  (requests r = [] <-> fresh) /\
  (~ fresh -> requests r = [build_url endpoint params]) /\
  (logged_error r = true <-> ~ fresh /\ failed resp = true) /\
  (logged_error r = true -> js_returned r = JsNull) /\
  (js_returned r = JsNull <->
   (exists e, cache !! buildCacheKey endpoint params = Some e /\
              now - ts e < ttl /\ data e = JsNull) \/
   (~ fresh /\
    (failed resp = true \/
     exists status, status_ok status = true /\
                    resp = Http status (Some JsNull)))).
Proof.
  cbv zeta. unfold js_returned, makeApiRequest.
  destruct (cache !! buildCacheKey endpoint params) as [e|] eqn:He.
  - destruct (Z.ltb_spec (now - ts e) ttl) as [Hlt|Hge].
    + assert (Hfresh : exists e0, Some e = Some e0 /\ now - ts e0 < ttl)
        by (exists e; auto).
      simpl. split; [tauto|]. split; [tauto|].
      split; [split; [discriminate|tauto]|]. split; [discriminate|].
      split.
      * intros Hd. left. exists e. auto.
      * intros [(e0 & [= <-] & _ & Hd)|[Hn _]]; [exact Hd|tauto].
    + assert (Hstale : ~ exists e0, Some e = Some e0 /\ now - ts e0 < ttl)
        by (intros (e0 & [= <-] & H); lia).
      assert (Hnull : ~ exists e0, Some e = Some e0 /\ now - ts e0 < ttl /\
                                   data e0 = JsNull)
        by (intros (e0 & [= <-] & H & _); lia).
      destruct resp as [|status [body|]]; simpl; fetch_outcomes status.
  - assert (Hstale : ~ exists e0, @None cache_entry = Some e0 /\ now - ts e0 < ttl)
      by (intros (e0 & H & _); discriminate).
    assert (Hnull : ~ exists e0, @None cache_entry = Some e0 /\ now - ts e0 < ttl /\
                                 data e0 = JsNull)
      by (intros (e0 & H & _); discriminate).
    destruct resp as [|status [body|]]; simpl; fetch_outcomes status.
Qed.

Lemma call_frame (ttl : Z) (cache : gmap string cache_entry)
    (endpoint : string) (params : object pval)
    (now : Z) (resp : response) (now' : Z) (k : string) :
  k <> buildCacheKey endpoint params ->
  cache_after (makeApiRequest ttl cache endpoint params now resp now') !! k
  = cache !! k.
Proof.
  intros Hne. unfold makeApiRequest.
  destruct (match cache !! _ with Some _ => _ | None => _ end); [reflexivity|].
  destruct resp as [|status [body|]]; try reflexivity.
  destruct (status_ok status); [|reflexivity].
  simpl. apply lookup_insert_ne. congruence.
Qed.

Lemma call_keeps_keys (ttl : Z) (cache : gmap string cache_entry)
    (endpoint : string) (params : object pval)
    (now : Z) (resp : response) (now' : Z) (k : string) :
  is_Some (cache !! k) ->
  is_Some (cache_after (makeApiRequest ttl cache endpoint params now resp now')
             !! k).
Proof.
  intros Hk. destruct (decide (k = buildCacheKey endpoint params)) as [->|Hne].
  - unfold makeApiRequest.
    destruct (match cache !! _ with Some _ => _ | None => _ end); [exact Hk|].
    destruct resp as [|status [body|]]; try exact Hk.
    destruct (status_ok status); [|exact Hk].
    simpl. rewrite lookup_insert_eq. eauto.
  - rewrite call_frame by exact Hne. exact Hk.
Qed.

(** X14: the cache has no eviction and a call touches no key but its own:
    every other key keeps its entry unchanged, and a key that holds an
    entry holds one after any call and after any history of calls. *)
Theorem cache_never_evicts (ttl : Z) (cache : gmap string cache_entry)
    (endpoint : string) (params : object pval)
    (now : Z) (resp : response) (now' : Z) :
  let r := makeApiRequest ttl cache endpoint params now resp now' in
  (forall k, k <> buildCacheKey endpoint params ->
             cache_after r !! k = cache !! k) /\
  (forall k, is_Some (cache !! k) -> is_Some (cache_after r !! k)) /\
  (forall (cs : list call) k,
     is_Some (cache !! k) -> is_Some (run_calls ttl cs cache !! k)).
Proof.
  cbv zeta. split; [|split].
  - intros k Hne. apply call_frame. exact Hne.
  - intros k Hk. apply call_keeps_keys. exact Hk.
  - intros cs. revert cache. induction cs as [|c cs IH]; intros c0 k Hk.
    + exact Hk.
    + simpl. apply IH. unfold run_call. apply call_keeps_keys. exact Hk.
Qed.

(** X15: an entry that has reached the TTL is never served: when the
    fetch fails the call returns the absent value and the old entry stays
    in the cache; when it succeeds the entry is replaced by the new body
    stamped with the time of the store, and a later call within the TTL of
    that time is served the new body without a request. *)
Theorem expired_entry_not_served (ttl : Z) (cache : gmap string cache_entry)
    (endpoint : string) (params : object pval) (e : cache_entry)
    (now : Z) (resp : response) (now' : Z) :
  cache !! buildCacheKey endpoint params = Some e ->
  ttl <= now - ts e ->
  let r := makeApiRequest ttl cache endpoint params now resp now' in
  (failed resp = true ->
   returned r = None /\
   cache_after r !! buildCacheKey endpoint params = Some e) /\
  (forall status body,
     resp = Http status (Some body) -> status_ok status = true ->
     returned r = Some body /\
     cache_after r !! buildCacheKey endpoint params
     = Some (CacheEntry now' body) /\
     forall later resp2 later',
       later - now' < ttl ->
       makeApiRequest ttl (cache_after r) endpoint params later resp2 later'
       = ApiResult (Some body) (cache_after r) [] false).
Proof.
  intros He Hold. cbv zeta.
  pose proof (call_expired ttl cache endpoint params now resp now' e He Hold)
    as Hreq.
  split.
  - intros Hfail.
    destruct (call_failed ttl cache endpoint params now resp now' Hfail)
      as [Hcache Hret].
    rewrite Hcache. split; [|exact He].
    apply Hret. rewrite Hreq. discriminate.
  - intros status body Hresp Hok.
    destruct (call_store ttl cache endpoint params now resp now' status body
                Hresp Hok) as [Hret Hcache]; [rewrite Hreq; discriminate|].
    split; [exact Hret|].
    assert (Hentry : cache_after
                       (makeApiRequest ttl cache endpoint params now resp now')
                       !! buildCacheKey endpoint params
                     = Some (CacheEntry now' body))
      by (rewrite Hcache; apply lookup_insert_eq).
    split; [exact Hentry|].
    intros later resp2 later' Hlater.
    apply (call_hit ttl _ endpoint params later resp2 later' _ Hentry Hlater).
Qed.

(** An entry stored at time 0, read at 20 s while the network is down. *)
Lemma expired_entry_not_served_witness :
  let key := buildCacheKey "/cryptocurrency/map" [("limit", PStr "100")] in
  let cache : gmap string cache_entry := {[ key := CacheEntry 0 JsNull ]} in
  let r := makeApiRequest 15000 cache "/cryptocurrency/map"
             [("limit", PStr "100")] 20000 NetworkError 20001 in
  returned r = None /\ cache_after r !! key = Some (CacheEntry 0 JsNull).
Proof.
  cbv zeta.
  refine (proj1 (expired_entry_not_served 15000
                   {[ buildCacheKey "/cryptocurrency/map" [("limit", PStr "100")]
                      := CacheEntry 0 JsNull ]}
                   "/cryptocurrency/map" [("limit", PStr "100")]
                   (CacheEntry 0 JsNull) 20000 NetworkError 20001 _ _) _).
  - apply lookup_singleton_eq.
  - simpl. lia.
  - reflexivity.
Defined.

(** ** Objects and the spread of defaults *)

Lemma obj_get_set {V} (o : object V) (k k' : string) (v : V) :
  obj_get (obj_set o k v) k' = if String.eqb k k' then Some v else obj_get o k'.
Proof.
  induction o as [|[k0 w] o IH]; simpl.
  - reflexivity.
  - destruct (String.eqb_spec k0 k) as [->|Hne]; simpl.
    + destruct (String.eqb k k'); reflexivity.
    + rewrite IH. destruct (String.eqb_spec k0 k') as [->|_]; [|reflexivity].
      destruct (String.eqb_spec k k') as [->|_]; [contradiction|reflexivity].
Qed.

Lemma obj_get_None {V} (o : object V) (k : string) :
  ~ In k (obj_keys o) -> obj_get o k = None.
Proof.
  induction o as [|[k0 w] o IH]; simpl; [reflexivity|]. intros Hnot.
  destruct (String.eqb_spec k0 k) as [->|_]; [tauto|]. apply IH. tauto.
Qed.

Lemma obj_keys_set {V} (o : object V) (k : string) (v : V) :
  obj_keys (obj_set o k v)
  = if decide (k ∈ obj_keys o) then obj_keys o else obj_keys o ++ [k].
Proof.
  induction o as [|[k0 w] o IH]; simpl.
  - destruct (decide (k ∈ [])) as [H|_]; [inversion H|reflexivity].
  - destruct (String.eqb_spec k0 k) as [->|Hne]; simpl.
    + destruct (decide (k ∈ k :: obj_keys o)) as [_|H]; [reflexivity|].
      contradiction H. left.
    + rewrite IH.
      destruct (decide (k ∈ obj_keys o)) as [Hin|Hnot],
               (decide (k ∈ k0 :: obj_keys o)) as [Hin'|Hnot'];
        try reflexivity.
      * contradiction Hnot'. right. exact Hin.
      * apply elem_of_cons in Hin' as [->|Hin']; contradiction.
Qed.

Lemma obj_set_NoDup {V} (o : object V) (k : string) (v : V) :
  NoDup (obj_keys o) -> NoDup (obj_keys (obj_set o k v)).
Proof.
  intros Hnd. rewrite obj_keys_set.
  destruct (decide (k ∈ obj_keys o)) as [|Hnot]; [exact Hnd|].
  apply NoDup_app. split; [exact Hnd|]. split.
  - intros x Hx Hk. apply list_elem_of_singleton in Hk as ->. contradiction.
  - apply NoDup_singleton.
Qed.

Lemma spread_NoDup {V} (defaults params : object V) :
  NoDup (obj_keys defaults) -> NoDup (obj_keys (spread defaults params)).
Proof.
  unfold spread. revert defaults.
  induction params as [|[k v] params IH]; intros d Hd; simpl; [exact Hd|].
  apply IH, obj_set_NoDup, Hd.
Qed.

Lemma spread_get {V} (defaults params : object V) (k : string) :
  NoDup (obj_keys params) ->
  obj_get (spread defaults params) k
  = match obj_get params k with
    | Some v => Some v
    | None => obj_get defaults k
    end.
Proof.
  unfold spread. revert defaults.
  induction params as [|[k0 v0] params IH]; intros d Hnd; simpl; [reflexivity|].
  simpl in Hnd. apply NoDup_cons in Hnd as [Hnot Hnd].
  rewrite IH by exact Hnd. rewrite obj_get_set.
  destruct (String.eqb_spec k0 k) as [->|_]; [|reflexivity].
  rewrite obj_get_None; [reflexivity|].
  intros Hin. apply Hnot, list_elem_of_In. exact Hin.
Qed.

Lemma obj_get_In {V} (o : object V) (k : string) (v : V) :
  NoDup (obj_keys o) -> (In (k, v) o <-> obj_get o k = Some v).
Proof.
  induction o as [|[k0 w] o IH]; simpl; intros Hnd.
  - split; [tauto|discriminate].
  - apply NoDup_cons in Hnd as [Hnot Hnd].
    destruct (String.eqb_spec k0 k) as [->|Hne].
    + split.
      * intros [[= ->]|Hin]; [reflexivity|].
        exfalso. apply Hnot, list_elem_of_In.
        unfold obj_keys. apply in_map_iff. exists (k, v). auto.
      * intros [= ->]. left. reflexivity.
    + rewrite <- (IH Hnd). split; [|tauto].
      intros [[= ? ?]|Hin]; [contradiction|exact Hin].
Qed.

Lemma NoDup_object {V} (o : object V) : NoDup (obj_keys o) -> NoDup o.
Proof. unfold obj_keys. apply NoDup_fmap_1. Qed.

(** Two objects with the same properties are the same up to the order of
    their properties. *)
Lemma same_properties_perm {V} (o1 o2 : object V) :
  NoDup (obj_keys o1) -> NoDup (obj_keys o2) ->
  (forall k, obj_get o1 k = obj_get o2 k) -> o1 ≡ₚ o2.
Proof.
  intros H1 H2 Hget. apply NoDup_Permutation; try (apply NoDup_object; assumption).
  intros [k v]. rewrite !list_elem_of_In, !obj_get_In by assumption.
  rewrite Hget. tauto.
Qed.

Lemma spread_perm {V} (defaults p1 p2 : object V) :
  NoDup (obj_keys defaults) -> NoDup (obj_keys p1) -> p1 ≡ₚ p2 ->
  spread defaults p1 ≡ₚ spread defaults p2.
Proof.
  intros Hd H1 Hperm.
  assert (H2 : NoDup (obj_keys p2)) by (unfold obj_keys; rewrite <- Hperm; exact H1).
  apply same_properties_perm; try (apply spread_NoDup; exact Hd).
  intros k. rewrite !spread_get by assumption.
  rewrite (obj_get_perm p1 p2 Hperm H1 k). reflexivity.
Qed.

Lemma obj_set_same {V} (o : object V) (k : string) (v : V) :
  obj_get o k = Some v -> obj_set o k v = o.
Proof.
  induction o as [|[k0 w] o IH]; simpl; [discriminate|].
  destruct (String.eqb_spec k0 k) as [->|_].
  - intros [= ->]. reflexivity.
  - intros H. rewrite IH by exact H. reflexivity.
Qed.

(** X16: in the parameters a tool sends, [{ ...defaults, ...params }], an
    argument given by the caller replaces the default of the same name and
    every other default stays; the result has no duplicate name; and
    arguments that repeat the defaults change nothing. *)
Theorem spread_overrides_defaults (defaults params : object pval) :
  NoDup (obj_keys defaults) -> NoDup (obj_keys params) ->
  (forall k, obj_get (spread defaults params) k
             = match obj_get params k with
               | Some v => Some v
               | None => obj_get defaults k
               end) /\
  NoDup (obj_keys (spread defaults params)) /\
  ((forall k v, In (k, v) params -> obj_get defaults k = Some v) ->
   spread defaults params = defaults).
Proof.
  intros Hd Hp. split; [|split].
  - intros k. apply spread_get. exact Hp.
  - apply spread_NoDup. exact Hd.
  - clear Hd Hp. unfold spread. revert defaults.
    induction params as [|[k v] params IH]; intros d Hsame; simpl; [reflexivity|].
    rewrite obj_set_same by (apply Hsame; left; reflexivity).
    apply IH. intros k' v' Hin. apply Hsame. right. exact Hin.
Qed.

(** The listings tool called with a limit of 5. *)
Lemma spread_overrides_defaults_witness :
  obj_get (spread [("start", PStr "1"); ("limit", PStr "100");
                   ("convert", PStr "USD")] [("limit", PStr "5")]) "limit"
  = Some (PStr "5").
Proof.
  refine (proj1 (spread_overrides_defaults
                   [("start", PStr "1"); ("limit", PStr "100");
                    ("convert", PStr "USD")] [("limit", PStr "5")] _ _) "limit").
  - vm_compute. compute_done.
  - vm_compute. compute_done.
Defined.

(** ** The lookup tools and the cache *)

Lemma run_tool_hit (endpoint failure : string) (ttl : Z)
    (cache : gmap string cache_entry) (params : object pval)
    (now : Z) (resp : response) (now' : Z) (e : cache_entry) :
  cache !! buildCacheKey endpoint params = Some e -> now - ts e < ttl ->
  run_tool endpoint failure ttl cache params now resp now'
  = ToolRun (if json_truthy (data e) then TextJson (data e)
             else TextMessage failure) cache [].
Proof.
  intros He Hfresh. unfold run_tool.
  rewrite (call_hit ttl cache endpoint params now resp now' e He Hfresh).
  reflexivity.
Qed.

Lemma call_requests (ttl : Z) (cache : gmap string cache_entry)
    (endpoint : string) (params : object pval)
    (now : Z) (resp : response) (now' : Z) :
  requests (makeApiRequest ttl cache endpoint params now resp now') = [] \/
  requests (makeApiRequest ttl cache endpoint params now resp now')
  = [build_url endpoint params].
Proof.
  unfold makeApiRequest.
  destruct (match cache !! _ with Some _ => _ | None => _ end); [left; reflexivity|].
  right. destruct resp as [|status [body|]]; try reflexivity.
  destruct (status_ok status); reflexivity.
Qed.

Lemma run_tool_store (endpoint failure : string) (ttl : Z)
    (cache : gmap string cache_entry) (params : object pval)
    (now : Z) (status : Z) (body : json) (now' : Z) :
  status_ok status = true ->
  t_requests (run_tool endpoint failure ttl cache params now
                       (Http status (Some body)) now') <> [] ->
  run_tool endpoint failure ttl cache params now (Http status (Some body)) now'
  = ToolRun (if json_truthy body then TextJson body else TextMessage failure)
            (<[buildCacheKey endpoint params := CacheEntry now' body]> cache)
            [build_url endpoint params].
Proof.
  intros Hok Hreq. unfold run_tool in *. simpl in Hreq.
  destruct (call_store ttl cache endpoint params now _ now' status body
              eq_refl Hok Hreq) as [Hret Hcache].
  rewrite Hret, Hcache. f_equal.
  destruct (call_requests ttl cache endpoint params now
              (Http status (Some body)) now') as [H|H]; [contradiction|exact H].
Qed.

(** X17: a lookup tool called again with the same arguments in another
    order, within the TTL of a call that fetched with success, issues no
    request, leaves the cache as it is and answers with the same text. *)
Theorem tool_arguments_order_free (endpoint failure : string)
    (defaults : object pval) (ttl : Z) (cache : gmap string cache_entry)
    (p1 p2 : object pval) (t0 status : Z) (body : json) (t : Z)
    (t' : Z) (resp2 : response) (t2 : Z) :
  NoDup (obj_keys defaults) -> NoDup (obj_keys p1) -> p1 ≡ₚ p2 ->
  status_ok status = true ->
  let first :=
    run_tool endpoint failure ttl cache (spread defaults p1) t0
             (Http status (Some body)) t in
  let second :=
    run_tool endpoint failure ttl (t_cache first) (spread defaults p2) t'
             resp2 t2 in
  t_requests first <> [] -> t' - t < ttl ->
  t_requests second = [] /\ t_text second = t_text first /\
  t_cache second = t_cache first.
Proof.
  intros Hd H1 Hperm Hok. cbv zeta. intros Hreq Hfresh.
  rewrite (run_tool_store endpoint failure ttl cache (spread defaults p1)
             t0 status body t Hok Hreq).
  cbn [t_cache t_text t_requests].
  assert (Hkey : buildCacheKey endpoint (spread defaults p2)
                 = buildCacheKey endpoint (spread defaults p1)).
  { symmetry. apply buildCacheKey_perm; [apply spread_NoDup; exact Hd|].
    apply spread_perm; assumption. }
  rewrite (run_tool_hit endpoint failure ttl _ (spread defaults p2) t' resp2 t2
             (CacheEntry t body)).
  - cbn [t_cache t_text t_requests data]. split; [reflexivity|].
    split; reflexivity.
  - rewrite Hkey. apply lookup_insert_eq.
  - exact Hfresh.
Qed.

(** The listings tool asked for five coins in euros, then for euros, five
    coins, 3 s later. *)
Lemma tool_arguments_order_free_witness :
  let first :=
    get_cryptocurrency_listings 15000 ∅
      [("limit", PStr "5"); ("convert", PStr "EUR")]
      1000 (Http 200 (Some (JsObject [("data", JsArray [])]))) 1100 in
  let second :=
    get_cryptocurrency_listings 15000 (t_cache first)
      [("convert", PStr "EUR"); ("limit", PStr "5")]
      4100 NetworkError 4200 in
  t_requests second = [] /\ t_text second = t_text first /\
  t_cache second = t_cache first.
Proof.
  cbv zeta.
  apply (tool_arguments_order_free "/cryptocurrency/listings/latest"
           "Failed to retrieve cryptocurrency listings"
           [("start", PStr "1"); ("limit", PStr "100"); ("convert", PStr "USD")]
           15000 ∅ [("limit", PStr "5"); ("convert", PStr "EUR")]
           [("convert", PStr "EUR"); ("limit", PStr "5")]
           1000 200 (JsObject [("data", JsArray [])]) 1100 4100 NetworkError 4200).
  - vm_compute. compute_done.
  - vm_compute. compute_done.
  - apply perm_swap.
  - reflexivity.
  - discriminate.
  - lia.
Defined.

Lemma param_missing_empty (params : object pval) (name : string) :
  obj_get params name = None \/ obj_get params name = Some (PStr EmptyString) ->
  param_missing params name = true.
Proof. unfold param_missing. intros [->| ->]; reflexivity. Qed.

(** X18: the quotes and the info tools, called with none of symbol, slug
    and id (each missing or an empty string), answer with the error
    message without any request and without touching the cache, whatever
    the cache holds; called with a symbol that is a non-empty string, the
    info tool goes to the request with the arguments as given, and the
    quotes tool with the default currency added. *)
Theorem identifier_required (ttl : Z) (cache : gmap string cache_entry)
    (params : object pval) (now : Z) (resp : response) (now' : Z) :
  ((forall name, In name ["symbol"; "slug"; "id"] ->
      obj_get params name = None \/
      obj_get params name = Some (PStr EmptyString)) ->
   get_cryptocurrency_quotes ttl cache params now resp now'
   = ToolRun (TextMessage id_required) cache [] /\
   get_cryptocurrency_info ttl cache params now resp now'
   = ToolRun (TextMessage id_required) cache []) /\
  (forall s, obj_get params "symbol" = Some (PStr s) -> s <> EmptyString ->
   get_cryptocurrency_info ttl cache params now resp now'
   = run_tool "/cryptocurrency/info" "Failed to retrieve cryptocurrency info"
       ttl cache params now resp now' /\
   get_cryptocurrency_quotes ttl cache params now resp now'
   = run_tool "/cryptocurrency/quotes/latest"
       "Failed to retrieve cryptocurrency quotes" ttl cache
       (spread [("convert", PStr "USD")] params) now resp now').
Proof.
  split.
  - intros Hnone.
    assert (Hno : no_identifier params = true).
    { unfold no_identifier.
      rewrite !param_missing_empty by (apply Hnone; simpl; tauto). reflexivity. }
    unfold get_cryptocurrency_quotes, get_cryptocurrency_info. rewrite Hno.
    split; reflexivity.
  - intros s Hs Hne.
    assert (Hno : no_identifier params = false).
    { unfold no_identifier, param_missing. rewrite Hs. simpl.
      apply String.eqb_neq in Hne. rewrite Hne. reflexivity. }
    unfold get_cryptocurrency_quotes, get_cryptocurrency_info. rewrite Hno.
    split; reflexivity.
Qed.

(** A call with an empty symbol and nothing else. *)
Lemma identifier_required_witness :
  get_cryptocurrency_quotes 15000 ∅ [("symbol", PStr EmptyString)] 0
                            NetworkError 0
  = ToolRun (TextMessage id_required) ∅ [].
Proof.
  refine (proj1 (proj1 (identifier_required 15000 ∅
                          [("symbol", PStr EmptyString)] 0 NetworkError 0) _)).
  intros name [<-|[<-|[<-|[]]]]; vm_compute; tauto.
Defined.

(** X19: a response with a success status whose body is a falsy value
    ([null], [false], [0], the empty string) is answered with the tool's
    failure message, yet it is stored: until the entry expires the tool
    repeats the failure message from the cache, without a request. *)
Theorem falsy_payload_reported_as_failure (endpoint failure : string)
    (ttl : Z) (cache : gmap string cache_entry) (params : object pval)
    (now status : Z) (body : json) (now' : Z) :
  status_ok status = true -> json_truthy body = false ->
  let run := run_tool endpoint failure ttl cache params now
                      (Http status (Some body)) now' in
  t_requests run <> [] ->
  t_text run = TextMessage failure /\
  t_cache run !! buildCacheKey endpoint params = Some (CacheEntry now' body) /\
  forall later resp2 later',
    later - now' < ttl ->
    run_tool endpoint failure ttl (t_cache run) params later resp2 later'
    = ToolRun (TextMessage failure) (t_cache run) [].
Proof.
  intros Hok Hfalsy run Hreq. unfold run in *.
  rewrite run_tool_store in * by assumption. simpl. rewrite Hfalsy.
  split; [reflexivity|]. split; [apply lookup_insert_eq|].
  intros later resp2 later' Hlater.
  rewrite (run_tool_hit endpoint failure ttl _ params later resp2 later'
             (CacheEntry now' body));
    [simpl; rewrite Hfalsy; reflexivity|apply lookup_insert_eq|exact Hlater].
Qed.

(** The global-metrics tool answered by the body [null]. *)
Lemma falsy_payload_reported_as_failure_witness :
  t_text (get_global_metrics 15000 ∅ [] 0 (Http 200 (Some JsNull)) 1)
  = TextMessage "Failed to retrieve global metrics".
Proof.
  refine (proj1 (falsy_payload_reported_as_failure
                   "/global-metrics/quotes/latest"
                   "Failed to retrieve global metrics" 15000 ∅
                   (spread [("convert", PStr "USD")] []) 0 200 JsNull 1 _ _ _)).
  - reflexivity.
  - reflexivity.
  - discriminate.
Defined.

(** ** The per-asset loop *)

Lemma discover_loop_from (interval : string) (limit : pval)
    (items : list (listing_item * asset_replies))
    (acc : list summary * list binance_request) :
  fold_left
    (fun acc iw =>
       let v := visit_item interval limit (fst iw) (snd iw) in
       (fst acc ++ pushed (fst v), snd acc ++ snd v))
    items acc
  = (fst acc ++ omap (fun iw => fst (visit_item interval limit (fst iw) (snd iw)))
                     items,
     snd acc ++ flat_map (fun iw => snd (visit_item interval limit (fst iw) (snd iw)))
                         items).
Proof.
  revert acc. induction items as [|iw items IH]; intros [ss rs]; simpl.
  - rewrite !app_nil_r. reflexivity.
  - rewrite IH. simpl. rewrite <- !app_assoc. f_equal. f_equal.
    destruct (fst (visit_item interval limit (fst iw) (snd iw))); reflexivity.
Qed.

Lemma discover_loop_flat (interval : string) (limit : pval)
    (items : list (listing_item * asset_replies)) :
  discover_loop interval limit items
  = (omap (fun iw => fst (visit_item interval limit (fst iw) (snd iw))) items,
     flat_map (fun iw => snd (visit_item interval limit (fst iw) (snd iw))) items).
Proof. unfold discover_loop. rewrite discover_loop_from. reflexivity. Qed.

Lemma is_stable_In (base : string) : is_stable base = true <-> In base STABLES.
Proof.
  unfold is_stable. rewrite existsb_exists. split.
  - intros (x & Hin & Heq). apply String.eqb_eq in Heq. subst. exact Hin.
  - intros Hin. exists base. split; [exact Hin|apply String.eqb_refl].
Qed.

Lemma tradable_base_spec (item : listing_item) (base : string) :
  tradable_base item = Some base <->
  i_symbol item = Some base /\ base <> EmptyString /\ ~ In base STABLES.
Proof.
  unfold tradable_base. destruct (i_symbol item) as [b|].
  - destruct (String.eqb_spec b EmptyString) as [->|Hne]; simpl.
    + split; [discriminate|]. intros ([= <-] & H & _). contradiction.
    + destruct (is_stable b) eqn:Est.
      * split; [discriminate|]. intros ([= <-] & _ & H).
        apply is_stable_In in Est. contradiction.
      * split.
        -- intros [= <-]. split; [reflexivity|]. split; [exact Hne|].
           intros Hin. apply is_stable_In in Hin. congruence.
        -- intros ([= <-] & _). reflexivity.
  - split; [discriminate|]. intros ([=] & _).
Qed.

(** One turn of the loop, by the base symbol it goes on with. *)
Lemma visit_item_cases (interval : string) (limit : pval)
    (item : listing_item) (w : asset_replies) :
  match tradable_base item with
  | None => visit_item interval limit item w = (None, [])
  | Some base =>
      let symbol := base +:+ "USDT" in
      let treq := TickerRequest symbol in
      let kreq := KlinesRequest symbol interval (string_of_pval limit) in
      (exists tick klines,
          r_ticker w = Replied true (Some tick) /\
          r_klines w = Replied true (Some klines) /\
          visit_item interval limit item w
          = (Some (summarize base (option_map priceChangePercent tick)
                             (option_map volume tick) klines
                             (Some (i_cmc item))),
             [treq; kreq])) \/
      (~ replies_ok w /\
       (visit_item interval limit item w = (None, [treq]) \/
        visit_item interval limit item w = (None, [treq; kreq])))
  end.
Proof.
  unfold tradable_base, visit_item. destruct (i_symbol item) as [base|];
    [|reflexivity].
  destruct (String.eqb base EmptyString || is_stable base); [reflexivity|].
  cbv zeta.
  destruct (r_ticker w) as [|[|] [tick|]] eqn:Et;
    try (right; split; [intros (? & ? & H & _); congruence|left; reflexivity]).
  destruct (r_klines w) as [|[|] [klines|]] eqn:Ek;
    try (right; split; [intros (? & ? & _ & H); congruence|right; reflexivity]).
  left. exists tick, klines. repeat split.
Qed.

Lemma omap_cons {A B} (f : A -> option B) (x : A) (l : list A) :
  omap f (x :: l)
  = match f x with Some y => y :: omap f l | None => omap f l end.
Proof. reflexivity. Qed.

Lemma omap_length_le {A B} (f : A -> option B) (l : list A) :
  (length (omap f l) <= length l)%nat.
Proof.
  induction l as [|x l IH]; [reflexivity|].
  rewrite omap_cons. destruct (f x); simpl; lia.
Qed.

(** X20: the assets of a listing are handled independently: the summaries
    and the requests of a listing made of two parts are those of the first
    part followed by those of the second, and an element that yields no
    summary (stable coin, missing symbol, failed fetch) can be taken out
    of the listing without changing the summaries of the others. *)
Theorem assets_are_independent (interval : string) (limit : pval)
    (xs ys : list (listing_item * asset_replies))
    (bad : listing_item * asset_replies) :
  discover_loop interval limit (xs ++ ys)
  = (fst (discover_loop interval limit xs) ++ fst (discover_loop interval limit ys),
     snd (discover_loop interval limit xs) ++ snd (discover_loop interval limit ys))
  /\
  (fst (visit_item interval limit (fst bad) (snd bad)) = None ->
   fst (discover_loop interval limit (xs ++ bad :: ys))
   = fst (discover_loop interval limit (xs ++ ys))).
Proof.
  rewrite !discover_loop_flat. simpl. split.
  - rewrite omap_app, flat_map_app. reflexivity.
  - intros Hbad. rewrite !omap_app. simpl. rewrite Hbad. reflexivity.
Qed.

(** A stable coin between two assets. *)
Lemma assets_are_independent_witness :
  let w := AssetReplies (Replied true (Some None)) (Replied true (Some [])) in
  let btc := (ListingItem (Some "BTC") (Provenance JUndef JUndef JUndef), w) in
  let usdc := (ListingItem (Some "USDC") (Provenance JUndef JUndef JUndef), w) in
  let eth := (ListingItem (Some "ETH") (Provenance JUndef JUndef JUndef), w) in
  fst (discover_loop "1h" (PInt 250) ([btc] ++ usdc :: [eth]))
  = fst (discover_loop "1h" (PInt 250) ([btc] ++ [eth])).
Proof.
  cbv zeta.
  apply (assets_are_independent "1h" (PInt 250)). reflexivity.
Defined.

Lemma loop_summary_origin (interval : string) (limit : pval)
    (items : list (listing_item * asset_replies)) (s : summary) :
  In s (fst (discover_loop interval limit items)) ->
  exists item w base,
    In (item, w) items /\
    i_symbol item = Some base /\ base <> EmptyString /\
    ~ In base STABLES /\ replies_ok w /\
    symbol s = base +:+ "USDT" /\ cmc s = Some (i_cmc item).
Proof.
  rewrite discover_loop_flat. cbn [fst].
  intros Hs. apply list_elem_of_In, list_elem_of_omap in Hs
    as ([item w] & Hin & Hv). simpl in Hv.
  pose proof (visit_item_cases interval limit item w) as Hc.
  destruct (tradable_base item) as [base|] eqn:Hb.
  - apply tradable_base_spec in Hb as (Hsym & Hne & Hst).
    destruct Hc as [(tick & klines & Ht & Hk & Hvis)|[_ [Hvis|Hvis]]];
      rewrite Hvis in Hv; try discriminate.
    injection Hv as <-.
    exists item, w, base. split; [apply list_elem_of_In; exact Hin|].
    repeat split; try assumption. exists tick, klines. auto.
  - rewrite Hc in Hv. discriminate.
Qed.

(** X21: every summary of the loop comes from an element of the listing
    whose symbol is present, not empty and not a stable coin, and whose
    two fetches succeeded; its symbol is that base symbol followed by
    USDT, its provenance block is present and holds the element's fields,
    and the summaries are in the order of the listing. *)
Theorem summaries_come_from_listing (interval : string) (limit : pval)
    (items : list (listing_item * asset_replies)) :
  fst (discover_loop interval limit items)
  = omap (fun iw => fst (visit_item interval limit (fst iw) (snd iw))) items /\
  (forall s, In s (fst (discover_loop interval limit items)) ->
     exists item w base,
       In (item, w) items /\
       i_symbol item = Some base /\ base <> EmptyString /\
       ~ In base STABLES /\ replies_ok w /\
       symbol s = base +:+ "USDT" /\ cmc s = Some (i_cmc item)).
Proof.
  split.
  - rewrite discover_loop_flat. reflexivity.
  - intros s. apply loop_summary_origin.
Qed.

(** X22: no request is ever made for a stable coin or for an element
    without a symbol: every request of the loop is for the pair of a base
    symbol of the listing that is not empty and not in the stable set; the
    klines of an asset are requested only after its ticker, and there are
    at most two requests per element and at most one summary. *)
Theorem requests_skip_stables (interval : string) (limit : pval)
    (items : list (listing_item * asset_replies)) :
  (forall item w, tradable_base item = None ->
     visit_item interval limit item w = (None, [])) /\
  (forall req, In req (snd (discover_loop interval limit items)) ->
     exists item w base,
       In (item, w) items /\ i_symbol item = Some base /\
       base <> EmptyString /\ ~ In base STABLES /\
       (req = TickerRequest (base +:+ "USDT") \/
        req = KlinesRequest (base +:+ "USDT") interval (string_of_pval limit) /\
        In (TickerRequest (base +:+ "USDT"))
           (snd (visit_item interval limit item w)))) /\
  (length (snd (discover_loop interval limit items)) <= 2 * length items)%nat /\
  (length (fst (discover_loop interval limit items)) <= length items)%nat.
Proof.
  rewrite discover_loop_flat. simpl. split; [|split; [|split]].
  - intros item w Hb. pose proof (visit_item_cases interval limit item w) as Hc.
    rewrite Hb in Hc. exact Hc.
  - intros req Hreq. apply in_flat_map in Hreq as ([item w] & Hin & Hreq).
    simpl in Hreq.
    pose proof (visit_item_cases interval limit item w) as Hc.
    destruct (tradable_base item) as [base|] eqn:Hb;
      [|rewrite Hc in Hreq; destruct Hreq].
    apply tradable_base_spec in Hb as (Hsym & Hne & Hst).
    exists item, w, base. repeat split; try assumption.
    cbv zeta in Hc.
    destruct Hc as [(tick & klines & _ & _ & Hvis)|[_ [Hvis|Hvis]]];
      rewrite Hvis in *; simpl in Hreq |- *;
      destruct Hreq as [<-|Hreq]; try tauto;
      destruct Hreq as [<-|[]]; tauto.
  - induction items as [|[item w] items IH]; simpl; [lia|].
    rewrite length_app.
    assert (Hv : (length (snd (visit_item interval limit item w)) <= 2)%nat).
    { pose proof (visit_item_cases interval limit item w) as Hc.
      destruct (tradable_base item);
        [destruct Hc as [(? & ? & _ & _ & ->)|[_ [->| ->]]]|rewrite Hc];
        simpl; lia. }
    revert IH Hv. simpl.
    generalize (length (snd (visit_item interval limit item w))).
    generalize (length (flat_map
                          (fun iw : listing_item * asset_replies =>
                             snd (visit_item interval limit (fst iw) (snd iw)))
                          items)).
    generalize (length items). intros; lia.
  - apply omap_length_le.
Qed.

(** X23: when every fetch of a run succeeds, the loop yields one summary
    for each element of the listing whose symbol is present, not empty and
    not a stable coin, in the order of the listing, and nothing for the
    others. *)
Theorem stables_skipped_exactly (interval : string) (limit : pval)
    (items : list (listing_item * asset_replies)) :
  (forall item w, In (item, w) items -> replies_ok w) ->
  map symbol (fst (discover_loop interval limit items))
  = omap (fun iw => option_map (fun base => base +:+ "USDT")
                               (tradable_base (fst iw))) items.
Proof.
  rewrite discover_loop_flat. cbn [fst].
  induction items as [|[item w] items IH]; intros Hok; [reflexivity|].
  rewrite !omap_cons. cbn [fst snd].
  pose proof (visit_item_cases interval limit item w) as Hc.
  assert (Hrest : forall i v, In (i, v) items -> replies_ok v)
    by (intros i v Hin; apply (Hok i v); right; exact Hin).
  destruct (tradable_base item) as [base|].
  - destruct Hc as [(tick & klines & _ & _ & Hvis)|[Hbad _]].
    + rewrite Hvis. cbn [fst option_map map]. rewrite (IH Hrest). reflexivity.
    + contradiction Hbad. apply (Hok item w). left. reflexivity.
  - rewrite Hc. cbn [fst option_map]. apply IH. exact Hrest.
Qed.

(** Three elements, one of them a stable coin, and no failure. *)
Lemma stables_skipped_exactly_witness :
  let w := AssetReplies (Replied true (Some None)) (Replied true (Some [])) in
  map symbol
    (fst (discover_loop "1h" (PInt 250)
            [(ListingItem (Some "BTC") (Provenance JUndef JUndef JUndef), w);
             (ListingItem (Some "USDT") (Provenance JUndef JUndef JUndef), w);
             (ListingItem (Some "ETH") (Provenance JUndef JUndef JUndef), w)]))
  = ["BTCUSDT"; "ETHUSDT"].
Proof.
  cbv zeta.
  apply (stables_skipped_exactly "1h" (PInt 250)
           [(ListingItem (Some "BTC") (Provenance JUndef JUndef JUndef),
             AssetReplies (Replied true (Some None)) (Replied true (Some [])));
            (ListingItem (Some "USDT") (Provenance JUndef JUndef JUndef),
             AssetReplies (Replied true (Some None)) (Replied true (Some [])));
            (ListingItem (Some "ETH") (Provenance JUndef JUndef JUndef),
             AssetReplies (Replied true (Some None)) (Replied true (Some [])))]).
  intros item w [[= <- <-]|[[= <- <-]|[[= <- <-]|[]]]];
    exists None, []; split; reflexivity.
Defined.

(** ** The discovery tools end to end *)

(** X24: whatever the listing and the replies of the exchange, every entry
    of the result of discover-top and of discover-pick is the pair of a
    base symbol of the listing that is not a stable coin, with its
    provenance block present; an entry of discover-pick moreover has a
    rank that is not undefined and that, read as a number (a null rank
    reads as 0), is at most [rankMax], and an atrPercent that is present,
    at most [atrPctMax] and not [NaN]. *)
Theorem discovery_results_sound (param : option string) (rankMax atrPctMax : num)
    (interval : string) (limit : pval) (resultCount : Z)
    (items : list (listing_item * asset_replies)) (s : summary) :
  (In s (discover_top interval limit resultCount items) \/
   In s (discover_pick param rankMax atrPctMax interval limit resultCount items)
   ->
   exists item w base,
     In (item, w) items /\ i_symbol item = Some base /\
     ~ In base STABLES /\ symbol s = base +:+ "USDT" /\
     cmc s = Some (i_cmc item)) /\
  (In s (discover_pick param rankMax atrPctMax interval limit resultCount items)
   ->
   exists item w a,
     In (item, w) items /\ cmc s = Some (i_cmc item) /\
     rank (i_cmc item) <> JUndef /\
     le (to_num (rank (i_cmc item))) rankMax /\
     atrPct s = Some a /\ le a atrPctMax /\ a <> NaN /\ atr_key s = a).
Proof.
  unfold discover_top, discover_pick, discover_top_rank, discover_pick_rank.
  split.
  - intros [Hs|Hs]; apply slice0_In, js_sort_In in Hs.
    + destruct (loop_summary_origin _ _ _ _ Hs)
        as (item & w & base & Hin & Hsym & _ & Hst & _ & Hname & Hcmc).
      exists item, w, base. auto.
    + rewrite <- list_elem_of_In, list_elem_of_filter, list_elem_of_In in Hs.
      destruct Hs as [_ Hs].
      destruct (loop_summary_origin _ _ _ _ Hs)
        as (item & w & base & Hin & Hsym & _ & Hst & _ & Hname & Hcmc).
      exists item, w, base. auto.
  - intros Hs. apply slice0_In, js_sort_In in Hs.
    rewrite <- list_elem_of_In, list_elem_of_filter, list_elem_of_In in Hs.
    destruct Hs as [Hpass Hs].
    destruct (loop_summary_origin _ _ _ _ Hs)
      as (item & w & base & Hin & _ & _ & _ & _ & _ & Hcmc).
    apply pick_filter_spec in Hpass as [(c & Hc & Hdef & Hle) (a & Ha & Hale)].
    rewrite Hcmc in Hc. injection Hc as <-.
    exists item, w, a. unfold atr_key. rewrite Ha.
    split; [exact Hin|]. split; [exact Hcmc|]. split; [exact Hdef|].
    split; [exact Hle|]. split; [reflexivity|]. split; [exact Hale|].
    split; [|reflexivity].
    intros ->. unfold le in Hale. simpl in Hale. discriminate Hale.
Qed.

(** ** The example script ranks as discover-top *)

Lemma ltb_same (x x' y y' : num) :
  same x x' -> same y y' -> ltb x y = ltb x' y'.
Proof.
  destruct x as [a| | |], x' as [a'| | |]; simpl; try contradiction;
    destruct y as [b| | |], y' as [b'| | |]; simpl; try contradiction;
    try reflexivity.
  intros Ha Hb. rewrite Ha, Hb. reflexivity.
Qed.

Lemma script_move_same (s : summary) :
  pct24h s <> Some NaN -> same (script_move s) (move_key s).
Proof.
  unfold script_move, move_key. destruct (pct24h s) as [[q| | |]|];
    cbn [truthy abs]; try reflexivity; try congruence.
  intros _. destruct (Qeq_bool q 0) eqn:E; cbn [negb]; [|reflexivity].
  apply Qeq_bool_eq in E. change (inject_Z 0 == Qabs q)%Q.
  change (inject_Z 0) with 0%Q. rewrite E. reflexivity.
Qed.

(** X25: the comparator of the example script orders two summaries as the
    comparator of discover-top does (rating score, then atrPercent, then
    absolute 24h change, no volume), provided neither 24h change is
    [NaN]. *)
Theorem script_ranks_as_discover_top (a b : summary) :
  pct24h a <> Some NaN -> pct24h b <> Some NaN ->
  (puts_first (cmp_script a b) <-> before_no_volume a b) /\
  (puts_last (cmp_script a b) <-> before_no_volume b a) /\
  (puts_first (cmp_script a b) <-> puts_first (cmp_top a b)) /\
  (puts_last (cmp_script a b) <-> puts_last (cmp_top a b)).
Proof.
  intros Ha Hb.
  pose proof (script_move_same a Ha) as Sa.
  pose proof (script_move_same b Hb) as Sb.
  destruct (last_key_decides (script_move b) (script_move a)) as [Hm1 Hm2].
  destruct (last_key_decides (move_key b) (move_key a)) as [Hk1 Hk2].
  assert (E1 : lt (script_move b) (script_move a) <-> lt (move_key b) (move_key a))
    by (unfold lt; rewrite (ltb_same _ _ _ _ Sb Sa); tauto).
  assert (E2 : lt (script_move a) (script_move b) <-> lt (move_key a) (move_key b))
    by (unfold lt; rewrite (ltb_same _ _ _ _ Sa Sb); tauto).
  unfold puts_first, puts_last, before_no_volume, cmp_script, cmp_top.
  cbv zeta.
  set (ra := ratingScore (s_rating a)). set (rb := ratingScore (s_rating b)).
  assert (F1 : lt (if negb (eqb rb ra) then (rb - ra)%num
                   else if negb (eqb (atr_key a) (atr_key b))
                        then (atr_key a - atr_key b)%num
                        else (script_move b - script_move a)%num) (of_Z 0)
               <-> lt rb ra \/
                   (Num.eq ra rb /\
                    (lt (atr_key a) (atr_key b) \/
                     (Num.eq (atr_key a) (atr_key b) /\
                      lt (move_key b) (move_key a))))).
  { rewrite key_decides; [|apply key_decides; rewrite Hm1; exact E1].
    rewrite (eq_sym_iff rb ra). tauto. }
  assert (F2 : lt (of_Z 0)
                  (if negb (eqb rb ra) then (rb - ra)%num
                   else if negb (eqb (atr_key a) (atr_key b))
                        then (atr_key a - atr_key b)%num
                        else (script_move b - script_move a)%num)
               <-> lt ra rb \/
                   (Num.eq rb ra /\
                    (lt (atr_key b) (atr_key a) \/
                     (Num.eq (atr_key b) (atr_key a) /\
                      lt (move_key a) (move_key b))))).
  { rewrite key_decides_rev; [|apply key_decides_rev; rewrite Hm2; exact E2].
    rewrite (eq_sym_iff ra rb). tauto. }
  assert (G1 : lt (if negb (eqb rb ra) then (rb - ra)%num
                   else if negb (eqb (atr_key a) (atr_key b))
                        then (atr_key a - atr_key b)%num
                        else (move_key b - move_key a)%num) (of_Z 0)
               <-> lt rb ra \/
                   (Num.eq ra rb /\
                    (lt (atr_key a) (atr_key b) \/
                     (Num.eq (atr_key a) (atr_key b) /\
                      lt (move_key b) (move_key a))))).
  { rewrite key_decides; [|apply key_decides; exact Hk1].
    rewrite (eq_sym_iff rb ra). tauto. }
  assert (G2 : lt (of_Z 0)
                  (if negb (eqb rb ra) then (rb - ra)%num
                   else if negb (eqb (atr_key a) (atr_key b))
                        then (atr_key a - atr_key b)%num
                        else (move_key b - move_key a)%num)
               <-> lt ra rb \/
                   (Num.eq rb ra /\
                    (lt (atr_key b) (atr_key a) \/
                     (Num.eq (atr_key b) (atr_key a) /\
                      lt (move_key a) (move_key b))))).
  { rewrite key_decides_rev; [|apply key_decides_rev; exact Hk2].
    rewrite (eq_sym_iff ra rb). tauto. }
  tauto.
Qed.

(** A 24h change of 0, which the script tests for truthiness. *)
Lemma script_ranks_as_discover_top_witness :
  let a := Summary "AUSDT" None (Some (Fin 0)) None None None Neutral None in
  let b := Summary "BUSDT" None (Some (Fin (-3))) None None None Neutral None in
  puts_last (cmp_script a b) <-> puts_last (cmp_top a b).
Proof.
  cbv zeta.
  refine (proj2 (proj2 (proj2 (script_ranks_as_discover_top _ _ _ _))));
    discriminate.
Defined.

(** ** Cache keys of different endpoints *)

Lemma append_nil_l (s : string) : EmptyString +:+ s = s.
Proof. reflexivity. Qed.

Lemma append_cons_l (c : ascii) (s t : string) :
  String c s +:+ t = String c (s +:+ t).
Proof. reflexivity. Qed.

Lemma split_at_bar (e1 e2 j1 j2 : string) :
  has_bar e1 = false -> has_bar e2 = false ->
  e1 +:+ "|" +:+ j1 = e2 +:+ "|" +:+ j2 -> e1 = e2 /\ j1 = j2.
Proof.
  revert e2. induction e1 as [|c1 e1 IH]; intros [|c2 e2] H1 H2 Heq;
    rewrite ?append_nil_l, ?append_cons_l in Heq;
    rewrite ?append_nil_l in Heq; cbn [has_bar] in *.
  - injection Heq as ->. split; reflexivity.
  - injection Heq as <- _. discriminate H2.
  - injection Heq as -> _. discriminate H1.
  - apply orb_false_iff in H1 as [_ H1]. apply orb_false_iff in H2 as [_ H2].
    injection Heq as -> Heq. destruct (IH e2 H1 H2 Heq) as [-> ->].
    split; reflexivity.
Qed.

(** X26: two endpoints without a vertical bar in their names, as all the
    endpoints of the tools are, never share a cache entry: their keys
    differ whatever the parameters, so a call to one leaves what is cached
    for the other as it is. *)
Theorem endpoints_do_not_share (e1 e2 : string) (p1 p2 : object pval) :
  has_bar e1 = false -> has_bar e2 = false -> e1 <> e2 ->
  buildCacheKey e1 p1 <> buildCacheKey e2 p2 /\
  (forall ttl cache now resp now',
     cache_after (makeApiRequest ttl cache e1 p1 now resp now')
       !! buildCacheKey e2 p2
     = cache !! buildCacheKey e2 p2) /\
  Forall (fun e => has_bar e = false) endpoints.
Proof.
  intros H1 H2 Hne.
  assert (Hkey : buildCacheKey e1 p1 <> buildCacheKey e2 p2).
  { unfold buildCacheKey. intros Heq.
    destruct (split_at_bar _ _ _ _ H1 H2 Heq) as [He _]. contradiction. }
  split; [exact Hkey|]. split.
  - intros ttl cache now resp now'. apply call_frame. congruence.
  - repeat constructor.
Qed.

(** The listings of coins and the listings of exchanges take the same
    parameters. *)
Lemma endpoints_do_not_share_witness :
  buildCacheKey "/cryptocurrency/listings/latest" [("limit", PStr "100")]
  <> buildCacheKey "/exchange/listings/latest" [("limit", PStr "100")].
Proof.
  refine (proj1 (endpoints_do_not_share "/cryptocurrency/listings/latest"
                   "/exchange/listings/latest" [("limit", PStr "100")]
                   [("limit", PStr "100")] _ _ _)).
  - reflexivity.
  - reflexivity.
  - discriminate.
Defined.

(** ** Empty histories *)

Lemma arr_get_last (l : list num) :
  nullish_null (arr_get l (arr_length l - 1)) = last l.
Proof.
  destruct l as [|x l] using rev_ind; [reflexivity|].
  rewrite last_snoc. unfold arr_get, arr_length. rewrite length_app. simpl.
  destruct (Z.ltb_spec (Z.of_nat (length l + 1) - 1) 0) as [?|_]; [lia|].
  replace (Z.to_nat (Z.of_nat (length l + 1) - 1)) with (length l) by lia.
  rewrite nth_error_app2 by lia. rewrite Nat.sub_diag. reflexivity.
Qed.

(** X28: the price of a summary is the close of the last candle, and is
    absent exactly when the history is empty; an asset whose two fetches
    succeed with an empty history is not skipped: the loop pushes a
    summary for it with no price, no atrPercent, no trend and a neutral
    rating. *)
Theorem empty_history_still_listed (interval : string) (limit : pval)
    (item : listing_item) (base : string) (tick : option ticker)
    (klines : list candle) :
  let s := summarize base (option_map priceChangePercent tick)
                     (option_map volume tick) klines (Some (i_cmc item)) in
  price s = option_map close (last klines) /\
  (price s = None <-> klines = []) /\
  (tradable_base item = Some base ->
   visit_item interval limit item
     (AssetReplies (Replied true (Some tick)) (Replied true (Some [])))
   = (Some (Summary (base +:+ "USDT") None
                    (option_map priceChangePercent tick)
                    (option_map volume tick) None None Neutral
                    (Some (i_cmc item))),
      [TickerRequest (base +:+ "USDT");
       KlinesRequest (base +:+ "USDT") interval (string_of_pval limit)])).
Proof.
  cbv zeta. simpl price.
  assert (Hprice : last_close (map close klines) = option_map close (last klines)).
  { unfold last_close. rewrite arr_get_last.
    destruct klines as [|k ks] using rev_ind; [reflexivity|].
    rewrite map_app, !last_snoc. simpl. rewrite last_snoc. reflexivity. }
  split; [exact Hprice|]. split.
  - rewrite Hprice. destruct klines as [|k ks] using rev_ind.
    + split; reflexivity.
    + rewrite last_snoc. simpl. split; [discriminate|].
      intros H. apply app_eq_nil in H as [_ H]. discriminate.
  - intros Hb. apply tradable_base_spec in Hb as (Hsym & Hne & Hst).
    unfold visit_item. rewrite Hsym.
    apply String.eqb_neq in Hne. rewrite Hne.
    destruct (is_stable base) eqn:Est;
      [apply is_stable_In in Est; contradiction|].
    reflexivity.
Qed.

(** Bitcoin with a ticker and no candle. *)
Lemma empty_history_still_listed_witness :
  fst (visit_item "1h" (PInt 250)
         (ListingItem (Some "BTC") (Provenance JUndef JUndef (JNum (of_Z 1))))
         (AssetReplies (Replied true (Some None)) (Replied true (Some []))))
  = Some (Summary "BTCUSDT" None None None None None Neutral
                  (Some (Provenance JUndef JUndef (JNum (of_Z 1))))).
Proof.
  pose proof (empty_history_still_listed "1h" (PInt 250)
                (ListingItem (Some "BTC") (Provenance JUndef JUndef (JNum (of_Z 1))))
                "BTC" None []) as (_ & _ & H).
  rewrite (H eq_refl). reflexivity.
Defined.
